(** * threeJsModeTray: the lifecycle of the single-model 3D viewer

    A shallow embedding of [src/index.ts].  The module keeps seven
    module-level handles ([scene], [camera], [renderer], [controls],
    [model], [mixer], [resizeObserver]) and four exported operations
    ([init], [modelPathstate], [clearCurrentModel], [allDestroyed]); the host
    calls back into it when a model has been decoded, when an animation frame
    is due and when the observed element changes size.

    JavaScript numbers are IEEE binary64 values: they are Rocq's primitive
    floats.  Objects live in one heap and are referred to by their address;
    a handle is [None] while the variable is [undefined].  A call that
    dereferences [undefined] completes abruptly (a [TypeError]) and keeps the
    writes made before it.

    The 3D engine (three.js), the orbit controller, the GLTF loader and the
    DOM are not part of the repository.  Each engine object carries the
    fields the module sets or the properties below talk about, and each
    engine call is recorded on the object it is invoked on; the engine's own
    numerics (the matrix entries, the pixels drawn) are outside the
    embedding.  So is the position [OrbitControls.update()] gives the camera:
    a camera position is the vector the module wrote last together with the
    number of controller updates that have recomputed it since. *)

From Stdlib Require Import PrimFloat FloatOps FloatAxioms SpecFloat ZArith Lia.
From stdpp Require Import base option list strings.

(* Decimal literals such as 0.016 denote the nearest binary64 value, as they
   do in JavaScript. *)
Set Warnings "-inexact-float".

(** ** Configuration (the exported interfaces) *)

Record positionClass : Type := {
  x : float;
  y : float;
  z : float
}.

Record propsClass : Type := {
  cameraPosition : positionClass;
  modelPath : string;
  scale : float;
  position : positionClass
}.

(** ** Engine and host objects *)

Record Vector3 : Type := Vec3 { vx : float; vy : float; vz : float }.

(** [v.set(a, b, c)] *)
Definition Vector3_set (a b c : float) (_ : Vector3) : Vector3 := Vec3 a b c.

Definition origin : Vector3 := Vec3 0 0 0.

Record Scene : Type := {
  background : option Z;            (* [null] is [None] *)
  children : list nat
}.

(** The position of a camera.  The module writes it with [position.set];
    every [OrbitControls.update()] then recomputes it from its spherical
    coordinates about the controller's target, with the distance kept
    between [minDistance] and [maxDistance].  What comes out is the
    engine's: the embedding keeps the vector written last and how many
    updates it has been through since. *)
Record Pose : Type := {
  written : Vector3;
  recomputed : nat
}.

(** [position.set(a, b, c)] *)
Definition Pose_set (a b c : float) (_ : Pose) : Pose :=
  {| written := Vec3 a b c; recomputed := 0 |}.

(** The four numbers a perspective projection matrix is computed from. *)
Record Frustum : Type := {
  f_fov : float; f_aspect : float; f_near : float; f_far : float
}.

Record PerspectiveCamera : Type := {
  fov : float;
  aspect : float;
  near : float;
  far : float;
  cam_position : Pose;
  projectionMatrix : Frustum        (* as of the last [updateProjectionMatrix] *)
}.

Record WebGLRenderer : Type := {
  antialias : bool;
  alpha : bool;
  pixelRatio : float;
  domElement : nat;
  size : option (float * float);    (* the last [setSize(width, height)] *)
  disposed : bool;
  contextLost : bool;
  rendered : list (nat * nat)       (* every [render(scene, camera)] so far *)
}.

Record OrbitControls : Type := {
  object : nat;
  ctl_domElement : nat;
  enableDamping : bool;
  dampingFactor : float;
  screenSpacePanning : bool;
  minDistance : float;
  maxDistance : float;
  target : Vector3;
  updates : nat;                    (* damping steps taken by [update()] *)
  connected : bool                  (* event bindings, dropped by [dispose()] *)
}.

Inductive LightKind : Type := AmbientLight | DirectionalLight.

Record Light : Type := {
  kind : LightKind;
  color : Z;
  intensity : float;
  light_position : Vector3
}.

Record Group : Type := {
  grp_scale : Vector3;
  grp_position : Vector3
}.

(** Clips are told apart by the engine's identifier for them. *)
Definition AnimationClip : Type := nat.

Inductive LoopMode : Type := LoopOnce | LoopRepeat | LoopPingPong.

Record AnimationAction : Type := {
  clip : AnimationClip;
  loop : LoopMode;
  running : bool
}.

Record AnimationMixer : Type := {
  root : nat;
  actions : list AnimationAction;   (* the actions cached for [root] *)
  time : float
}.

Record ResizeObserverObj : Type := {
  callback : nat;                   (* the element captured by the callback *)
  observing : list nat
}.

Record HTMLElement : Type := {
  clientWidth : float;
  clientHeight : float;
  childNodes : list nat
}.

Record Canvas : Type := { parentNode : option nat }.

Inductive Obj : Type :=
| OScene (s : Scene)
| OCamera (c : PerspectiveCamera)
| ORenderer (r : WebGLRenderer)
| OControls (c : OrbitControls)
| OLight (l : Light)
| OGroup (g : Group)
| OMixer (m : AnimationMixer)
| OObserver (o : ResizeObserverObj)
| OElement (e : HTMLElement)
| OCanvas (c : Canvas).

(** A load in flight: the address asked for and the [props] its completion
    callback closes over. *)
Record Request : Type := { url : string; closure : propsClass }.

(** What the loader hands to the completion callback. *)
Record GLTF : Type := { gltf_scene : Group; animations : list AnimationClip }.

(** ** The module's state and its surroundings *)

Record World : Type := {
  scene : option nat;
  camera : option nat;
  renderer : option nat;
  controls : option nat;
  model : option nat;
  mixer : option nat;
  resizeObserver : option nat;
  heap : list Obj;
  devicePixelRatio : float;         (* [window.devicePixelRatio] *)
  loading : list Request;           (* loads not yet resolved *)
  animationFrames : nat             (* [animate] callbacks waiting for a frame *)
}.

Definition set_scene (v : option nat) (w : World) : World :=
  {| scene := v; camera := camera w; renderer := renderer w;
     controls := controls w; model := model w; mixer := mixer w;
     resizeObserver := resizeObserver w; heap := heap w;
     devicePixelRatio := devicePixelRatio w; loading := loading w;
     animationFrames := animationFrames w |}.

Definition set_camera (v : option nat) (w : World) : World :=
  {| scene := scene w; camera := v; renderer := renderer w;
     controls := controls w; model := model w; mixer := mixer w;
     resizeObserver := resizeObserver w; heap := heap w;
     devicePixelRatio := devicePixelRatio w; loading := loading w;
     animationFrames := animationFrames w |}.

Definition set_renderer (v : option nat) (w : World) : World :=
  {| scene := scene w; camera := camera w; renderer := v;
     controls := controls w; model := model w; mixer := mixer w;
     resizeObserver := resizeObserver w; heap := heap w;
     devicePixelRatio := devicePixelRatio w; loading := loading w;
     animationFrames := animationFrames w |}.

Definition set_controls (v : option nat) (w : World) : World :=
  {| scene := scene w; camera := camera w; renderer := renderer w;
     controls := v; model := model w; mixer := mixer w;
     resizeObserver := resizeObserver w; heap := heap w;
     devicePixelRatio := devicePixelRatio w; loading := loading w;
     animationFrames := animationFrames w |}.

Definition set_model (v : option nat) (w : World) : World :=
  {| scene := scene w; camera := camera w; renderer := renderer w;
     controls := controls w; model := v; mixer := mixer w;
     resizeObserver := resizeObserver w; heap := heap w;
     devicePixelRatio := devicePixelRatio w; loading := loading w;
     animationFrames := animationFrames w |}.

Definition set_mixer (v : option nat) (w : World) : World :=
  {| scene := scene w; camera := camera w; renderer := renderer w;
     controls := controls w; model := model w; mixer := v;
     resizeObserver := resizeObserver w; heap := heap w;
     devicePixelRatio := devicePixelRatio w; loading := loading w;
     animationFrames := animationFrames w |}.

Definition set_resizeObserver (v : option nat) (w : World) : World :=
  {| scene := scene w; camera := camera w; renderer := renderer w;
     controls := controls w; model := model w; mixer := mixer w;
     resizeObserver := v; heap := heap w;
     devicePixelRatio := devicePixelRatio w; loading := loading w;
     animationFrames := animationFrames w |}.

Definition set_heap (f : list Obj -> list Obj) (w : World) : World :=
  {| scene := scene w; camera := camera w; renderer := renderer w;
     controls := controls w; model := model w; mixer := mixer w;
     resizeObserver := resizeObserver w; heap := f (heap w);
     devicePixelRatio := devicePixelRatio w; loading := loading w;
     animationFrames := animationFrames w |}.

Definition set_loading (f : list Request -> list Request) (w : World) : World :=
  {| scene := scene w; camera := camera w; renderer := renderer w;
     controls := controls w; model := model w; mixer := mixer w;
     resizeObserver := resizeObserver w; heap := heap w;
     devicePixelRatio := devicePixelRatio w; loading := f (loading w);
     animationFrames := animationFrames w |}.

Definition set_animationFrames (f : nat -> nat) (w : World) : World :=
  {| scene := scene w; camera := camera w; renderer := renderer w;
     controls := controls w; model := model w; mixer := mixer w;
     resizeObserver := resizeObserver w; heap := heap w;
     devicePixelRatio := devicePixelRatio w; loading := loading w;
     animationFrames := f (animationFrames w) |}.

(** ** Computations: state, and abrupt completion by [TypeError] *)

Inductive completion (A : Type) : Type :=
| Normal (a : A) (w : World)
| TypeError (w : World).
Arguments Normal {A} a w.
Arguments TypeError {A} w.

Definition Js (A : Type) : Type := World -> completion A.

#[global] Instance Js_ret : MRet Js := fun A a w => Normal a w.

#[global] Instance Js_bind : MBind Js := fun A B k m w =>
  match m w with
  | Normal a w' => k a w'
  | TypeError w' => TypeError w'
  end.

(** The world a computation leaves behind, however it completes. *)
Definition world_of {A} (r : completion A) : World :=
  match r with Normal _ w => w | TypeError w => w end.

Definition modify (f : World -> World) : Js unit := fun w => Normal tt (f w).

(** [new C(...)]: the object gets the next free address. *)
Definition alloc (o : Obj) : Js nat := fun w =>
  Normal (length (heap w)) (set_heap (fun h => h ++ [o]) w).

(** A method call on the object at address [i]. *)
Definition update (i : nat) (f : Obj -> Obj) : Js unit :=
  modify (set_heap (alter f i)).

(** [h.m(...)] for a module variable [h]: a [TypeError] when [h] is
    [undefined]. *)
Definition via {A} (h : World -> option nat) (k : nat -> Js A) : Js A := fun w =>
  match h w with
  | Some i => k i w
  | None => TypeError w
  end.

(** [if (h) { ... }] for a module variable [h]. *)
Definition when (h : World -> option nat) (k : nat -> Js unit) : Js unit := fun w =>
  match h w with
  | Some i => k i w
  | None => Normal tt w
  end.

(** A step that depends on the state it is run in. *)
Definition reading {A} (k : World -> Js A) : Js A := fun w => k w w.

(** Reading a property of the object at address [i]. *)
Definition field {A} (i : nat) (proj : Obj -> option A) : Js A := fun w =>
  match heap w !! i ≫= proj with
  | Some a => Normal a w
  | None => TypeError w
  end.

Fixpoint forEach {A} (l : list A) (f : A -> Js unit) : Js unit :=
  match l with
  | [] => mret tt
  | a :: l' => f a ;; forEach l' f
  end.

(** ** Engine methods, as functions on the receiving object *)

Definition on_scene (f : Scene -> Scene) (o : Obj) : Obj :=
  match o with OScene s => OScene (f s) | _ => o end.
Definition on_camera (f : PerspectiveCamera -> PerspectiveCamera) (o : Obj) : Obj :=
  match o with OCamera c => OCamera (f c) | _ => o end.
Definition on_renderer (f : WebGLRenderer -> WebGLRenderer) (o : Obj) : Obj :=
  match o with ORenderer r => ORenderer (f r) | _ => o end.
Definition on_controls (f : OrbitControls -> OrbitControls) (o : Obj) : Obj :=
  match o with OControls c => OControls (f c) | _ => o end.
Definition on_light (f : Light -> Light) (o : Obj) : Obj :=
  match o with OLight l => OLight (f l) | _ => o end.
Definition on_group (f : Group -> Group) (o : Obj) : Obj :=
  match o with OGroup g => OGroup (f g) | _ => o end.
Definition on_mixer (f : AnimationMixer -> AnimationMixer) (o : Obj) : Obj :=
  match o with OMixer m => OMixer (f m) | _ => o end.
Definition on_observer (f : ResizeObserverObj -> ResizeObserverObj) (o : Obj) : Obj :=
  match o with OObserver r => OObserver (f r) | _ => o end.
Definition on_element (f : HTMLElement -> HTMLElement) (o : Obj) : Obj :=
  match o with OElement e => OElement (f e) | _ => o end.
Definition on_canvas (f : Canvas -> Canvas) (o : Obj) : Obj :=
  match o with OCanvas c => OCanvas (f c) | _ => o end.

Definition as_renderer (o : Obj) : option WebGLRenderer :=
  match o with ORenderer r => Some r | _ => None end.
Definition as_element (o : Obj) : option HTMLElement :=
  match o with OElement e => Some e | _ => None end.
Definition as_canvas (o : Obj) : option Canvas :=
  match o with OCanvas c => Some c | _ => None end.
Definition as_observer (o : Obj) : option ResizeObserverObj :=
  match o with OObserver r => Some r | _ => None end.

(** [array.splice(array.indexOf(a), 1)] when [a] is present. *)
Fixpoint remove_first (a : nat) (l : list nat) : list nat :=
  match l with
  | [] => []
  | b :: l' => if decide (a = b) then l' else b :: remove_first a l'
  end.

(** *** Scene graph.  Every object this module adds has just been created,
    so [add] has no earlier parent to take it from. *)
Definition new_Scene : Scene := {| background := None; children := [] |}.

Definition set_background (c : option Z) (s : Scene) : Scene :=
  {| background := c; children := children s |}.

Definition Object3D_add (child : nat) (s : Scene) : Scene :=
  {| background := background s; children := children s ++ [child] |}.

Definition Object3D_remove (child : nat) (s : Scene) : Scene :=
  {| background := background s; children := remove_first child (children s) |}.

(** *** Camera *)
Definition updateProjectionMatrix (c : PerspectiveCamera) : PerspectiveCamera :=
  {| fov := fov c; aspect := aspect c; near := near c; far := far c;
     cam_position := cam_position c;
     projectionMatrix := {| f_fov := fov c; f_aspect := aspect c;
                            f_near := near c; f_far := far c |} |}.

Definition new_PerspectiveCamera (fov' aspect' near' far' : float) : PerspectiveCamera :=
  updateProjectionMatrix
    {| fov := fov'; aspect := aspect'; near := near'; far := far';
       cam_position := {| written := origin; recomputed := 0 |};
       projectionMatrix := {| f_fov := fov'; f_aspect := aspect';
                              f_near := near'; f_far := far' |} |}.

Definition camera_position (f : Pose -> Pose) (c : PerspectiveCamera) : PerspectiveCamera :=
  {| fov := fov c; aspect := aspect c; near := near c; far := far c;
     cam_position := f (cam_position c);
     projectionMatrix := projectionMatrix c |}.

(** What one [OrbitControls.update()] does to the camera it controls. *)
Definition orbit (c : PerspectiveCamera) : PerspectiveCamera :=
  camera_position
    (fun p => {| written := written p; recomputed := S (recomputed p) |}) c.

Definition set_aspect (a : float) (c : PerspectiveCamera) : PerspectiveCamera :=
  {| fov := fov c; aspect := a; near := near c; far := far c;
     cam_position := cam_position c;
     projectionMatrix := projectionMatrix c |}.

(** *** Renderer *)
Definition setPixelRatio (v : float) (r : WebGLRenderer) : WebGLRenderer :=
  {| antialias := antialias r; alpha := alpha r; pixelRatio := v;
     domElement := domElement r; size := size r; disposed := disposed r;
     contextLost := contextLost r; rendered := rendered r |}.

Definition setSize (width height : float) (r : WebGLRenderer) : WebGLRenderer :=
  {| antialias := antialias r; alpha := alpha r; pixelRatio := pixelRatio r;
     domElement := domElement r; size := Some (width, height);
     disposed := disposed r; contextLost := contextLost r;
     rendered := rendered r |}.

Definition render (sc cam : nat) (r : WebGLRenderer) : WebGLRenderer :=
  {| antialias := antialias r; alpha := alpha r; pixelRatio := pixelRatio r;
     domElement := domElement r; size := size r; disposed := disposed r;
     contextLost := contextLost r; rendered := rendered r ++ [(sc, cam)] |}.

Definition renderer_dispose (r : WebGLRenderer) : WebGLRenderer :=
  {| antialias := antialias r; alpha := alpha r; pixelRatio := pixelRatio r;
     domElement := domElement r; size := size r; disposed := true;
     contextLost := contextLost r; rendered := rendered r |}.

Definition forceContextLoss (r : WebGLRenderer) : WebGLRenderer :=
  {| antialias := antialias r; alpha := alpha r; pixelRatio := pixelRatio r;
     domElement := domElement r; size := size r; disposed := disposed r;
     contextLost := true; rendered := rendered r |}.

(** [new THREE.WebGLRenderer({antialias, alpha})] creates its own canvas. *)
Definition new_WebGLRenderer (antialias' alpha' : bool) : Js nat :=
  cv ← alloc (OCanvas {| parentNode := None |});
  alloc (ORenderer {| antialias := antialias'; alpha := alpha'; pixelRatio := 1;
                      domElement := cv; size := None; disposed := false;
                      contextLost := false; rendered := [] |}).

(** *** Orbit controller *)
Definition new_OrbitControls (object' domElement' : nat) : OrbitControls :=
  {| object := object'; ctl_domElement := domElement';
     enableDamping := false; dampingFactor := 0.05;
     screenSpacePanning := true; minDistance := 0; maxDistance := infinity;
     target := origin; updates := 0; connected := true |}.

Definition set_enableDamping (b : bool) (c : OrbitControls) : OrbitControls :=
  {| object := object c; ctl_domElement := ctl_domElement c;
     enableDamping := b; dampingFactor := dampingFactor c;
     screenSpacePanning := screenSpacePanning c; minDistance := minDistance c;
     maxDistance := maxDistance c; target := target c; updates := updates c;
     connected := connected c |}.

Definition set_dampingFactor (v : float) (c : OrbitControls) : OrbitControls :=
  {| object := object c; ctl_domElement := ctl_domElement c;
     enableDamping := enableDamping c; dampingFactor := v;
     screenSpacePanning := screenSpacePanning c; minDistance := minDistance c;
     maxDistance := maxDistance c; target := target c; updates := updates c;
     connected := connected c |}.

Definition set_screenSpacePanning (b : bool) (c : OrbitControls) : OrbitControls :=
  {| object := object c; ctl_domElement := ctl_domElement c;
     enableDamping := enableDamping c; dampingFactor := dampingFactor c;
     screenSpacePanning := b; minDistance := minDistance c;
     maxDistance := maxDistance c; target := target c; updates := updates c;
     connected := connected c |}.

Definition set_minDistance (v : float) (c : OrbitControls) : OrbitControls :=
  {| object := object c; ctl_domElement := ctl_domElement c;
     enableDamping := enableDamping c; dampingFactor := dampingFactor c;
     screenSpacePanning := screenSpacePanning c; minDistance := v;
     maxDistance := maxDistance c; target := target c; updates := updates c;
     connected := connected c |}.

Definition set_maxDistance (v : float) (c : OrbitControls) : OrbitControls :=
  {| object := object c; ctl_domElement := ctl_domElement c;
     enableDamping := enableDamping c; dampingFactor := dampingFactor c;
     screenSpacePanning := screenSpacePanning c; minDistance := minDistance c;
     maxDistance := v; target := target c; updates := updates c;
     connected := connected c |}.

Definition controls_target (f : Vector3 -> Vector3) (c : OrbitControls) : OrbitControls :=
  {| object := object c; ctl_domElement := ctl_domElement c;
     enableDamping := enableDamping c; dampingFactor := dampingFactor c;
     screenSpacePanning := screenSpacePanning c; minDistance := minDistance c;
     maxDistance := maxDistance c; target := f (target c); updates := updates c;
     connected := connected c |}.

(** The controller's own side of [update()]: one more damping step.  What
    [update()] does to the camera is [orbit]; the call as a whole is
    [OrbitControls_update] below. *)
Definition damping_step (c : OrbitControls) : OrbitControls :=
  {| object := object c; ctl_domElement := ctl_domElement c;
     enableDamping := enableDamping c; dampingFactor := dampingFactor c;
     screenSpacePanning := screenSpacePanning c; minDistance := minDistance c;
     maxDistance := maxDistance c; target := target c;
     updates := S (updates c); connected := connected c |}.

(** [controls.object] *)
Definition controlled (o : Obj) : option nat :=
  match o with OControls c => Some (object c) | _ => None end.

(** [controls.update()] (l. 130 and l. 171): the controller recomputes the
    position of the camera it was created for and takes a damping step. *)
Definition OrbitControls_update (ctl : nat) : Js unit :=
  reading (fun w =>
    match heap w !! ctl ≫= controlled with
    | Some cam => update cam (on_camera orbit)
    | None => mret tt
    end) ;;
  update ctl (on_controls damping_step).

Definition controls_dispose (c : OrbitControls) : OrbitControls :=
  {| object := object c; ctl_domElement := ctl_domElement c;
     enableDamping := enableDamping c; dampingFactor := dampingFactor c;
     screenSpacePanning := screenSpacePanning c; minDistance := minDistance c;
     maxDistance := maxDistance c; target := target c; updates := updates c;
     connected := false |}.

(** *** Lights *)
Definition new_AmbientLight (color' : Z) (intensity' : float) : Light :=
  {| kind := AmbientLight; color := color'; intensity := intensity';
     light_position := origin |}.

Definition new_DirectionalLight (color' : Z) (intensity' : float) : Light :=
  {| kind := DirectionalLight; color := color'; intensity := intensity';
     light_position := Vec3 0 1 0 |}.

Definition light_position_set (a b c : float) (l : Light) : Light :=
  {| kind := kind l; color := color l; intensity := intensity l;
     light_position := Vector3_set a b c (light_position l) |}.

(** *** Loaded subtree *)
Definition group_scale (f : Vector3 -> Vector3) (g : Group) : Group :=
  {| grp_scale := f (grp_scale g); grp_position := grp_position g |}.

Definition group_position (f : Vector3 -> Vector3) (g : Group) : Group :=
  {| grp_scale := grp_scale g; grp_position := f (grp_position g) |}.

(** *** Animation mixer *)
Definition new_AnimationMixer (root' : nat) : AnimationMixer :=
  {| root := root'; actions := []; time := 0 |}.

Definition play (a : AnimationAction) : AnimationAction :=
  {| clip := clip a; loop := loop a; running := true |}.

Definition stop (a : AnimationAction) : AnimationAction :=
  {| clip := clip a; loop := loop a; running := false |}.

(** [mixer.clipAction(c).play()]: the action cached for [c] if there is one,
    a new one in the default loop mode otherwise. *)
Fixpoint clipAction_play_in (c : AnimationClip) (l : list AnimationAction)
  : list AnimationAction :=
  match l with
  | [] => [play {| clip := c; loop := LoopRepeat; running := false |}]
  | a :: l' => if decide (clip a = c) then play a :: l'
               else a :: clipAction_play_in c l'
  end.

Definition clipAction_play (c : AnimationClip) (m : AnimationMixer) : AnimationMixer :=
  {| root := root m; actions := clipAction_play_in c (actions m); time := time m |}.

Definition stopAllAction (m : AnimationMixer) : AnimationMixer :=
  {| root := root m; actions := stop <$> actions m; time := time m |}.

Definition uncacheRoot (r : nat) (m : AnimationMixer) : AnimationMixer :=
  {| root := root m;
     actions := if decide (root m = r) then [] else actions m;
     time := time m |}.

Definition mixer_update (dt : float) (m : AnimationMixer) : AnimationMixer :=
  {| root := root m; actions := actions m; time := (time m + dt)%float |}.

(** *** Resize observer *)
Definition new_ResizeObserver (captured : nat) : ResizeObserverObj :=
  {| callback := captured; observing := [] |}.

Definition observe (e : nat) (o : ResizeObserverObj) : ResizeObserverObj :=
  {| callback := callback o;
     observing := if decide (e ∈ observing o) then observing o
                  else observing o ++ [e] |}.

Definition disconnect (o : ResizeObserverObj) : ResizeObserverObj :=
  {| callback := callback o; observing := [] |}.

(** *** Document *)
Definition set_childNodes (f : list nat -> list nat) (e : HTMLElement) : HTMLElement :=
  {| clientWidth := clientWidth e; clientHeight := clientHeight e;
     childNodes := f (childNodes e) |}.

Definition set_clientSize (width height : float) (e : HTMLElement) : HTMLElement :=
  {| clientWidth := width; clientHeight := height; childNodes := childNodes e |}.

Definition set_parentNode (p : option nat) (_ : Canvas) : Canvas :=
  {| parentNode := p |}.

(** [node.remove()] *)
Definition ChildNode_remove (cv : nat) : Js unit :=
  c ← field cv as_canvas;
  match parentNode c with
  | Some p =>
      update p (on_element (set_childNodes (remove_first cv))) ;;
      update cv (on_canvas (set_parentNode None))
  | None => mret tt
  end.

(** [parent.appendChild(node)]; a reference that is not an element of the
    document stands for [null]. *)
Definition appendChild (parent cv : nat) : Js unit :=
  _ ← field parent as_element;
  ChildNode_remove cv ;;
  update parent (on_element (set_childNodes (fun l => l ++ [cv]))) ;;
  update cv (on_canvas (set_parentNode (Some parent))).

(** ** The module ([src/index.ts]) *)

(** [loadModel] (l. 106-122) hands the request to the loader and returns;
    the callback runs when the host resolves the load (see [resolve_load]). *)
Definition loadModel (props : propsClass) : Js unit :=
  modify (set_loading (fun l => l ++ [{| url := modelPath props; closure := props |}])).

(** The completion callback passed to [loader.load] (l. 108-121);
    [gltf_scene] is the address of the decoded subtree. *)
Definition onLoad (props : propsClass) (gltf_scene : nat)
    (gltf_animations : list AnimationClip) : Js unit :=
  modify (set_model (Some gltf_scene)) ;;
  via model (fun m =>
    update m (on_group (group_scale (Vector3_set (scale props) (scale props) (scale props))))) ;;
  via model (fun m =>
    update m (on_group (group_position
      (Vector3_set (x (position props)) (y (position props)) (z (position props)))))) ;;
  via scene (fun sc => via model (fun m => update sc (on_scene (Object3D_add m)))) ;;
  (mx ← via model (fun m => alloc (OMixer (new_AnimationMixer m)));
   modify (set_mixer (Some mx))) ;;
  forEach gltf_animations (fun c =>
    via mixer (fun mx => update mx (on_mixer (clipAction_play c)))).

(** [animate] (l. 127-137): [requestAnimationFrame(animate)] adds one
    scheduled callback. *)
Definition animate : Js unit := fun w =>
  match controls w, scene w, camera w with
  | Some ctl, Some sc, Some cam =>
      (modify (set_animationFrames S) ;;
       OrbitControls_update ctl ;;
       when mixer (fun mx => update mx (on_mixer (mixer_update 0.016))) ;;
       via renderer (fun r => update r (on_renderer (render sc cam)))) w
  | _, _, _ => Normal tt w
  end.

(** [updateRendererSize] (l. 91-100); a [containerElement] that is no
    element of the document is falsy. *)
Definition updateRendererSize (containerElement : nat) : Js unit := fun w =>
  match heap w !! containerElement ≫= as_element, renderer w, camera w with
  | Some el, Some r, Some cam =>
      let width := clientWidth el in
      let height := clientHeight el in
      (update r (on_renderer (setSize width height)) ;;
       update cam (on_camera (set_aspect (width / height))) ;;
       update cam (on_camera updateProjectionMatrix)) w
  | _, _, _ => Normal tt w
  end.

(** [initResizeObserver] (l. 180-192) *)
Definition initResizeObserver (containerElement : nat) : Js unit :=
  when resizeObserver (fun o => update o (on_observer disconnect)) ;;
  (o ← alloc (OObserver (new_ResizeObserver containerElement));
   modify (set_resizeObserver (Some o))) ;;
  reading (fun w =>
    match heap w !! containerElement ≫= as_element with
    | Some _ => via resizeObserver (fun o => update o (on_observer (observe containerElement)))
    | None => mret tt
    end).

(** [init] (l. 47-85) *)
Definition init (props : propsClass) (container : nat) : Js unit :=
  (sc ← alloc (OScene new_Scene); modify (set_scene (Some sc))) ;;
  via scene (fun sc => update sc (on_scene (set_background None))) ;;
  (cam ← alloc (OCamera (new_PerspectiveCamera 75 (5 / 6) 0.1 1000));
   modify (set_camera (Some cam))) ;;
  via camera (fun cam => update cam (on_camera (camera_position
    (Pose_set (x (cameraPosition props)) (y (cameraPosition props))
              (z (cameraPosition props)))))) ;;
  (r ← new_WebGLRenderer true true; modify (set_renderer (Some r))) ;;
  reading (fun w =>
    via renderer (fun r => update r (on_renderer (setPixelRatio (devicePixelRatio w))))) ;;
  via renderer (fun r => cv ← field r (fun o => domElement <$> as_renderer o);
                         appendChild container cv) ;;
  (ctl ← via camera (fun cam => via renderer (fun r =>
            cv ← field r (fun o => domElement <$> as_renderer o);
            alloc (OControls (new_OrbitControls cam cv))));
   modify (set_controls (Some ctl))) ;;
  via controls (fun c => update c (on_controls (set_enableDamping true))) ;;
  via controls (fun c => update c (on_controls (set_dampingFactor 0.1))) ;;
  via controls (fun c => update c (on_controls (set_screenSpacePanning false))) ;;
  via controls (fun c => update c (on_controls (set_minDistance 0))) ;;
  via controls (fun c => update c (on_controls (set_maxDistance 10))) ;;
  (ambientLight ← alloc (OLight (new_AmbientLight 0xffffff 0.5));
   via scene (fun sc => update sc (on_scene (Object3D_add ambientLight)))) ;;
  (directionalLight ← alloc (OLight (new_DirectionalLight 0xffffff 1));
   update directionalLight (on_light (light_position_set 5 5 5)) ;;
   via scene (fun sc => update sc (on_scene (Object3D_add directionalLight)))) ;;
  initResizeObserver container ;;
  loadModel props ;;
  animate.

(** The block guarded by [if (model)] in [clearCurrentModel]. *)
Definition release (m : nat) : Js unit :=
  when mixer (fun mx =>
    update mx (on_mixer stopAllAction) ;;
    update mx (on_mixer (uncacheRoot m))) ;;
  via scene (fun sc => update sc (on_scene (Object3D_remove m))).

(** [clearCurrentModel] (l. 142-152) *)
Definition clearCurrentModel : Js unit := when model release.

(** [modelPathstate] (l. 160-174); the empty string is the one falsy
    string. *)
Definition modelPathstate (newPath oldPath : string) (props : propsClass) : Js unit := fun w =>
  if bool_decide (newPath ≠ "") && bool_decide (newPath ≠ oldPath)
     && bool_decide (is_Some (scene w))
  then
    (clearCurrentModel ;;
     loadModel props ;;
     reading (fun w' =>
       match camera w', controls w' with
       | Some cam, Some ctl =>
           update cam (on_camera (camera_position
             (Pose_set (x (cameraPosition props)) (y (cameraPosition props))
                       (z (cameraPosition props))))) ;;
           update cam (on_camera updateProjectionMatrix) ;;
           update ctl (on_controls (controls_target (Vector3_set 0 0 0))) ;;
           OrbitControls_update ctl
       | _, _ => mret tt
       end)) w
  else Normal tt w.

(** [allDestroyed] (l. 197-225); [resizeObserver] is not among the
    variables it resets. *)
Definition allDestroyed : Js unit :=
  when resizeObserver (fun o => update o (on_observer disconnect)) ;;
  clearCurrentModel ;;
  when controls (fun c => update c (on_controls controls_dispose)) ;;
  when renderer (fun r =>
    update r (on_renderer renderer_dispose) ;;
    update r (on_renderer forceContextLoss) ;;
    (cv ← field r (fun o => domElement <$> as_renderer o); ChildNode_remove cv)) ;;
  modify (set_scene None) ;;
  modify (set_camera None) ;;
  modify (set_renderer None) ;;
  modify (set_controls None) ;;
  modify (set_model None) ;;
  modify (set_mixer None).

(** ** What the host does between two calls of the module *)

(** The [i]-th load in flight is decoded: the loader creates the subtree and
    calls the completion callback of that request. *)
Definition resolve_load (i : nat) (gltf : GLTF) : Js unit := fun w =>
  match loading w !! i with
  | Some req =>
      (modify (set_loading (delete i)) ;;
       g ← alloc (OGroup (gltf_scene gltf));
       onLoad (closure req) g (animations gltf)) w
  | None => Normal tt w
  end.

(** An animation frame is due: one scheduled [animate] runs. *)
Definition frame : Js unit := fun w =>
  match animationFrames w with
  | S n => (modify (set_animationFrames (fun _ => n)) ;; animate) w
  | O => Normal tt w
  end.

(** The layout gives element [e] a new size. *)
Definition layout (e : nat) (width height : float) : Js unit :=
  update e (on_element (set_clientSize width height)).

(** Observer [o] reports a size change of an element it observes: its
    callback runs. *)
Definition notify_resize (o : nat) : Js unit := fun w =>
  match heap w !! o ≫= as_observer with
  | Some ob =>
      match observing ob with
      | [] => Normal tt w
      | _ :: _ => updateRendererSize (callback ob) w
      end
  | None => Normal tt w
  end.

(** * The module as a transition system *)

Inductive Call : Type :=
| Init (props : propsClass) (container : nat)
| ModelPathstate (newPath oldPath : string) (props : propsClass)
| ClearCurrentModel
| AllDestroyed
| LoadResolved (i : nat) (gltf : GLTF)
| AnimationFrame
| Layout (e : nat) (width height : float)
| ResizeObserved (o : nat).

Definition perform (c : Call) : Js unit :=
  match c with
  | Init props container => init props container
  | ModelPathstate newPath oldPath props => modelPathstate newPath oldPath props
  | ClearCurrentModel => clearCurrentModel
  | AllDestroyed => allDestroyed
  | LoadResolved i gltf => resolve_load i gltf
  | AnimationFrame => frame
  | Layout e width height => layout e width height
  | ResizeObserved o => notify_resize o
  end.

(** [init] is given an element of the page. *)
Definition admissible (c : Call) (w : World) : Prop :=
  match c with
  | Init _ container => ∃ el, heap w !! container = Some (OElement el)
  | _ => True
  end.

(** The module has just been loaded: every handle is [undefined], nothing
    is scheduled, and the heap holds the elements of the page only. *)
Definition fresh_page (w : World) : Prop :=
  scene w = None ∧ camera w = None ∧ renderer w = None ∧ controls w = None ∧
  model w = None ∧ mixer w = None ∧ resizeObserver w = None ∧
  loading w = [] ∧ animationFrames w = 0 ∧
  Forall (λ o, is_Some (as_element o)) (heap w).

(** The states between two calls, whether the calls returned or threw. *)
Inductive reachable : World → Prop :=
| reachable_fresh w : fresh_page w → reachable w
| reachable_step c w :
    reachable w → admissible c w → reachable (world_of (perform c w)).

(** * Sample worlds *)

(** A page with one empty 400 x 300 element and nothing initialised. *)
Definition page : World :=
  {| scene := None; camera := None; renderer := None; controls := None;
     model := None; mixer := None; resizeObserver := None;
     heap := [OElement {| clientWidth := 400; clientHeight := 300; childNodes := [] |}];
     devicePixelRatio := 2; loading := []; animationFrames := 0 |}.

Definition cfg : propsClass :=
  {| cameraPosition := {| x := 0; y := 0; z := 5 |};
     modelPath := "m.glb"; scale := 1;
     position := {| x := 0; y := 0; z := 0 |} |}.



(** A decoded asset with two animation clips. *)
Definition asset : GLTF :=
  {| gltf_scene := {| grp_scale := Vec3 1 1 1; grp_position := origin |};
     animations := [0; 1] |}.

(** The page after [init(cfg, el)], with the load of "m.glb" in flight. *)
Definition started : World := Eval vm_compute in world_of (init cfg 0 page).

(** ... after that load has resolved. *)
Definition showing : World :=
  Eval vm_compute in world_of (resolve_load 0 asset started).

(** ... after [allDestroyed()] overtook the load. *)
Definition torn_down : World :=
  Eval vm_compute in world_of (allDestroyed started).

(** ... and after the load resolved all the same. *)
Definition late : World :=
  Eval vm_compute in world_of (resolve_load 0 asset torn_down).

(** * Definitions used in the statements *)



(** [alter] at a handle that may be [undefined]. *)
Definition alter_opt (f : Obj -> Obj) (h : option nat) (l : list Obj) : list Obj :=
  match h with
  | Some i => alter f i l
  | None => l
  end.

(** The world [init] leaves behind, written out.  The new objects sit at the
    eight addresses after the old heap: scene, camera, canvas, renderer,
    controller, ambient light, directional light, resize observer. *)
Definition after_init (props : propsClass) (container : nat) (w : World) : World :=
  let n := length (heap w) in
  {| scene := Some (n + 0);
     camera := Some (n + 1);
     renderer := Some (n + 3);
     controls := Some (n + 4);
     model := model w;
     mixer := mixer w;
     resizeObserver := Some (n + 7);
     heap :=
       alter_opt (on_mixer (mixer_update 0.016)) (mixer w)
         (alter_opt (on_observer disconnect) (resizeObserver w)
            (alter (on_element (set_childNodes (λ l, l ++ [n + 2]))) container (heap w)))
       ++ [OScene {| background := None; children := [n + 5; n + 6] |};
           OCamera {| fov := 75; aspect := 5 / 6; near := 0.1; far := 1000;
                      cam_position :=
                        {| written := Vec3 (x (cameraPosition props))
                                           (y (cameraPosition props))
                                           (z (cameraPosition props));
                           recomputed := 1 |};
                      projectionMatrix := {| f_fov := 75; f_aspect := 5 / 6;
                                             f_near := 0.1; f_far := 1000 |} |};
           OCanvas {| parentNode := Some container |};
           ORenderer {| antialias := true; alpha := true;
                        pixelRatio := devicePixelRatio w;
                        domElement := n + 2; size := None; disposed := false;
                        contextLost := false; rendered := [(n + 0, n + 1)] |};
           OControls {| object := n + 1; ctl_domElement := n + 2;
                        enableDamping := true; dampingFactor := 0.1;
                        screenSpacePanning := false; minDistance := 0;
                        maxDistance := 10; target := origin; updates := 1;
                        connected := true |};
           OLight {| kind := AmbientLight; color := 0xffffff; intensity := 0.5;
                     light_position := origin |};
           OLight {| kind := DirectionalLight; color := 0xffffff; intensity := 1;
                     light_position := Vec3 5 5 5 |};
           OObserver {| callback := container; observing := [container] |}];
     devicePixelRatio := devicePixelRatio w;
     loading := loading w ++ [{| url := modelPath props; closure := props |}];
     animationFrames := S (animationFrames w) |}.

(** The heap after the [if (mixer)] block of [release m]. *)
Definition silenced (m : nat) (w : World) : list Obj :=
  alter_opt (on_mixer (uncacheRoot m)) (mixer w)
    (alter_opt (on_mixer stopAllAction) (mixer w) (heap w)).

(** The heap after [release m] with the scene at [sc]. *)
Definition detached (m sc : nat) (w : World) : list Obj :=
  alter (on_scene (Object3D_remove m)) sc (silenced m w).

(** What an update at [i] does to the object found at [j]. *)
Definition at_address (f : Obj → Obj) (i j : nat) (o : Obj) : Obj :=
  if decide (i = j) then f o else o.

(** The mixer after [clipAction(c).play()] for each [c] of [clips] in turn. *)
Definition play_all (clips : list AnimationClip) (m : AnimationMixer) : AnimationMixer :=
  foldl (λ m' c, clipAction_play c m') m clips.

(** An action that runs in the default loop mode. *)
Definition looping (a : AnimationAction) : Prop :=
  running a = true ∧ loop a = LoopRepeat.

(** The world a load leaves behind when its callback runs to the end: the
    subtree sits at the first free address and its mixer at the next. *)
Definition after_load (props : propsClass) (clips : list AnimationClip)
    (i sc : nat) (w : World) : World :=
  let n := length (heap w) in
  {| scene := scene w; camera := camera w; renderer := renderer w;
     controls := controls w;
     model := Some (n + 0);
     mixer := Some (n + 1);
     resizeObserver := resizeObserver w;
     heap :=
       alter (on_scene (Object3D_add (n + 0))) sc (heap w)
       ++ [OGroup {| grp_scale := Vec3 (scale props) (scale props) (scale props);
                     grp_position := Vec3 (x (position props)) (y (position props))
                                          (z (position props)) |};
           OMixer (play_all clips (new_AnimationMixer (n + 0)))];
     devicePixelRatio := devicePixelRatio w;
     loading := delete i (loading w);
     animationFrames := animationFrames w |}.

(** The world it leaves behind when no scene exists: the callback stops at
    [scene.add]. *)
Definition after_late_load (props : propsClass) (i : nat) (w : World) : World :=
  let n := length (heap w) in
  {| scene := scene w; camera := camera w; renderer := renderer w;
     controls := controls w;
     model := Some (n + 0);
     mixer := mixer w;
     resizeObserver := resizeObserver w;
     heap :=
       heap w
       ++ [OGroup {| grp_scale := Vec3 (scale props) (scale props) (scale props);
                     grp_position := Vec3 (x (position props)) (y (position props))
                                          (z (position props)) |}];
     devicePixelRatio := devicePixelRatio w;
     loading := delete i (loading w);
     animationFrames := animationFrames w |}.

(** [k] animation frames in a row, with no other call in between. *)
Fixpoint frames (k : nat) : Js unit :=
  match k with
  | O => mret tt
  | S k' => frame ;; frames k'
  end.

(** The part of [allDestroyed] that releases resources ... *)
Definition teardown : Js unit :=
  when resizeObserver (fun o => update o (on_observer disconnect)) ;;
  clearCurrentModel ;;
  when controls (fun c => update c (on_controls controls_dispose)) ;;
  when renderer (fun r =>
    update r (on_renderer renderer_dispose) ;;
    update r (on_renderer forceContextLoss) ;;
    (cv ← field r (fun o => domElement <$> as_renderer o); ChildNode_remove cv)).

(** ... and the state after the part that clears the six handles. *)
Definition cleared (w : World) : World :=
  set_mixer None (set_model None (set_controls None (set_renderer None
    (set_camera None (set_scene None w))))).

(** The seven handles of [w'] are those of [w]. *)
Definition same_handles (w w' : World) : Prop :=
  scene w' = scene w ∧ camera w' = camera w ∧ renderer w' = renderer w ∧
  controls w' = controls w ∧ model w' = model w ∧ mixer w' = mixer w ∧
  resizeObserver w' = resizeObserver w.

(** A model and a mixer that are defined stay defined. *)
Definition keeps_loaded (w w' : World) : Prop :=
  (is_Some (model w) → is_Some (model w')) ∧
  (is_Some (mixer w) → is_Some (mixer w')).

(** The handles between two calls: either the viewer is up (scene, camera,
    renderer, controller and resize observer are defined, and a mixer only
    together with a model), or it is down (scene, camera, renderer, controller
    and mixer are undefined). *)
Definition lifecycle (w : World) : Prop :=
  (is_Some (scene w) ∧ is_Some (camera w) ∧ is_Some (renderer w) ∧
   is_Some (controls w) ∧ is_Some (resizeObserver w) ∧
   (is_Some (mixer w) → is_Some (model w)))
  ∨ (scene w = None ∧ camera w = None ∧ renderer w = None ∧
     controls w = None ∧ mixer w = None).

(** The two states of the handle set that the documentation speaks of. *)
Definition all_defined (w : World) : Prop :=
  is_Some (scene w) ∧ is_Some (camera w) ∧ is_Some (renderer w) ∧
  is_Some (controls w) ∧ is_Some (model w) ∧ is_Some (mixer w) ∧
  is_Some (resizeObserver w).

Definition all_undefined (w : World) : Prop :=
  scene w = None ∧ camera w = None ∧ renderer w = None ∧ controls w = None ∧
  model w = None ∧ mixer w = None ∧ resizeObserver w = None.

(** [m] takes every world to an [R]-related one, however it completes. *)
Definition preserves (R : relation World) {A : Type} (m : Js A) : Prop :=
  ∀ w, R w (world_of (m w)).

(** How a method call other than [add] may change the object it is invoked
    on: the object keeps its kind, a renderer keeps its canvas, and a scene
    keeps its children in order, possibly without some of them. *)
Definition follows (o o' : Obj) : Prop :=
  match o, o' with
  | OScene s, OScene s' => children s' `sublist_of` children s
  | ORenderer r, ORenderer r' => domElement r' = domElement r
  | OCamera _, OCamera _ | OControls _, OControls _ | OLight _, OLight _
  | OGroup _, OGroup _ | OMixer _, OMixer _ | OObserver _, OObserver _
  | OElement _, OElement _ | OCanvas _, OCanvas _ => True
  | _, _ => False
  end.

(** The heap of [w'] is the heap of [w] after such calls. *)
Definition evolves (w w' : World) : Prop := Forall2 follows (heap w) (heap w').

(** A scene lists each child once, and only objects below address [n]. *)
Definition tidy (n : nat) (o : Obj) : Prop :=
  ∀ s, o = OScene s → NoDup (children s) ∧ ∀ c, c ∈ children s → c < n.

(** Every handle that is defined refers to an object of its type, and the
    renderer to one that owns a canvas. *)
Definition well_typed (w : World) : Prop :=
  (∀ i, scene w = Some i → ∃ s, heap w !! i = Some (OScene s)) ∧
  (∀ i, camera w = Some i → ∃ c, heap w !! i = Some (OCamera c)) ∧
  (∀ i, renderer w = Some i →
     ∃ r cv, heap w !! i = Some (ORenderer r) ∧
             heap w !! domElement r = Some (OCanvas cv)) ∧
  (∀ i, controls w = Some i → ∃ c, heap w !! i = Some (OControls c)) ∧
  (∀ i, model w = Some i → ∃ g, heap w !! i = Some (OGroup g)) ∧
  (∀ i, mixer w = Some i → ∃ m, heap w !! i = Some (OMixer m)) ∧
  (∀ i, resizeObserver w = Some i → ∃ o, heap w !! i = Some (OObserver o)).

(** What every state between two calls satisfies. *)
Definition sound (w : World) : Prop :=
  well_typed w ∧ Forall (tidy (length (heap w))) (heap w).

(** * Further definitions used in the statements *)

(** The world [init] leaves behind when [container] is no element: it stops
    at [container.appendChild], with the scene, the camera and the renderer
    created and nothing else done. *)
Definition after_failed_init (props : propsClass) (w : World) : World :=
  let n := length (heap w) in
  {| scene := Some (n + 0);
     camera := Some (n + 1);
     renderer := Some (n + 3);
     controls := controls w;
     model := model w;
     mixer := mixer w;
     resizeObserver := resizeObserver w;
     heap :=
       heap w
       ++ [OScene {| background := None; children := [] |};
           OCamera {| fov := 75; aspect := 5 / 6; near := 0.1; far := 1000;
                      cam_position :=
                        {| written := Vec3 (x (cameraPosition props))
                                           (y (cameraPosition props))
                                           (z (cameraPosition props));
                           recomputed := 0 |};
                      projectionMatrix := {| f_fov := 75; f_aspect := 5 / 6;
                                             f_near := 0.1; f_far := 1000 |} |};
           OCanvas {| parentNode := None |};
           ORenderer {| antialias := true; alpha := true;
                        pixelRatio := devicePixelRatio w;
                        domElement := n + 2; size := None; disposed := false;
                        contextLost := false; rendered := [] |}];
     devicePixelRatio := devicePixelRatio w;
     loading := loading w;
     animationFrames := animationFrames w |}.

(** The world [initResizeObserver] leaves behind: the earlier observer, if
    any, is disconnected, and a new one, which observes the container when
    that is an element, sits at the first free address. *)
Definition after_initResizeObserver (containerElement : nat) (w : World) : World :=
  let n := length (heap w) in
  set_resizeObserver (Some n)
    (set_heap (λ h,
       alter_opt (on_observer disconnect) (resizeObserver w) h
       ++ [OObserver {| callback := containerElement;
                        observing := match h !! containerElement ≫= as_element with
                                     | Some _ => [containerElement]
                                     | None => []
                                     end |}]) w).

(** [w'] has as many scheduled callbacks as [w]. *)
Definition same_frames (w w' : World) : Prop :=
  animationFrames w' = animationFrames w.

(** While a scene exists a callback is scheduled. *)
Definition ticking (w : World) : Prop :=
  is_Some (scene w) → 0 < animationFrames w.

(** Every load in flight in [w] is in flight in [w'], at the same place. *)
Definition keeps_loading (w w' : World) : Prop :=
  loading w `prefix_of` loading w'.

(** The world [allDestroyed] leaves behind when it stops at [scene.remove]:
    the observer is disconnected and the mixer silenced, and that is all. *)
Definition stalled (m : nat) (w : World) : World :=
  set_heap (λ h,
    alter_opt (on_mixer (uncacheRoot m)) (mixer w)
      (alter_opt (on_mixer stopAllAction) (mixer w)
         (alter_opt (on_observer disconnect) (resizeObserver w) h))) w.

(** The page after [init(cfg, el)] and a [modelPathstate] that reloads, with
    two loads in flight ... *)
Definition reloading : World :=
  Eval vm_compute in world_of (modelPathstate "b.glb" "a.glb" cfg started).

(** ... and after the first of them has resolved. *)
Definition overtaken : World :=
  Eval vm_compute in world_of (resolve_load 0 asset reloading).

(** The page after [init(cfg, el)] and a layout that leaves the element
    400 wide and 0 high. *)
Definition flattened : World :=
  Eval vm_compute in world_of (layout 0 400 0 started).

(** How a method call of this module other than [add] may change the
    object it is invoked on, in more detail than [follows]: a light is left
    as it is, a mixer keeps its root, a controller its camera, an observer
    keeps its callback and observes what it did or nothing, and a scene
    changes as [R] allows. *)
Definition steady (R : relation Scene) (o o' : Obj) : Prop :=
  match o, o' with
  | OScene s, OScene s' => R s s'
  | OLight l, OLight l' => l' = l
  | OMixer m, OMixer m' => root m' = root m
  | OObserver a, OObserver b =>
      callback b = callback a ∧ (observing b = observing a ∨ observing b = [])
  | OControls k, OControls k' => object k' = object k
  | OCamera _, OCamera _ | ORenderer _, ORenderer _
  | OGroup _, OGroup _ | OElement _, OElement _ | OCanvas _, OCanvas _ => True
  | _, _ => False
  end.

(** No constraint on how a scene changes. *)
Definition any_scene : relation Scene := λ _ _, True.

(** The heap of [w'] is the heap of [w], object by object up to [P]. *)
Definition lifted (P : relation Obj) (w w' : World) : Prop :=
  Forall2 P (heap w) (heap w').

(** Only the observer of the handle observes anything, and only while a
    scene exists; what it observes is the element its callback is bound
    to. *)
Definition one_observer (w : World) : Prop :=
  ∀ i ob, heap w !! i = Some (OObserver ob) → observing ob ≠ [] →
    resizeObserver w = Some i ∧ is_Some (scene w) ∧ observing ob = [callback ob].


(** The mixer is rooted at the subtree the model handle refers to. *)
Definition bound (w : World) : Prop :=
  ∀ mx, mixer w = Some mx →
    ∃ m a, model w = Some m ∧ heap w !! mx = Some (OMixer a) ∧ root a = m.

(** The two lights [init] puts into a scene. *)
Definition ambient : Light :=
  {| kind := AmbientLight; color := 0xffffff; intensity := 0.5;
     light_position := origin |}.

Definition directional : Light :=
  {| kind := DirectionalLight; color := 0xffffff; intensity := 1;
     light_position := Vec3 5 5 5 |}.

(** The scene starts with those two lights; what follows them are loaded
    subtrees. *)
Definition lit (w : World) : Prop :=
  ∀ sc, scene w = Some sc →
    ∃ s a d rest,
      heap w !! sc = Some (OScene s) ∧ children s = a :: d :: rest ∧
      heap w !! a = Some (OLight ambient) ∧
      heap w !! d = Some (OLight directional) ∧
      Forall (λ c, ∃ g, heap w !! c = Some (OGroup g)) rest.

(** What [modelPathstate] does once the earlier model is released. *)
Definition reload (props : propsClass) : Js unit :=
  loadModel props ;;
  reading (fun w' =>
    match camera w', controls w' with
    | Some cam, Some ctl =>
        update cam (on_camera (camera_position
          (Pose_set (x (cameraPosition props)) (y (cameraPosition props))
                    (z (cameraPosition props))))) ;;
        update cam (on_camera updateProjectionMatrix) ;;
        update ctl (on_controls (controls_target (Vector3_set 0 0 0))) ;;
        OrbitControls_update ctl
    | _, _ => mret tt
    end).

(** The page after [init], the completion of its load and a second [init]
    on the same element, without [allDestroyed] in between. *)
Definition restarted : World :=
  Eval vm_compute in world_of (init cfg 0 showing).

(** * Reasoning about runs *)

Arguments set_scene _ _ /.
Arguments set_camera _ _ /.
Arguments set_renderer _ _ /.
Arguments set_controls _ _ /.
Arguments set_model _ _ /.
Arguments set_mixer _ _ /.
Arguments set_resizeObserver _ _ /.
Arguments set_heap _ _ /.
Arguments set_loading _ _ /.
Arguments set_animationFrames _ _ /.

Lemma run_bind {A B} (m : Js A) (k : A → Js B) w a w1 r :
  m w = Normal a w1 → k a w1 = r → (m ≫= k) w = r.
Proof. intros Hm Hk. unfold mbind, Js_bind. by rewrite Hm. Qed.

Lemma run_bind_throw {A B} (m : Js A) (k : A → Js B) w w1 :
  m w = TypeError w1 → (m ≫= k) w = TypeError w1.
Proof. intros Hm. unfold mbind, Js_bind. by rewrite Hm. Qed.

Lemma run_field {A} i (proj : Obj → option A) w o a :
  heap w !! i = Some o → proj o = Some a → field i proj w = Normal a w.
Proof. intros Hi Ha. unfold field. by rewrite Hi; cbn; rewrite Ha. Qed.

Lemma run_branch {A B} (l : list Obj) i (proj : Obj → option A)
    (k : A → Js B) (d : Js B) w o a r :
  l !! i = Some o → proj o = Some a → k a w = r →
  match l !! i ≫= proj with Some a' => k a' | None => d end w = r.
Proof. intros Hi Ha <-. by rewrite Hi; cbn; rewrite Ha. Qed.

(** No method call of the module changes which camera a controller
    controls. *)
Lemma lookup_alter_controlled (f : Obj → Obj) i j (l : list Obj) :
  (∀ o, controlled (f o) = controlled o) →
  alter f i l !! j ≫= controlled = l !! j ≫= controlled.
Proof.
  intros Hf. rewrite list_lookup_alter.
  destruct (decide (i = j)) as [->|]; [|done].
  destruct (l !! j) as [o|]; [|done]. cbn. apply Hf.
Qed.

(** ** Looking up the heap after allocations and updates *)

Lemma lookup_alter_fix (f : Obj → Obj) i (h : list Obj) j o :
  h !! j = Some o → f o = o → alter f i h !! j = Some o.
Proof.
  intros Hj Hf. destruct (decide (i = j)) as [->|].
  - by rewrite list_lookup_alter_eq, Hj; cbn; rewrite Hf.
  - by rewrite list_lookup_alter_ne.
Qed.

Lemma lookup_alter_hit (f : Obj → Obj) i (h : list Obj) o :
  h !! i = Some o → alter f i h !! i = Some (f o).
Proof. intros Hi. by rewrite list_lookup_alter_eq, Hi. Qed.

Lemma lookup_alter_miss (f : Obj → Obj) i (h : list Obj) j o :
  i ≠ j → h !! j = Some o → alter f i h !! j = Some o.
Proof. intros. by rewrite list_lookup_alter_ne. Qed.

Lemma lookup_fresh (H L : list Obj) n k :
  length H = n → (H ++ L) !! (n + k) = L !! k.
Proof. intros <-. rewrite lookup_app_r by lia. f_equal. lia. Qed.

Lemma alter_fresh (f : Obj → Obj) (H L : list Obj) n k :
  length H = n → alter f (n + k) (H ++ L) = H ++ alter f k L.
Proof. intros <-. apply alter_app_r. Qed.

Lemma alter_fixed (f : Obj → Obj) (L : list Obj) i :
  Forall (λ o, f o = o) L → alter f i L = L.
Proof.
  intros HL. revert i.
  induction HL as [|o L Ho _ IH]; intros [|j]; cbn; try done.
  - by rewrite Ho.
  - by rewrite IH.
Qed.

(** An update that leaves the objects of [L] as they are acts within [H]. *)
Lemma alter_older (f : Obj → Obj) (H L : list Obj) i :
  Forall (λ o, f o = o) L → alter f i (H ++ L) = alter f i H ++ L.
Proof.
  intros HL. revert i. induction H as [|a H IH]; intros i; cbn.
  - by apply alter_fixed.
  - destruct i; cbn; [done|]. by rewrite IH.
Qed.

(** Finds the object at an address of a heap built by [alter] and [++]: the
    goal is [l !! i = Some ?o]. *)
Ltac find_object :=
  lazymatch goal with
  | |- alter ?f ?i ?h !! ?j = _ =>
      first [ eapply lookup_alter_fix; [find_object | reflexivity]
            | eapply lookup_alter_hit; find_object
            | eapply lookup_alter_miss; [solve [auto] | find_object] ]
  | |- (?H ++ ?L) !! (?n + ?k) = _ =>
      rewrite lookup_fresh by (rewrite ?length_alter; reflexivity); reflexivity
  | |- (?H ++ ?L) !! ?i = _ => apply lookup_app_l_Some; find_object
  | |- _ => eassumption
  end.

Ltac solve_lookup :=
  lazymatch goal with
  | |- ?l !! ?i = Some ?o =>
      tryif is_evar o then find_object
      else (let H := fresh in
            eassert (l !! i = Some _) as H by find_object;
            rewrite H; clear H; cbn; reflexivity)
  end.

Ltac wsimpl :=
  cbn [scene camera renderer controls model mixer resizeObserver heap
       devicePixelRatio loading animationFrames
       set_scene set_camera set_renderer set_controls set_model set_mixer
       set_resizeObserver set_heap set_loading set_animationFrames].

Lemma run_play_all clips w mx :
  mixer w = Some mx →
  forEach clips (λ c, via mixer (λ mx', update mx' (on_mixer (clipAction_play c)))) w
  = Normal tt (set_heap (alter (on_mixer (play_all clips)) mx) w).
Proof.
  revert w. induction clips as [|c clips IH]; intros w Hmx; cbn [forEach].
  - unfold mret, Js_ret. f_equal. destruct w; cbn. f_equal.
    symmetry. apply list_alter_id. by intros [].
  - unfold mbind, Js_bind, via at 1. rewrite Hmx. unfold update, modify.
    rewrite IH by done. f_equal. destruct w; cbn. f_equal.
    rewrite list_alter_alter_eq. apply list_alter_ext; [|done].
    by intros [] _.
Qed.

Ltac run_alloc :=
  unfold alloc; wsimpl;
  rewrite ?length_app, ?length_alter, <- ?app_assoc; cbn; reflexivity.

Ltac run_update :=
  unfold update, modify; wsimpl;
  try match goal with
      | |- context [alter ?f (?n + ?k) (?H ++ ?L)] =>
          rewrite (alter_fresh f H L n k) by (rewrite ?length_alter; reflexivity)
      | |- context [alter ?f ?i (?H ++ ?L)] =>
          rewrite (alter_older f H L i) by (repeat constructor)
      end;
  cbn; reflexivity.

(** Runs the computation in the goal [m w = r] on a world written out as a
    record, one step at a time, keeping the heap in the form [H ++ L] with
    [L] the objects allocated so far. *)
Ltac run :=
  lazymatch goal with
  | |- Normal _ _ = _ => reflexivity
  | |- @mbind _ _ _ _ ?k ?m ?w = _ => eapply run_bind; [run | cbv beta; run]
  | |- @mret _ _ _ _ _ = _ => reflexivity
  | |- alloc _ _ = _ => run_alloc
  | |- update _ _ _ = _ => run_update
  | |- modify _ _ = _ => unfold modify; wsimpl; reflexivity
  | |- via _ _ _ = _ => unfold via at 1; wsimpl; cbv beta iota; run
  | |- when _ _ _ = _ => unfold when at 1; wsimpl; cbv beta iota; run
  | |- reading _ _ = _ => unfold reading at 1; wsimpl; cbv beta; run
  | |- field _ _ _ = _ =>
      eapply run_field; [wsimpl; solve_lookup | cbn; reflexivity]
  | |- match parentNode _ with Some _ => _ | None => _ end _ = _ =>
      cbn [parentNode]; run
  | |- match _ !! _ ≫= controlled with Some _ => _ | None => _ end _ = _ =>
      first [ eapply run_branch;
                [solve_lookup | cbn; reflexivity | cbv beta; cbn [object]; run]
            | rewrite ?lookup_alter_controlled by (by intros []);
              match goal with
              | H : ?l !! ?i ≫= controlled = _ |- context [?l !! ?i ≫= controlled] =>
                  rewrite H
              end; cbv iota beta; run ]
  | |- match _ !! _ ≫= _ with Some _ => _ | None => _ end _ = _ =>
      eapply run_branch; [solve_lookup | cbn; reflexivity | cbv beta; run]
  | |- new_WebGLRenderer _ _ _ = _ => unfold new_WebGLRenderer; run
  | |- appendChild _ _ _ = _ => unfold appendChild; run
  | |- ChildNode_remove _ _ = _ => unfold ChildNode_remove; run
  | |- initResizeObserver _ _ = _ => unfold initResizeObserver; run
  | |- loadModel _ _ = _ => unfold loadModel; run
  | |- clearCurrentModel _ = _ => unfold clearCurrentModel; run
  | |- release _ _ = _ => unfold release; run
  | |- OrbitControls_update _ _ = _ => unfold OrbitControls_update; run
  | |- animate _ = _ => unfold animate; wsimpl; cbv iota; run
  | |- forEach _ _ _ = _ =>
      etransitivity; [apply run_play_all; reflexivity|];
      wsimpl;
      try match goal with
          | |- context [alter ?f (?n + ?k) (?H ++ ?L)] =>
              rewrite (alter_fresh f H L n k) by (rewrite ?length_alter; reflexivity)
          end;
      cbn; reflexivity
  | |- onLoad _ _ _ _ = _ => unfold onLoad; run
  | |- _ => idtac
  end.

(** Runs a computation that stops at a [TypeError]: the goal is
    [m w = TypeError ?w']. *)
Ltac run_throw :=
  lazymatch goal with
  | |- TypeError _ = _ => reflexivity
  | |- @mbind _ _ _ _ ?k ?m ?w = _ =>
      first [ eapply run_bind; [solve [run] | cbv beta; run_throw]
            | eapply run_bind_throw; run_throw ]
  | |- via _ _ _ = _ => unfold via at 1; wsimpl; cbv beta iota; run_throw
  | |- when _ _ _ = _ => unfold when at 1; wsimpl; cbv beta iota; run_throw
  | |- reading _ _ = _ => unfold reading at 1; wsimpl; cbv beta; run_throw
  | |- onLoad _ _ _ _ = _ => unfold onLoad; run_throw
  | |- clearCurrentModel _ = _ => unfold clearCurrentModel; run_throw
  | |- release _ _ = _ => unfold release; run_throw
  end.

(** * The operations, one call at a time *)

(** ** [init] *)

Lemma init_returns props container el w :
  heap w !! container = Some (OElement el) →
  init props container w = Normal tt (after_init props container w).
Proof.
  intros Hc. destruct w as [s0 c0 r0 ct0 m0 mx0 ro0 h dpr ld fr].
  cbn in Hc. unfold after_init; wsimpl.
  rewrite <- (app_nil_r h) at 1.
  unfold init. destruct ro0 as [o|], mx0 as [mx|]; cbn [alter_opt].
  all: etransitivity; [run | reflexivity].
Qed.




(** ** [modelPathstate] *)

Lemma modelPathstate_guard newPath oldPath w :
  bool_decide (newPath ≠ "") && bool_decide (newPath ≠ oldPath)
    && bool_decide (is_Some (scene w)) = true ↔
  newPath ≠ "" ∧ newPath ≠ oldPath ∧ is_Some (scene w).
Proof.
  rewrite !andb_true_iff, !bool_decide_eq_true. tauto.
Qed.

(** C10.  When [newPath] is empty, or equals [oldPath], or no scene exists,
    [modelPathstate] returns normally and leaves the whole state as it was:
    no handle, no object of the heap (scene contents, camera position,
    controller target), no load in flight and no scheduled frame changes. *)
Theorem modelPathstate_skips newPath oldPath props w :
  newPath = "" ∨ newPath = oldPath ∨ scene w = None →
  modelPathstate newPath oldPath props w = Normal tt w.
Proof.
  intros Hskip. unfold modelPathstate.
  destruct (_ && _ && _) eqn:Hguard; [|reflexivity].
  apply modelPathstate_guard in Hguard as (Hne & Hdiff & Hsc).
  destruct Hskip as [->| [->| Hnone]]; [done | done |].
  rewrite Hnone in Hsc. by destruct Hsc.
Qed.

Lemma modelPathstate_skips_witness :
  ("a.glb" = "" ∨ "a.glb" = "a.glb" ∨ scene showing = None) ∧
  modelPathstate "a.glb" "a.glb" cfg showing = Normal tt showing.
Proof.
  split; [right; by left|]. apply modelPathstate_skips. right; by left.
Defined.

(** ** [clearCurrentModel] *)

Lemma clearCurrentModel_idle w :
  model w = None → clearCurrentModel w = Normal tt w.
Proof. intros Hm. unfold clearCurrentModel, when. by rewrite Hm. Qed.

Lemma clearCurrentModel_returns w m sc :
  model w = Some m → scene w = Some sc →
  clearCurrentModel w = Normal tt (set_heap (λ _, detached m sc w) w).
Proof.
  destruct w as [s0 c0 r0 ct0 m0 mx0 ro0 h dpr ld fr]; cbn.
  intros -> ->. unfold detached, silenced; wsimpl.
  destruct mx0 as [mx|]; cbn [alter_opt]; (etransitivity; [run | reflexivity]).
Qed.

Lemma clearCurrentModel_throws w m :
  model w = Some m → scene w = None →
  clearCurrentModel w = TypeError (set_heap (λ _, silenced m w) w).
Proof.
  destruct w as [s0 c0 r0 ct0 m0 mx0 ro0 h dpr ld fr]; cbn.
  intros -> ->. unfold silenced; wsimpl.
  destruct mx0 as [mx|]; reflexivity.
Qed.

Lemma remove_first_absent a l : a ∉ l → remove_first a l = l.
Proof.
  induction l as [|b l IH]; cbn; [done|].
  rewrite not_elem_of_cons. intros [Hab Hl].
  rewrite decide_False by done. by rewrite IH.
Qed.

Lemma remove_first_NoDup a l : NoDup l → a ∉ remove_first a l.
Proof.
  induction 1 as [|b l Hb Hl IH]; cbn; [apply not_elem_of_nil|].
  destruct (decide (a = b)) as [->|Hab]; [done|].
  rewrite not_elem_of_cons. by split.
Qed.

Lemma remove_first_idemp a l :
  NoDup l → remove_first a (remove_first a l) = remove_first a l.
Proof. intros Hl. by apply remove_first_absent, remove_first_NoDup. Qed.

Lemma silence_idemp m a :
  uncacheRoot m (stopAllAction (uncacheRoot m (stopAllAction a)))
  = uncacheRoot m (stopAllAction a).
Proof.
  unfold uncacheRoot, stopAllAction; cbn. f_equal.
  destruct (decide (root a = m)); [done|].
  rewrite <- list_fmap_compose. by apply list_fmap_ext.
Qed.

Lemma lookup_alter_at (f : Obj → Obj) i j (l : list Obj) :
  alter f i l !! j = at_address f i j <$> l !! j.
Proof.
  unfold at_address. rewrite list_lookup_alter.
  destruct (decide (i = j)) as [->|]; [done|].
  by destruct (l !! j).
Qed.

Lemma lookup_alter_opt_at (f : Obj → Obj) i j (l : list Obj) :
  alter_opt f i l !! j =
  (λ o, match i with Some i' => at_address f i' j o | None => o end) <$> l !! j.
Proof.
  destruct i as [i'|]; cbn; [apply lookup_alter_at|]. by destruct (l !! j).
Qed.

(** Releasing the same model from an already released heap changes nothing,
    provided the scene lists each child once. *)
Lemma detached_idemp m sc w :
  (∀ s, heap w !! sc = Some (OScene s) → NoDup (children s)) →
  detached m sc (set_heap (λ _, detached m sc w) w) = detached m sc w.
Proof.
  intros Hnodup. unfold detached, silenced; wsimpl.
  apply list_eq; intros j.
  rewrite !lookup_alter_at, !lookup_alter_opt_at, !lookup_alter_at,
    !lookup_alter_opt_at.
  destruct (heap w !! j) as [o|] eqn:Hj; cbn; [|done]. f_equal.
  unfold at_address.
  destruct (mixer w) as [mx|], (decide (sc = j)) as [->|]; repeat case_decide;
    destruct o; cbn; try done.
  all: try (by rewrite silence_idemp).
  all: unfold Object3D_remove; cbn; by rewrite remove_first_idemp by eauto.
Qed.

(** Silencing the mixer of a heap already silenced changes nothing. *)
Lemma silenced_idemp m w :
  silenced m (set_heap (λ _, silenced m w) w) = silenced m w.
Proof.
  unfold silenced; wsimpl. apply list_eq; intros j.
  rewrite !lookup_alter_opt_at.
  destruct (heap w !! j) as [o|]; cbn; [|done]. f_equal.
  unfold at_address. destruct (mixer w) as [mx|]; [|done].
  case_decide; [|done]. destruct o; cbn; try done. by rewrite silence_idemp.
Qed.

(** With a scene that lists each child once, a second call completes as the
    first did and leaves the world the first left, whether the caller goes
    on after a [TypeError] or not. *)
Lemma clearCurrentModel_twice w :
  (∀ sc s, scene w = Some sc → heap w !! sc = Some (OScene s) → NoDup (children s)) →
  clearCurrentModel (world_of (clearCurrentModel w)) = clearCurrentModel w ∧
  (clearCurrentModel ≫= (λ _, clearCurrentModel)) w = clearCurrentModel w ∧
  (model w = None → clearCurrentModel w = Normal tt w) ∧
  (∀ m sc s, model w = Some m → scene w = Some sc →
     heap w !! sc = Some (OScene s) →
     ∃ w', clearCurrentModel w = Normal tt w' ∧
           heap w' !! sc = Some (OScene (Object3D_remove m s)) ∧
           (m ∉ children (Object3D_remove m s)) ∧
           clearCurrentModel w' = Normal tt w').
Proof.
  intros Hnodup.
  assert (∀ m sc, model w = Some m → scene w = Some sc →
            clearCurrentModel (set_heap (λ _, detached m sc w) w)
            = Normal tt (set_heap (λ _, detached m sc w) w)) as Hagain.
  { intros m sc Hm Hsc.
    rewrite (clearCurrentModel_returns _ m sc) by done.
    rewrite detached_idemp by eauto. reflexivity. }
  split; [|split; [|split]].
  - destruct (model w) as [m|] eqn:Hm.
    + destruct (scene w) as [sc|] eqn:Hsc.
      * rewrite (clearCurrentModel_returns w m sc) by done. by apply Hagain.
      * rewrite (clearCurrentModel_throws w m) by done. cbn [world_of].
        rewrite (clearCurrentModel_throws _ m) by done.
        by rewrite silenced_idemp.
    + rewrite (clearCurrentModel_idle w) by done. by apply clearCurrentModel_idle.
  - unfold mbind, Js_bind.
    destruct (model w) as [m|] eqn:Hm.
    + destruct (scene w) as [sc|] eqn:Hsc.
      * rewrite (clearCurrentModel_returns w m sc) by done. by apply Hagain.
      * by rewrite (clearCurrentModel_throws w m).
    + rewrite (clearCurrentModel_idle w) by done. by apply clearCurrentModel_idle.
  - apply clearCurrentModel_idle.
  - intros m sc s Hm Hsc Hs.
    exists (set_heap (λ _, detached m sc w) w).
    split; [by apply clearCurrentModel_returns|].
    split; [|split].
    + unfold detached, silenced; cbn [heap set_heap].
      destruct (mixer w) as [mx|]; cbn [alter_opt]; solve_lookup.
    + apply remove_first_NoDup. eauto.
    + by apply Hagain.
Qed.

(** * Properties kept by every step *)

Lemma allDestroyed_split w :
  allDestroyed w =
  match teardown w with
  | Normal _ w1 => Normal tt (cleared w1)
  | TypeError w1 => TypeError w1
  end.
Proof.
  unfold allDestroyed, teardown, mbind, Js_bind.
  destruct (when resizeObserver _ w) as [[] w1|w1]; [|reflexivity].
  destruct (clearCurrentModel w1) as [[] w2|w2]; [|reflexivity].
  destruct (when controls _ w2) as [[] w3|w3]; [|reflexivity].
  destruct (when renderer _ w3) as [[] w4|w4]; reflexivity.
Qed.

Section preservation.
Context (R : relation World) `{!PreOrder R}.
Hypothesis R_heap : ∀ f w, R w (set_heap f w).
Hypothesis R_loading : ∀ f w, R w (set_loading f w).
Hypothesis R_animationFrames : ∀ f w, R w (set_animationFrames f w).

Lemma preserves_ret {A} (a : A) : preserves R (mret a).
Proof. intros w. reflexivity. Qed.

Lemma preserves_bind {A B} (m : Js A) (k : A → Js B) :
  preserves R m → (∀ a, preserves R (k a)) → preserves R (m ≫= k).
Proof.
  intros Hm Hk w. specialize (Hm w). unfold mbind, Js_bind.
  destruct (m w) as [a w1|w1]; cbn in *; [|done].
  etransitivity; [exact Hm | apply Hk].
Qed.

Lemma preserves_via {A} h (k : nat → Js A) :
  (∀ i, preserves R (k i)) → preserves R (via h k).
Proof. intros Hk w. unfold via. destruct (h w); [apply Hk | reflexivity]. Qed.

Lemma preserves_when h (k : nat → Js unit) :
  (∀ i, preserves R (k i)) → preserves R (when h k).
Proof. intros Hk w. unfold when. destruct (h w); [apply Hk | reflexivity]. Qed.

Lemma preserves_reading {A} (k : World → Js A) :
  (∀ w0, preserves R (k w0)) → preserves R (reading k).
Proof. intros Hk w. apply Hk. Qed.

Lemma preserves_field {A} i (proj : Obj → option A) : preserves R (field i proj).
Proof. intros w. unfold field. destruct (_ ≫= _); reflexivity. Qed.

Lemma preserves_forEach {A} (l : list A) (f : A → Js unit) :
  (∀ a, preserves R (f a)) → preserves R (forEach l f).
Proof.
  intros Hf. induction l as [|a l IH]; cbn [forEach].
  - apply preserves_ret.
  - apply preserves_bind; [apply Hf | intros _; apply IH].
Qed.

Lemma preserves_modify f : (∀ w, R w (f w)) → preserves R (modify f).
Proof. intros Hf w. apply Hf. Qed.

Lemma preserves_alloc o : preserves R (alloc o).
Proof. intros w. apply R_heap. Qed.

Lemma preserves_update i f : preserves R (update i f).
Proof. intros w. apply R_heap. Qed.

Lemma preserves_option {A B} (s : option A) (k : A → Js B) (d : Js B) :
  (∀ a, preserves R (k a)) → preserves R d →
  preserves R (match s with Some a => k a | None => d end).
Proof. intros Hk Hd. destruct s; [apply Hk | apply Hd]. Qed.

Ltac preserve :=
  repeat lazymatch goal with
    | |- preserves R (OrbitControls_update _) => unfold OrbitControls_update
    | |- preserves R (@mret _ _ _ _) => apply preserves_ret
    | |- preserves R (alloc _) => apply preserves_alloc
    | |- preserves R (update _ _) => apply preserves_update
    | |- preserves R (field _ _) => apply preserves_field
    | |- preserves R (@mbind _ _ _ _ _ _) => apply preserves_bind; [|intros ?]
    | |- preserves R (via _ _) => apply preserves_via; intros ?
    | |- preserves R (when _ _) => apply preserves_when; intros ?
    | |- preserves R (reading _) => apply preserves_reading; intros ?
    | |- preserves R (forEach _ _) => apply preserves_forEach; intros ?
    | |- preserves R (match _ with Some _ => _ | None => _ end) =>
        apply preserves_option; [intros ?|]
    | |- preserves R (modify (set_heap _)) =>
        apply preserves_modify; intros ?; apply R_heap
    | |- preserves R (modify (set_loading _)) =>
        apply preserves_modify; intros ?; apply R_loading
    | |- preserves R (modify (set_animationFrames _)) =>
        apply preserves_modify; intros ?; apply R_animationFrames
    | |- preserves R (modify _) => apply preserves_modify; intros ?; solve [auto]
    end.

Lemma preserves_loadModel props : preserves R (loadModel props).
Proof. unfold loadModel. preserve. Qed.

Lemma preserves_ChildNode_remove cv : preserves R (ChildNode_remove cv).
Proof. unfold ChildNode_remove. preserve. Qed.

Lemma preserves_appendChild p cv : preserves R (appendChild p cv).
Proof. unfold appendChild. preserve. apply preserves_ChildNode_remove. Qed.

Lemma preserves_animate : preserves R animate.
Proof.
  intros w. unfold animate.
  destruct (controls w) as [ctl|]; [|reflexivity].
  destruct (scene w) as [sc|]; [|reflexivity].
  destruct (camera w) as [cam|]; [|reflexivity].
  revert w. change (preserves R (modify (set_animationFrames S) ;;
    OrbitControls_update ctl ;;
    when mixer (λ mx, update mx (on_mixer (mixer_update 0.016))) ;;
    via renderer (λ r, update r (on_renderer (render sc cam))))).
  preserve.
Qed.

Lemma preserves_updateRendererSize e : preserves R (updateRendererSize e).
Proof.
  intros w. unfold updateRendererSize.
  destruct (_ ≫= _) as [el|]; [|reflexivity].
  destruct (renderer w) as [r|]; [|reflexivity].
  destruct (camera w) as [cam|]; [|reflexivity].
  cbv zeta. revert w.
  change (preserves R (update r (on_renderer (setSize (clientWidth el) (clientHeight el))) ;;
    update cam (on_camera (set_aspect (clientWidth el / clientHeight el))) ;;
    update cam (on_camera updateProjectionMatrix))).
  preserve.
Qed.

Lemma preserves_release m : preserves R (release m).
Proof. unfold release. preserve. Qed.

Lemma preserves_clearCurrentModel : preserves R clearCurrentModel.
Proof. unfold clearCurrentModel. preserve. apply preserves_release. Qed.

Lemma preserves_modelPathstate newPath oldPath props :
  preserves R (modelPathstate newPath oldPath props).
Proof.
  intros w. unfold modelPathstate. destruct (_ && _ && _); [|reflexivity].
  revert w. apply preserves_bind; [apply preserves_clearCurrentModel|intros _].
  apply preserves_bind; [apply preserves_loadModel|intros _].
  apply preserves_reading; intros w'.
  destruct (camera w'), (controls w'); preserve.
Qed.

Lemma preserves_frame : preserves R frame.
Proof.
  intros w. unfold frame. destruct (animationFrames w) as [|n]; [reflexivity|].
  revert w. apply preserves_bind; [|intros _; apply preserves_animate].
  preserve.
Qed.

Lemma preserves_layout e width height : preserves R (layout e width height).
Proof. unfold layout. preserve. Qed.

Lemma preserves_notify_resize o : preserves R (notify_resize o).
Proof.
  intros w. unfold notify_resize.
  destruct (_ ≫= _) as [ob|]; [|reflexivity].
  destruct (observing ob); [reflexivity|]. apply preserves_updateRendererSize.
Qed.

Lemma preserves_initResizeObserver e :
  (∀ v w, R w (set_resizeObserver v w)) → preserves R (initResizeObserver e).
Proof. intros ?. unfold initResizeObserver. preserve. Qed.

Lemma preserves_init props container :
  (∀ v w, R w (set_scene v w)) → (∀ v w, R w (set_camera v w)) →
  (∀ v w, R w (set_renderer v w)) → (∀ v w, R w (set_controls v w)) →
  (∀ v w, R w (set_resizeObserver v w)) →
  preserves R (init props container).
Proof.
  intros ?????. unfold init, new_WebGLRenderer. preserve.
  - apply preserves_appendChild.
  - by apply preserves_initResizeObserver.
  - apply preserves_loadModel.
  - apply preserves_animate.
Qed.

Lemma preserves_onLoad props g clips :
  (∀ v w, R w (set_model (Some v) w)) → (∀ v w, R w (set_mixer (Some v) w)) →
  preserves R (onLoad props g clips).
Proof. intros ??. unfold onLoad. preserve. Qed.

Lemma preserves_resolve_load i gltf :
  (∀ v w, R w (set_model (Some v) w)) → (∀ v w, R w (set_mixer (Some v) w)) →
  preserves R (resolve_load i gltf).
Proof.
  intros ?? w. unfold resolve_load. destruct (loading w !! i) as [req|]; [|reflexivity].
  revert w.
  change (preserves R (modify (set_loading (delete i)) ;;
                     g ← alloc (OGroup (gltf_scene gltf));
                     onLoad (closure req) g (animations gltf))).
  preserve. by apply preserves_onLoad.
Qed.

Lemma preserves_teardown : preserves R teardown.
Proof.
  unfold teardown. preserve.
  - apply preserves_clearCurrentModel.
  - apply preserves_ChildNode_remove.
Qed.
End preservation.

(** * Completion of a load *)

Lemma clipAction_play_in_looping c l :
  Forall looping l → Forall looping (clipAction_play_in c l).
Proof.
  induction 1 as [|a l Ha Hl IH]; cbn.
  - by repeat constructor.
  - destruct (decide (clip a = c)); constructor; try done.
    destruct Ha. by split.
Qed.

Lemma clipAction_play_in_clip c l : c ∈ clip <$> clipAction_play_in c l.
Proof.
  induction l as [|a l IH]; cbn.
  - apply list_elem_of_here.
  - destruct (decide (clip a = c)) as [<-|]; cbn.
    + apply list_elem_of_here.
    + by apply list_elem_of_further.
Qed.

Lemma clipAction_play_in_keeps c c' l :
  c' ∈ clip <$> l → c' ∈ clip <$> clipAction_play_in c l.
Proof.
  induction l as [|a l IH]; cbn; [by rewrite elem_of_nil|].
  rewrite elem_of_cons. intros [->|Hin].
  - destruct (decide (clip a = c)); cbn; apply list_elem_of_here.
  - destruct (decide (clip a = c)); cbn; apply list_elem_of_further; auto.
Qed.

Lemma play_all_root clips m : root (play_all clips m) = root m.
Proof.
  revert m. induction clips as [|c clips IH]; intros m; cbn; [done|].
  unfold play_all in IH. by rewrite IH.
Qed.

Lemma play_all_looping clips m :
  Forall looping (actions m) → Forall looping (actions (play_all clips m)).
Proof.
  revert m. induction clips as [|c clips IH]; intros m Hm; cbn; [done|].
  apply IH. cbn. by apply clipAction_play_in_looping.
Qed.

Lemma play_all_keeps clips m c :
  c ∈ clip <$> actions m → c ∈ clip <$> actions (play_all clips m).
Proof.
  revert m. induction clips as [|c' clips IH]; intros m Hm; cbn; [done|].
  apply IH. cbn. by apply clipAction_play_in_keeps.
Qed.

(** Every clip handed to the callback ends up with a running, looping
    action. *)
Lemma play_all_started clips m c :
  Forall looping (actions m) → c ∈ clips →
  ∃ a, a ∈ actions (play_all clips m) ∧ clip a = c ∧ looping a.
Proof.
  intros Hm Hc.
  assert (c ∈ clip <$> actions (play_all clips m)) as Hin.
  { revert m Hm. induction clips as [|c' clips IH]; intros m Hm; cbn.
    - by apply elem_of_nil in Hc.
    - apply elem_of_cons in Hc as [->|Hc].
      + apply play_all_keeps. cbn. apply clipAction_play_in_clip.
      + apply IH; [done|]. cbn. by apply clipAction_play_in_looping. }
  apply list_elem_of_fmap in Hin as (a & -> & Ha).
  exists a. split; [done|]. split; [done|].
  pose proof (play_all_looping clips m Hm) as Hall.
  rewrite Forall_forall in Hall. by apply Hall.
Qed.

Lemma resolve_load_returns i gltf w req sc :
  loading w !! i = Some req → scene w = Some sc →
  resolve_load i gltf w
  = Normal tt (after_load (closure req) (animations gltf) i sc w).
Proof.
  intros Hreq Hsc. unfold resolve_load. rewrite Hreq.
  destruct w as [s0 c0 r0 ct0 m0 mx0 ro0 h dpr ld fr].
  cbn in Hsc; subst s0. unfold after_load; wsimpl.
  rewrite <- (app_nil_r h) at 1.
  etransitivity; [run | reflexivity].
Qed.

Lemma resolve_load_throws i gltf w req :
  loading w !! i = Some req → scene w = None →
  resolve_load i gltf w = TypeError (after_late_load (closure req) i w).
Proof.
  intros Hreq Hsc. unfold resolve_load. rewrite Hreq.
  destruct w as [s0 c0 r0 ct0 m0 mx0 ro0 h dpr ld fr].
  cbn in Hsc; subst s0. unfold after_late_load; wsimpl.
  rewrite <- (app_nil_r h) at 1.
  etransitivity; [run_throw | reflexivity].
Qed.

(** C7 (amended).  When the load queued by [loadModel props] resolves while a
    scene exists, the callback returns normally: the decoded subtree, a new
    object, is scaled by [props.scale] on the three axes, placed at
    [props.position] and appended to the scene's children; the model handle
    refers to it; a new mixer rooted at it becomes the mixer handle; and
    every clip of the asset has a running action in the default loop mode. *)
Theorem load_completion props i gltf w sc s :
  loading w !! i = Some {| url := modelPath props; closure := props |} →
  scene w = Some sc → heap w !! sc = Some (OScene s) →
  ∃ w' g mx,
    resolve_load i gltf w = Normal tt w' ∧
    heap w !! g = None ∧ heap w !! mx = None ∧
    model w' = Some g ∧
    heap w' !! g =
      Some (OGroup {| grp_scale := Vec3 (scale props) (scale props) (scale props);
                      grp_position := Vec3 (x (position props)) (y (position props))
                                           (z (position props)) |}) ∧
    heap w' !! sc = Some (OScene {| background := background s;
                                    children := children s ++ [g] |}) ∧
    mixer w' = Some mx ∧
    ∃ m, heap w' !! mx = Some (OMixer m) ∧ root m = g ∧
         ∀ c, c ∈ animations gltf →
              ∃ a, a ∈ actions m ∧ clip a = c ∧
                   running a = true ∧ loop a = LoopRepeat.
Proof.
  intros Hreq Hsc Hs. set (n := length (heap w)).
  exists (after_load props (animations gltf) i sc w), (n + 0), (n + 1).
  split; [by rewrite (resolve_load_returns i gltf w _ sc Hreq Hsc)|].
  unfold after_load; cbn [heap model mixer]; fold n.
  repeat split; try (apply lookup_ge_None; subst n; lia); try solve_lookup.
  eexists. split; [solve_lookup|]. split; [by rewrite play_all_root|].
  intros c Hc. apply play_all_started; [|done]. cbn. constructor.
Qed.

Lemma load_completion_witness :
  loading started !! 0 = Some {| url := modelPath cfg; closure := cfg |} ∧
  scene started = Some 1 ∧
  ∃ w' g, resolve_load 0 asset started = Normal tt w' ∧ model w' = Some g ∧
    heap w' !! 1 = Some (OScene {| background := None; children := [6; 7] ++ [g] |}).
Proof.
  split; [reflexivity|]. split; [reflexivity|].
  destruct (load_completion cfg 0 asset started 1
              {| background := None; children := [6; 7] |} eq_refl eq_refl eq_refl)
    as (w' & g & mx & Hrun & _ & _ & Hg & _ & Hsc & _).
  by exists w', g.
Defined.

(** C7 as stated fails once the scene is gone: the load that [init] queued
    resolves after [allDestroyed], and the callback stops with a [TypeError]
    at [scene.add]; the subtree is attached nowhere and no mixer exists. *)
Lemma load_after_teardown :
  loading torn_down !! 0 = Some {| url := modelPath cfg; closure := cfg |} ∧
  resolve_load 0 asset torn_down = TypeError late ∧
  (¬ ∃ w', resolve_load 0 asset torn_down = Normal tt w') ∧
  scene late = None ∧ mixer late = None ∧ model late = Some 9 ∧
  ∀ i s, heap late !! i = Some (OScene s) → 9 ∉ children s.
Proof.
  split; [reflexivity|]. split; [reflexivity|]. split.
  { intros [w' Hw']. discriminate Hw'. }
  do 3 (split; [reflexivity|]).
  assert (Forall (λ o, ∀ s, o = OScene s → 9 ∉ children s) (heap late)) as Hall.
  { repeat constructor; intros s [= <-]; cbn.
    rewrite !not_elem_of_cons. repeat split; try lia. apply not_elem_of_nil. }
  intros i s Hi. by eapply (Forall_lookup_1 _ _ _ _ Hall Hi).
Qed.

(** * Resize handling *)

Lemma updateRendererSize_unfold e el r cam w :
  heap w !! e = Some (OElement el) → renderer w = Some r → camera w = Some cam →
  updateRendererSize e w
  = (update r (on_renderer (setSize (clientWidth el) (clientHeight el))) ;;
     update cam (on_camera (set_aspect (clientWidth el / clientHeight el))) ;;
     update cam (on_camera updateProjectionMatrix)) w.
Proof.
  intros He Hr Hcam. unfold updateRendererSize. by rewrite He, Hr, Hcam.
Qed.

(** C6.  The resize handler is [updateRendererSize] applied to the mount
    element; an observer that observes something runs it on a reported
    change.  With renderer and camera defined it returns normally, the
    renderer's size is the element's [clientWidth] by [clientHeight], the
    camera's aspect is the binary64 quotient [clientWidth / clientHeight],
    and the projection is recomputed from that aspect; no handle changes.
    With the renderer or the camera undefined it returns normally and
    changes nothing. *)
Theorem resize_fits_container e w :
  (∀ el r ro cam c,
     heap w !! e = Some (OElement el) →
     renderer w = Some r → camera w = Some cam →
     heap w !! r = Some (ORenderer ro) → heap w !! cam = Some (OCamera c) →
     ∃ w' ro' c',
       updateRendererSize e w = Normal tt w' ∧
       heap w' !! r = Some (ORenderer ro') ∧
       size ro' = Some (clientWidth el, clientHeight el) ∧
       heap w' !! cam = Some (OCamera c') ∧
       aspect c' = (clientWidth el / clientHeight el)%float ∧
       projectionMatrix c' =
         {| f_fov := fov c; f_aspect := (clientWidth el / clientHeight el)%float;
            f_near := near c; f_far := far c |} ∧
       cam_position c' = cam_position c ∧
       renderer w' = Some r ∧ camera w' = Some cam) ∧
  (renderer w = None ∨ camera w = None → updateRendererSize e w = Normal tt w) ∧
  (∀ o ob, heap w !! o = Some (OObserver ob) → callback ob = e →
           observing ob ≠ [] → notify_resize o w = updateRendererSize e w).
Proof.
  split; [|split].
  - intros el r ro cam c He Hr Hcam Hro Hc.
    rewrite (updateRendererSize_unfold e el r cam) by done.
    destruct w as [s0 c0 r0 ct0 m0 mx0 ro0 h dpr ld fr]. cbn in * |-. subst.
    eexists _, _, _. split; [run|]. wsimpl.
    split; [solve_lookup|]. split; [reflexivity|]. split; [solve_lookup|].
    by repeat split.
  - intros Hnone. unfold updateRendererSize.
    destruct (_ ≫= _); [|done].
    destruct Hnone as [-> | ->]; [done|]. by destruct (renderer w).
  - intros o ob Ho <- Hobs. unfold notify_resize. rewrite Ho; cbn.
    by destruct (observing ob).
Qed.

Lemma resize_fits_container_witness :
  ∃ w', notify_resize 8 started = Normal tt w' ∧
        (∃ ro, heap w' !! 4 = Some (ORenderer ro) ∧ size ro = Some (400, 300)%float) ∧
        (∃ c, heap w' !! 2 = Some (OCamera c) ∧ aspect c = (400 / 300)%float).
Proof.
  destruct (resize_fits_container 0 started) as (Hfit & _ & Hobs).
  destruct (Hfit {| clientWidth := 400; clientHeight := 300; childNodes := [3] |}
              4 _ 2 _ eq_refl eq_refl eq_refl eq_refl eq_refl)
    as (w' & ro' & c' & Hrun & Hro & Hsize & Hc & Hasp & _).
  exists w'. split.
  - rewrite <- Hrun. by apply (Hobs 8 {| callback := 0; observing := [0] |}).
  - split; [by exists ro' | by exists c'].
Defined.

(** * The render loop *)

Lemma animate_idle w :
  controls w = None ∨ scene w = None ∨ camera w = None →
  animate w = Normal tt w.
Proof.
  intros Hnone. unfold animate.
  destruct (controls w); [|done]. destruct (scene w); [|done].
  destruct (camera w); [|done]. by destruct Hnone as [?|[?|?]].
Qed.

(** With the controller undefined, [k] frames run [k] of the scheduled
    callbacks (as many as there are) and none of them schedules another. *)
Lemma frames_idle k w :
  controls w = None →
  frames k w = Normal tt (set_animationFrames (λ n, n - k) w).
Proof.
  revert w. induction k as [|k IH]; intros w Hctl; cbn [frames].
  - unfold mret, Js_ret. f_equal. destruct w; cbn. f_equal. lia.
  - unfold frame, mbind, Js_bind. destruct (animationFrames w) as [|n] eqn:Hn.
    + rewrite IH by done. f_equal. destruct w; cbn in *. f_equal. lia.
    + unfold modify. rewrite animate_idle by (by left).
      rewrite IH by done. f_equal. destruct w; cbn in *. f_equal. lia.
Qed.

(** * The handles along a run *)

#[global] Instance same_handles_preorder : PreOrder same_handles.
Proof.
  split.
  - by intros w.
  - intros w1 w2 w3 (?&?&?&?&?&?&?) (?&?&?&?&?&?&?).
    repeat split; congruence.
Qed.

#[global] Instance keeps_loaded_preorder : PreOrder keeps_loaded.
Proof.
  split.
  - by intros w.
  - intros w1 w2 w3 [??] [??]. split; auto.
Qed.

Lemma same_handles_step c w :
  match c with
  | Init _ _ | AllDestroyed | LoadResolved _ _ => True
  | _ => same_handles w (world_of (perform c w))
  end.
Proof.
  assert (∀ f w0, same_handles w0 (set_heap f w0)) as Hh by done.
  assert (∀ f w0, same_handles w0 (set_loading f w0)) as Hl by done.
  assert (∀ f w0, same_handles w0 (set_animationFrames f w0)) as Hf by done.
  destruct c; cbn [perform]; try exact I.
  - by apply (preserves_modelPathstate same_handles).
  - by apply (preserves_clearCurrentModel same_handles).
  - by apply (preserves_frame same_handles).
  - by apply (preserves_layout same_handles).
  - by apply (preserves_notify_resize same_handles).
Qed.

Lemma same_handles_teardown w : same_handles w (world_of (teardown w)).
Proof. by apply (preserves_teardown same_handles). Qed.

Lemma keeps_loaded_step c w :
  c ≠ AllDestroyed → keeps_loaded w (world_of (perform c w)).
Proof.
  intros Hc.
  assert (∀ f w0, keeps_loaded w0 (set_heap f w0)) as Hh by done.
  assert (∀ f w0, keeps_loaded w0 (set_loading f w0)) as Hl by done.
  assert (∀ f w0, keeps_loaded w0 (set_animationFrames f w0)) as Hf by done.
  destruct c; cbn [perform]; try (by destruct Hc).
  - by apply (preserves_init keeps_loaded).
  - by apply (preserves_modelPathstate keeps_loaded).
  - by apply (preserves_clearCurrentModel keeps_loaded).
  - by apply (preserves_resolve_load keeps_loaded).
  - by apply (preserves_frame keeps_loaded).
  - by apply (preserves_layout keeps_loaded).
  - by apply (preserves_notify_resize keeps_loaded).
Qed.

Lemma lifecycle_same_handles w w' :
  same_handles w w' → lifecycle w → lifecycle w'.
Proof.
  intros (Hs & Hc & Hr & Hct & Hm & Hmx & Hro). unfold lifecycle.
  by rewrite Hs, Hc, Hr, Hct, Hm, Hmx, Hro.
Qed.

Lemma lifecycle_step c w :
  admissible c w → lifecycle w → lifecycle (world_of (perform c w)).
Proof.
  intros Hadm Hw.
  pose proof (same_handles_step c w) as Hsame.
  destruct c as [props container| | | |i gltf| | |]; cbn [perform] in *;
    try (by eapply lifecycle_same_handles).
  - destruct Hadm as [el Hel]. rewrite (init_returns props container el) by done.
    left. cbn. destruct Hw as [Hup|Hdown]; [|destruct Hdown as (_&_&_&_&->)];
      repeat split; eauto; try tauto. by intros [? [=]].
  - rewrite allDestroyed_split.
    pose proof (same_handles_teardown w) as Ht.
    destruct (teardown w) as [[] w1|w1]; cbn in *.
    + by right.
    + by eapply lifecycle_same_handles.
  - destruct (loading w !! i) as [req|] eqn:Hreq.
    + destruct (scene w) as [sc|] eqn:Hsc.
      * rewrite (resolve_load_returns i gltf w req sc) by done.
        destruct Hw as [(?&?&?&?&?&?)|(Hnone&_)]; [|congruence].
        left. cbn. repeat split; eauto.
      * rewrite (resolve_load_throws i gltf w req) by done.
        destruct Hw as [([? ?]&_)|(?&?&?&?&?)]; [congruence|].
        right. cbn. by rewrite Hsc.
    + unfold resolve_load. by rewrite Hreq.
Qed.

Lemma reachable_lifecycle w : reachable w → lifecycle w.
Proof.
  induction 1 as [w (?&?&?&?&?&?&?&?&?&?)|c w _ IH Hadm].
  - by right.
  - by apply lifecycle_step.
Qed.

Lemma reachable_page : reachable page.
Proof.
  apply reachable_fresh. repeat split. repeat constructor. by eexists.
Qed.

Lemma reachable_started : reachable started.
Proof.
  apply (reachable_step (Init cfg 0) page reachable_page). by eexists.
Qed.

Lemma reachable_showing : reachable showing.
Proof. exact (reachable_step (LoadResolved 0 asset) started reachable_started I). Qed.

Lemma reachable_torn_down : reachable torn_down.
Proof. exact (reachable_step AllDestroyed started reachable_started I). Qed.

(** * Soundness of the heap *)

#[global] Instance follows_preorder : PreOrder follows.
Proof.
  split.
  - intros []; cbn; first [done | reflexivity].
  - intros [] [] []; cbn; try done; try congruence.
    intros ??. by etransitivity.
Qed.

#[global] Instance evolves_preorder : PreOrder evolves.
Proof.
  split.
  - intros w. apply Forall_Forall2_diag, Forall_forall. by intros o _.
  - intros w1 w2 w3. unfold evolves. apply Forall2_trans.
    intros o1 o2 o3 ??. by etransitivity.
Qed.

Lemma remove_first_sublist a l : remove_first a l `sublist_of` l.
Proof.
  induction l as [|b l IH]; cbn; [done|].
  destruct (decide (a = b)); by constructor.
Qed.

Lemma tidy_follows n o o' : follows o o' → tidy n o → tidy n o'.
Proof.
  intros Hf Ho s' ->. destruct o as [s| | | | | | | | |]; try done. cbn in Hf.
  destruct (Ho s eq_refl) as [Hnodup Hbelow]. split.
  - by eapply sublist_NoDup.
  - intros c Hc. apply Hbelow. by eapply elem_of_sublist.
Qed.

Lemma tidy_mono n n' o : n ≤ n' → tidy n o → tidy n' o.
Proof.
  intros Hn Ho s ->. destruct (Ho s eq_refl) as [Hnodup Hbelow].
  split; [done|]. intros c Hc. specialize (Hbelow c Hc). lia.
Qed.

Lemma evolves_same_heap w w' : heap w' = heap w → evolves w w'.
Proof. unfold evolves. intros ->. by apply (reflexivity (R:=evolves)). Qed.

Lemma evolves_update i f w :
  (∀ o, follows o (f o)) → evolves w (set_heap (alter f i) w).
Proof.
  intros Hf. unfold evolves; cbn. apply Forall2_alter_r.
  - by apply (reflexivity (R:=evolves)).
  - intros o o' _ _ Ho. etransitivity; [exact Ho | apply Hf].
Qed.

Lemma preserves_evolves_update i f :
  (∀ o, follows o (f o)) → preserves evolves (update i f).
Proof. intros Hf w. by apply evolves_update. Qed.

Ltac evolve :=
  repeat lazymatch goal with
    | |- preserves _ (OrbitControls_update _) => unfold OrbitControls_update
    | |- preserves _ (@mret _ _ _ _) => apply (preserves_ret evolves)
    | |- preserves _ (update _ _) =>
        apply preserves_evolves_update; intros []; cbn;
        first [done | reflexivity | apply remove_first_sublist]
    | |- preserves _ (field _ _) => apply (preserves_field evolves)
    | |- preserves _ (@mbind _ _ _ _ _ _) =>
        apply (preserves_bind evolves); [|intros ?]
    | |- preserves _ (via _ _) => apply (preserves_via evolves); intros ?
    | |- preserves _ (when _ _) => apply (preserves_when evolves); intros ?
    | |- preserves _ (reading _) => apply (preserves_reading evolves); intros ?
    | |- preserves _ (match _ with Some _ => _ | None => _ end) =>
        apply (preserves_option evolves); [intros ?|]
    | |- preserves _ (modify (set_loading _)) =>
        apply (preserves_modify evolves); intros ?; by apply evolves_same_heap
    | |- preserves _ (modify (set_animationFrames _)) =>
        apply (preserves_modify evolves); intros ?; by apply evolves_same_heap
    end.

Lemma evolves_loadModel props : preserves evolves (loadModel props).
Proof. unfold loadModel. evolve. Qed.

Lemma evolves_ChildNode_remove cv : preserves evolves (ChildNode_remove cv).
Proof. unfold ChildNode_remove. evolve. Qed.

Lemma evolves_animate : preserves evolves animate.
Proof.
  intros w. unfold animate.
  destruct (controls w) as [ctl|]; [|reflexivity].
  destruct (scene w) as [sc|]; [|reflexivity].
  destruct (camera w) as [cam|]; [|reflexivity].
  revert w. change (preserves evolves (modify (set_animationFrames S) ;;
    OrbitControls_update ctl ;;
    when mixer (λ mx, update mx (on_mixer (mixer_update 0.016))) ;;
    via renderer (λ r, update r (on_renderer (render sc cam))))).
  evolve.
Qed.

Lemma evolves_updateRendererSize e : preserves evolves (updateRendererSize e).
Proof.
  intros w. unfold updateRendererSize.
  destruct (_ ≫= _) as [el|]; [|reflexivity].
  destruct (renderer w) as [r|]; [|reflexivity].
  destruct (camera w) as [cam|]; [|reflexivity].
  cbv zeta. revert w.
  change (preserves evolves
    (update r (on_renderer (setSize (clientWidth el) (clientHeight el))) ;;
     update cam (on_camera (set_aspect (clientWidth el / clientHeight el))) ;;
     update cam (on_camera updateProjectionMatrix))).
  evolve.
Qed.

Lemma evolves_release m : preserves evolves (release m).
Proof. unfold release. evolve. Qed.

Lemma evolves_clearCurrentModel : preserves evolves clearCurrentModel.
Proof. unfold clearCurrentModel. evolve. apply evolves_release. Qed.

Lemma evolves_modelPathstate newPath oldPath props :
  preserves evolves (modelPathstate newPath oldPath props).
Proof.
  intros w. unfold modelPathstate. destruct (_ && _ && _); [|reflexivity].
  revert w.
  apply (preserves_bind evolves); [apply evolves_clearCurrentModel|intros _].
  apply (preserves_bind evolves); [apply evolves_loadModel|intros _].
  apply (preserves_reading evolves); intros w'.
  destruct (camera w'), (controls w'); evolve.
Qed.

Lemma evolves_frame : preserves evolves frame.
Proof.
  intros w. unfold frame. destruct (animationFrames w) as [|n]; [reflexivity|].
  revert w.
  apply (preserves_bind evolves); [|intros _; apply evolves_animate]. evolve.
Qed.

Lemma evolves_layout e width height : preserves evolves (layout e width height).
Proof. unfold layout. evolve. Qed.

Lemma evolves_notify_resize o : preserves evolves (notify_resize o).
Proof.
  intros w. unfold notify_resize.
  destruct (_ ≫= _) as [ob|]; [|reflexivity].
  destruct (observing ob); [reflexivity|]. apply evolves_updateRendererSize.
Qed.

Lemma evolves_teardown : preserves evolves teardown.
Proof.
  unfold teardown. evolve.
  - apply evolves_clearCurrentModel.
  - apply evolves_ChildNode_remove.
Qed.

(** A step that changes no handle and lets the heap evolve keeps the state
    sound. *)
Lemma sound_quiet w w' :
  same_handles w w' → evolves w w' → sound w → sound w'.
Proof.
  intros (Hs & Hc & Hr & Hct & Hm & Hmx & Hro) Hev [Htyped Htidy].
  pose proof (Forall2_length _ _ _ Hev) as Hlen.
  assert (∀ i o, heap w !! i = Some o →
            ∃ o', heap w' !! i = Some o' ∧ follows o o') as Hnext
    by (intros i o Hi; by eapply Forall2_lookup_l).
  split.
  - destruct Htyped as (Ts & Tc & Tr & Tct & Tm & Tmx & Tro).
    unfold well_typed. rewrite Hs, Hc, Hr, Hct, Hm, Hmx, Hro.
    repeat split; intros i Hi.
    + destruct (Ts i Hi) as (s & Hi'). destruct (Hnext _ _ Hi') as ([] & ? & ?); by eauto.
    + destruct (Tc i Hi) as (s & Hi'). destruct (Hnext _ _ Hi') as ([] & ? & ?); by eauto.
    + destruct (Tr i Hi) as (r & cv & Hi' & Hcv).
      destruct (Hnext _ _ Hi') as ([| |r'| | | | | | |] & ? & Hdom); try done.
      destruct (Hnext _ _ Hcv) as ([] & ? & ?); try done.
      cbn in Hdom. eexists _, _. split; [done|]. by rewrite Hdom.
    + destruct (Tct i Hi) as (s & Hi'). destruct (Hnext _ _ Hi') as ([] & ? & ?); by eauto.
    + destruct (Tm i Hi) as (s & Hi'). destruct (Hnext _ _ Hi') as ([] & ? & ?); by eauto.
    + destruct (Tmx i Hi) as (s & Hi'). destruct (Hnext _ _ Hi') as ([] & ? & ?); by eauto.
    + destruct (Tro i Hi) as (s & Hi'). destruct (Hnext _ _ Hi') as ([] & ? & ?); by eauto.
  - rewrite <- Hlen. apply Forall_lookup. intros i o' Hi'.
    destruct (Forall2_lookup_r _ _ _ _ _ Hev Hi') as (o & Hi & Hf).
    eapply tidy_follows; [exact Hf|]. by eapply Forall_lookup_1.
Qed.

Lemma tidy_alter n f i (h : list Obj) :
  (∀ o, follows o (f o)) → Forall (tidy n) h → Forall (tidy n) (alter f i h).
Proof.
  intros Hf Hh. apply Forall_alter; [done|].
  intros o _. by apply tidy_follows.
Qed.

Lemma length_alter_opt (f : Obj → Obj) h (l : list Obj) :
  length (alter_opt f h l) = length l.
Proof. destruct h; cbn; [apply length_alter|done]. Qed.

Lemma sound_after_init props container el w :
  heap w !! container = Some (OElement el) → sound w →
  sound (after_init props container w).
Proof.
  intros Hel [(Ts & Tc & Tr & Tct & Tm & Tmx & Tro) Htidy].
  unfold after_init. set (n := length (heap w)). split.
  - unfold well_typed; cbn [scene camera renderer controls model mixer
                            resizeObserver heap].
    destruct (mixer w) as [mx|] eqn:Hmx, (resizeObserver w) as [o|] eqn:Ho;
      cbn [alter_opt].
    all: try (destruct (Tmx mx eq_refl) as [m0 Hm0]).
    all: repeat split; intros i Hi; try discriminate Hi; try injection Hi as <-.
    all: try (destruct (Tm _ Hi) as [g Hg]).
    all: try (eexists; solve_lookup).
    all: eexists _, _; (split; [solve_lookup|]); cbn [domElement]; solve_lookup.
  - cbn [heap]. apply Forall_app. split.
    + eapply Forall_impl.
      * destruct (mixer w), (resizeObserver w); cbn [alter_opt];
          repeat apply tidy_alter; try exact Htidy;
          intros []; cbn; first [done | reflexivity].
      * intros o. apply tidy_mono.
        rewrite length_app, !length_alter_opt, length_alter. fold n. lia.
    + repeat apply List.Forall_cons; try apply List.Forall_nil; intros s [= <-]; cbn.
      split.
      * repeat constructor; rewrite ?not_elem_of_cons; repeat split;
          try lia; apply not_elem_of_nil.
      * intros c.
        rewrite !elem_of_cons, elem_of_nil, length_app, !length_alter_opt,
          length_alter.
        fold n. cbn. lia.
Qed.

Lemma sound_after_load props clips i sc w :
  scene w = Some sc → sound w → sound (after_load props clips i sc w).
Proof.
  intros Hsc [(Ts & Tc & Tr & Tct & Tm & Tmx & Tro) Htidy].
  unfold after_load. set (n := length (heap w)). split.
  - unfold well_typed; cbn [scene camera renderer controls model mixer
                            resizeObserver heap].
    destruct (Ts sc Hsc) as [s Hs].
    repeat split; intros j Hj; try injection Hj as <-.
    + rewrite Hsc in Hj. injection Hj as <-. eexists. solve_lookup.
    + destruct (Tc _ Hj) as [c Hc]. eexists. solve_lookup.
    + destruct (Tr _ Hj) as (r & cv & Hr & Hcv).
      eexists _, _. split; solve_lookup.
    + destruct (Tct _ Hj) as [c Hc]. eexists. solve_lookup.
    + eexists. solve_lookup.
    + eexists. solve_lookup.
    + destruct (Tro _ Hj) as [o Ho]. eexists. solve_lookup.
  - cbn [heap]. rewrite length_app, length_alter. fold n. cbn [length].
    apply Forall_app. split; [|by repeat apply List.Forall_cons; try apply List.Forall_nil].
    apply Forall_alter.
    + eapply Forall_impl; [exact Htidy|]. intros o. apply tidy_mono. lia.
    + intros o Ho _ s' Hs'.
      pose proof (Forall_lookup_1 _ _ _ _ Htidy Ho) as Hbelow.
      destruct o as [s| | | | | | | | |]; try done. injection Hs' as <-.
      destruct (Hbelow s eq_refl) as [Hnodup Hlt]. fold n in Hlt. cbn. split.
      * apply NoDup_app. split; [done|]. split; [|apply NoDup_singleton].
        intros c Hc. rewrite list_elem_of_singleton. specialize (Hlt c Hc). lia.
      * intros c. rewrite elem_of_app, list_elem_of_singleton.
        intros [Hc| ->]; [specialize (Hlt c Hc)|]; lia.
Qed.

Lemma sound_after_late_load props i w :
  sound w → sound (after_late_load props i w).
Proof.
  intros [(Ts & Tc & Tr & Tct & Tm & Tmx & Tro) Htidy].
  unfold after_late_load. set (n := length (heap w)). split.
  - unfold well_typed; cbn [scene camera renderer controls model mixer
                            resizeObserver heap].
    repeat split; intros j Hj; try injection Hj as <-.
    + destruct (Ts _ Hj) as [c Hc]. eexists. solve_lookup.
    + destruct (Tc _ Hj) as [c Hc]. eexists. solve_lookup.
    + destruct (Tr _ Hj) as (r & cv & Hr & Hcv).
      eexists _, _. split; solve_lookup.
    + destruct (Tct _ Hj) as [c Hc]. eexists. solve_lookup.
    + eexists. solve_lookup.
    + destruct (Tmx _ Hj) as [c Hc]. eexists. solve_lookup.
    + destruct (Tro _ Hj) as [o Ho]. eexists. solve_lookup.
  - cbn [heap]. rewrite length_app. fold n. cbn [length].
    apply Forall_app. split; [|by repeat apply List.Forall_cons; try apply List.Forall_nil].
    eapply Forall_impl; [exact Htidy|]. intros o. apply tidy_mono. lia.
Qed.

Lemma sound_cleared w : sound w → sound (cleared w).
Proof.
  intros [(_ & _ & _ & _ & _ & _ & Tro) Htidy]. split; [|exact Htidy].
  unfold well_typed, cleared; cbn. by repeat split.
Qed.

Lemma sound_step c w :
  admissible c w → sound w → sound (world_of (perform c w)).
Proof.
  intros Hadm Hw.
  pose proof (same_handles_step c w) as Hsame.
  destruct c as [props container| | | |i gltf| | |]; cbn [perform] in *.
  - destruct Hadm as [el Hel]. rewrite (init_returns props container el) by done.
    by eapply sound_after_init.
  - eapply sound_quiet; [done| |done]. apply evolves_modelPathstate.
  - eapply sound_quiet; [done| |done]. apply evolves_clearCurrentModel.
  - rewrite allDestroyed_split.
    pose proof (same_handles_teardown w) as Ht.
    pose proof (evolves_teardown w) as He.
    destruct (teardown w) as [[] w1|w1]; cbn in *.
    + apply sound_cleared. by eapply sound_quiet.
    + by eapply sound_quiet.
  - destruct (loading w !! i) as [req|] eqn:Hreq.
    + destruct (scene w) as [sc|] eqn:Hsc.
      * rewrite (resolve_load_returns i gltf w req sc) by done.
        by apply sound_after_load.
      * rewrite (resolve_load_throws i gltf w req) by done.
        by apply sound_after_late_load.
    + unfold resolve_load. by rewrite Hreq.
  - eapply sound_quiet; [done| |done]. apply evolves_frame.
  - eapply sound_quiet; [done| |done]. apply evolves_layout.
  - eapply sound_quiet; [done| |done]. apply evolves_notify_resize.
Qed.

Lemma reachable_sound w : reachable w → sound w.
Proof.
  induction 1 as [w (Hs&Hc&Hr&Hct&Hm&Hmx&Hro&_&_&Hel)|c w _ IH Hadm].
  - split.
    + unfold well_typed. rewrite Hs, Hc, Hr, Hct, Hm, Hmx, Hro.
      by repeat split.
    + eapply Forall_impl; [exact Hel|].
      intros o [e He] s ->. discriminate He.
  - by apply sound_step.
Qed.

(** * Teardown *)

Lemma allDestroyed_handles w w' :
  allDestroyed w = Normal tt w' →
  scene w' = None ∧ camera w' = None ∧ renderer w' = None ∧
  controls w' = None ∧ model w' = None ∧ mixer w' = None ∧
  resizeObserver w' = resizeObserver w.
Proof.
  rewrite allDestroyed_split. pose proof (same_handles_teardown w) as Hsame.
  destruct (teardown w) as [[] w1|w1]; [|done]. intros [= <-].
  destruct Hsame as (_&_&_&_&_&_&Hro). by repeat split.
Qed.

(** [allDestroyed] returns when no model is left without a scene and the
    renderer owns a canvas, and then has released what the handles refer
    to. *)
Lemma allDestroyed_returns w :
  model w = None ∨ is_Some (scene w) →
  (∀ r, renderer w = Some r →
     ∃ ro cv, heap w !! r = Some (ORenderer ro) ∧
              heap w !! domElement ro = Some (OCanvas cv)) →
  ∃ w', allDestroyed w = Normal tt w' ∧
    (∀ o ob, resizeObserver w = Some o → heap w !! o = Some (OObserver ob) →
       heap w' !! o = Some (OObserver {| callback := callback ob; observing := [] |})) ∧
    (∀ c k, controls w = Some c → heap w !! c = Some (OControls k) →
       heap w' !! c = Some (OControls (controls_dispose k))) ∧
    (∀ r ro, renderer w = Some r → heap w !! r = Some (ORenderer ro) →
       heap w' !! r = Some (ORenderer (forceContextLoss (renderer_dispose ro))) ∧
       heap w' !! domElement ro = Some (OCanvas {| parentNode := None |}) ∧
       ∀ cv p pe, heap w !! domElement ro = Some (OCanvas cv) →
         parentNode cv = Some p → heap w !! p = Some (OElement pe) →
         heap w' !! p =
           Some (OElement (set_childNodes (remove_first (domElement ro)) pe))).
Proof.
  intros Hmodel Htyped.
  destruct w as [s0 c0 r0 ct0 m0 mx0 ro0 h dpr ld fr]. cbn in * |-.
  assert (m0 = None ∨ ∃ sc, s0 = Some sc) as Hm
    by (destruct Hmodel as [?|[sc ?]]; eauto).
  clear Hmodel. unfold allDestroyed.
  destruct r0 as [r|].
  - destruct (Htyped r eq_refl) as (ro & [[p|]] & Hro & Hcv); clear Htyped.
    all: destruct Hm as [->|[sc ->]]; [|destruct m0 as [m|]].
    all: destruct ro0 as [o|], mx0 as [mx|], ct0 as [ctl|].
    all: eexists; (split; [run|]); wsimpl.
    all: split; [intros; simplify_eq; solve_lookup|].
    all: split; [intros; simplify_eq; solve_lookup|].
    all: intros; simplify_eq.
    all: split; [solve_lookup|]; split; [solve_lookup|].
    all: intros; simplify_eq/=; solve_lookup.
  - clear Htyped.
    destruct Hm as [->|[sc ->]]; [|destruct m0 as [m|]].
    all: destruct ro0 as [o|], mx0 as [mx|], ct0 as [ctl|].
    all: eexists; (split; [run|]); wsimpl.
    all: split; [intros; simplify_eq; solve_lookup|].
    all: split; [intros; simplify_eq; solve_lookup|].
    all: intros; simplify_eq.
Qed.

(** [allDestroyed] stops at [scene.remove] when a model is left without a
    scene. *)
Lemma allDestroyed_needs_scene w w' :
  allDestroyed w = Normal tt w' → model w = None ∨ is_Some (scene w).
Proof.
  intros Hrun. destruct (model w) as [m|] eqn:Hm; [|by left].
  destruct (scene w) as [sc|] eqn:Hsc; [right; by eexists|]. exfalso.
  rewrite allDestroyed_split in Hrun. unfold teardown in Hrun.
  assert (∃ w1, when resizeObserver (λ o, update o (on_observer disconnect)) w
                = Normal tt w1 ∧ model w1 = Some m ∧ scene w1 = None)
    as (w1 & Hw1 & Hm1 & Hsc1).
  { unfold when. destruct (resizeObserver w); eexists; (split; [reflexivity|]); by cbn. }
  unfold mbind, Js_bind in Hrun. rewrite Hw1 in Hrun.
  rewrite (clearCurrentModel_throws w1 m) in Hrun by done. discriminate Hrun.
Qed.

(** C2 (amended).  In a reachable state, [allDestroyed] returns unless a
    model is left without a scene, and after it has returned: the handles
    [scene], [camera], [renderer], [controls], [model] and [mixer] are
    undefined and [resizeObserver] is the handle it was; the observer is
    disconnected, the controller disposed, the renderer disposed with its
    context lost, and the canvas without a parent and taken out of the
    children of the element that held it. *)
Theorem allDestroyed_clears w :
  reachable w →
  (model w = None ∨ is_Some (scene w) → ∃ w', allDestroyed w = Normal tt w') ∧
  ∀ w', allDestroyed w = Normal tt w' →
    (scene w' = None ∧ camera w' = None ∧ renderer w' = None ∧
     controls w' = None ∧ model w' = None ∧ mixer w' = None ∧
     resizeObserver w' = resizeObserver w) ∧
    (∀ o, resizeObserver w = Some o →
       ∃ ob, heap w !! o = Some (OObserver ob) ∧
             heap w' !! o = Some (OObserver {| callback := callback ob;
                                               observing := [] |})) ∧
    (∀ c, controls w = Some c →
       ∃ k k', heap w !! c = Some (OControls k) ∧
               heap w' !! c = Some (OControls k') ∧ connected k' = false) ∧
    (∀ r, renderer w = Some r →
       ∃ ro ro' cv,
         heap w !! r = Some (ORenderer ro) ∧
         heap w' !! r = Some (ORenderer ro') ∧
         disposed ro' = true ∧ contextLost ro' = true ∧
         domElement ro' = domElement ro ∧
         heap w !! domElement ro = Some (OCanvas cv) ∧
         heap w' !! domElement ro = Some (OCanvas {| parentNode := None |}) ∧
         ∀ p pe, parentNode cv = Some p → heap w !! p = Some (OElement pe) →
           heap w' !! p =
             Some (OElement (set_childNodes (remove_first (domElement ro)) pe))).
Proof.
  intros Hw.
  destruct (reachable_sound w Hw) as [(_ & _ & Tr & Tct & _ & _ & Tro) _].
  split.
  { intros Hmodel.
    destruct (allDestroyed_returns w Hmodel Tr) as (w' & Hrun & _). by exists w'. }
  intros w' Hrun. split; [by apply allDestroyed_handles|].
  destruct (allDestroyed_returns w (allDestroyed_needs_scene w w' Hrun) Tr)
    as (w'' & Hrun' & Hobs & Hctl & Hren).
  rewrite Hrun in Hrun'. injection Hrun' as <-.
  split; [|split].
  - intros o Ho. destruct (Tro o Ho) as [ob Hob]. exists ob. eauto.
  - intros c Hc. destruct (Tct c Hc) as [k Hk].
    exists k, (controls_dispose k). eauto.
  - intros r Hr. destruct (Tr r Hr) as (ro & cv & Hro & Hcv).
    destruct (Hren r ro Hr Hro) as (Hro' & Hcv' & Hparent).
    exists ro, (forceContextLoss (renderer_dispose ro)), cv.
    repeat split; try done. intros p pe. by apply Hparent.
Qed.

Lemma allDestroyed_clears_witness :
  reachable showing ∧
  ∃ w', allDestroyed showing = Normal tt w' ∧
    scene w' = None ∧ camera w' = None ∧ renderer w' = None ∧
    controls w' = None ∧ model w' = None ∧ mixer w' = None ∧
    resizeObserver w' = Some 8 ∧
    heap w' !! 8 = Some (OObserver {| callback := 0; observing := [] |}) ∧
    heap w' !! 3 = Some (OCanvas {| parentNode := None |}) ∧
    heap w' !! 0 = Some (OElement {| clientWidth := 400; clientHeight := 300;
                                     childNodes := [] |}).
Proof.
  split; [exact reachable_showing|].
  destruct (allDestroyed_clears showing reachable_showing) as [Hreturns Hcleared].
  destruct Hreturns as [w' Hrun]; [right; by eexists|].
  destruct (Hcleared w' Hrun) as ((?&?&?&?&?&?&?) & Hobs & _ & Hren).
  destruct (Hobs 8 eq_refl) as (ob & Hob & Hob').
  injection Hob as <-.
  destruct (Hren 4 eq_refl) as (ro & ro' & cv & Hro & _ & _ & _ & _ & Hcv & Hcv' & Hparent).
  injection Hro as <-. injection Hcv as <-.
  exists w'. repeat split; try assumption.
  by apply (Hparent 0 {| clientWidth := 400; clientHeight := 300; childNodes := [3] |}).
Defined.

(** C2 as stated fails: [allDestroyed] returns and the resize-observer handle
    still refers to the (disconnected) observer. *)
Lemma allDestroyed_keeps_resizeObserver :
  allDestroyed started = Normal tt torn_down ∧
  resizeObserver torn_down = Some 8 ∧
  ¬ all_undefined torn_down.
Proof.
  split; [reflexivity|]. split; [reflexivity|].
  intros (_&_&_&_&_&_&Hro). discriminate Hro.
Qed.

(** * The render loop after teardown *)

(** C5.  A tick with the controller, the scene or the camera undefined
    returns normally and changes nothing: no frame is requested.  So once
    [allDestroyed] has returned, the ticks still scheduled run without
    scheduling another, and after as many frames as were pending none is.
    In a reachable state with the three handles defined, a tick requests
    the next frame, makes the controller take one damping step, advances the
    mixer, if there is one, by 0.016, and renders scene and camera. *)
Theorem render_loop_tick w :
  (controls w = None ∨ scene w = None ∨ camera w = None →
   animate w = Normal tt w) ∧
  (∀ w', allDestroyed w = Normal tt w' →
     ∀ k, ∃ w'', frames k w' = Normal tt w'' ∧
       animationFrames w'' = animationFrames w' - k ∧
       same_handles w' w'' ∧ heap w'' = heap w' ∧ loading w'' = loading w') ∧
  (∀ ctl sc cam,
     reachable w →
     controls w = Some ctl → scene w = Some sc → camera w = Some cam →
     ∃ w' r,
       animate w = Normal tt w' ∧ renderer w = Some r ∧
       animationFrames w' = S (animationFrames w) ∧ same_handles w w' ∧
       (∀ k, heap w !! ctl = Some (OControls k) →
          ∃ k', heap w' !! ctl = Some (OControls k') ∧
                updates k' = S (updates k) ∧ target k' = target k) ∧
       (∀ mx m, mixer w = Some mx → heap w !! mx = Some (OMixer m) →
          ∃ m', heap w' !! mx = Some (OMixer m') ∧
                time m' = (time m + 0.016)%float ∧ actions m' = actions m) ∧
       (∀ ro, heap w !! r = Some (ORenderer ro) →
          ∃ ro', heap w' !! r = Some (ORenderer ro') ∧
                 rendered ro' = rendered ro ++ [(sc, cam)])).
Proof.
  split; [apply animate_idle|]. split.
  - intros w' Hrun k.
    apply allDestroyed_handles in Hrun as (_&_&_&Hctl&_).
    exists (set_animationFrames (λ n, n - k) w').
    split; [by apply frames_idle|]. by repeat split.
  - intros ctl sc cam Hreach Hctl Hsc Hcam.
    destruct (reachable_sound w Hreach) as [(_ & _ & _ & Tct & _) _].
    destruct (Tct ctl Hctl) as [k0 Hk0].
    apply reachable_lifecycle in Hreach as [(_&_&[r Hr]&_)|(Hnone&_)];
      [|congruence].
    destruct w as [s0 c0 r0 ct0 m0 mx0 ro0 h dpr ld fr]. cbn in * |-. subst.
    destruct mx0 as [mx|].
    all: eexists _, r; (split; [run|]); wsimpl.
    all: do 3 (split; [done|]).
    all: split; [intros k Hk; eexists; split; [solve_lookup|by split]|].
    all: split; [intros mx' m Hmx Hm; simplify_eq;
                 (eexists; split; [solve_lookup|by split])|].
    all: intros ro Hro; eexists; split; [solve_lookup|done].
Qed.

Lemma render_loop_tick_witness :
  reachable showing ∧
  ∃ w', animate showing = Normal tt w' ∧
    animationFrames w' = 2 ∧
    (∃ m, heap w' !! 10 = Some (OMixer m) ∧ time m = 0.016%float) ∧
    (∃ ro, heap w' !! 4 = Some (ORenderer ro) ∧ rendered ro = [(1, 2); (1, 2)]).
Proof.
  split; [exact reachable_showing|].
  destruct (render_loop_tick showing) as (_ & _ & Htick).
  destruct (Htick 5 1 2 reachable_showing eq_refl eq_refl eq_refl)
    as (w' & r & Hrun & Hr & Hfr & _ & _ & Hmx & Hro).
  injection Hr as <-.
  destruct (Hmx 10 _ eq_refl eq_refl) as (m' & Hm' & Htime & _).
  destruct (Hro _ eq_refl) as (ro' & Hro' & Hrendered).
  exists w'. repeat split; try assumption.
  - by exists m'.
  - by exists ro'.
Defined.

(** * The handles between two calls *)

(** C8 (amended).  In every reachable state the handles follow
    [lifecycle]: scene, camera, renderer and controller are all defined or
    all undefined; while they are defined so is the resize observer, and
    the mixer only if the model is; while they are undefined so is the
    mixer. *)
Theorem handles_lifecycle w : reachable w → lifecycle w.
Proof.
  induction 1 as [w Hfresh|c w _ IH Hadm].
  - destruct Hfresh as (Hs & Hc & Hr & Hct & _ & Hmx & _).
    right. by repeat split.
  - destruct c; by apply lifecycle_step.
Qed.

Lemma handles_lifecycle_witness : reachable showing ∧ lifecycle showing.
Proof.
  split; [exact reachable_showing|]. exact (handles_lifecycle showing reachable_showing).
Defined.

(** C8 as stated fails: between [init] and the completion of the load the
    model and the mixer are undefined while the other five handles are
    defined; after [allDestroyed] the resize observer is defined while the
    other six are not. *)
Lemma handles_neither_all_nor_none :
  (reachable started ∧ ¬ (all_defined started ∨ all_undefined started)) ∧
  (reachable torn_down ∧ ¬ (all_defined torn_down ∨ all_undefined torn_down)).
Proof.
  split; (split; [first [exact reachable_started | exact reachable_torn_down]|]).
  - intros [(_&_&_&_&[? Hm]&_)|(Hs&_)]; discriminate.
  - intros [([? Hs]&_)|(_&_&_&_&_&_&Hro)]; discriminate.
Qed.

(** * [clearCurrentModel] between calls *)

Lemma NoDup_scene w sc s :
  reachable w → heap w !! sc = Some (OScene s) → NoDup (children s).
Proof.
  intros Hw Hs. apply reachable_sound in Hw as [_ Htidy].
  by destruct (Forall_lookup_1 _ _ _ _ Htidy Hs s eq_refl).
Qed.

(** C4.  [clearCurrentModel] is idempotent.  With no model loaded it returns
    normally and changes nothing.  In every reachable state a second call
    completes as the first did and leaves the world the first left, both as
    a call of its own and as the next statement of the same caller; and with
    a model loaded and a scene, one call returns normally with the model
    gone from the scene's children, and a second call returns normally
    without any further change. *)
Theorem clearCurrentModel_idempotent w :
  (model w = None → clearCurrentModel w = Normal tt w) ∧
  (reachable w →
   clearCurrentModel (world_of (clearCurrentModel w)) = clearCurrentModel w ∧
   (clearCurrentModel ≫= (λ _, clearCurrentModel)) w = clearCurrentModel w ∧
   ∀ m sc, model w = Some m → scene w = Some sc →
     ∃ w' s, clearCurrentModel w = Normal tt w' ∧
             heap w !! sc = Some (OScene s) ∧
             heap w' !! sc = Some (OScene (Object3D_remove m s)) ∧
             (m ∉ children (Object3D_remove m s)) ∧
             clearCurrentModel w' = Normal tt w').
Proof.
  split; [apply clearCurrentModel_idle|]. intros Hw.
  destruct (clearCurrentModel_twice w) as (Hagain & Htwice & _ & Hclear).
  { intros sc s _. by apply NoDup_scene. }
  split; [exact Hagain|]. split; [exact Htwice|]. intros m sc Hm Hsc.
  destruct (reachable_sound w Hw) as [(Ts & _) _].
  destruct (Ts sc Hsc) as [s Hs].
  destruct (Hclear m sc s Hm Hsc Hs) as (w' & ? & ? & ? & ?).
  by exists w', s.
Qed.

Lemma clearCurrentModel_idempotent_witness :
  reachable showing ∧
  ∃ w', clearCurrentModel showing = Normal tt w' ∧
        (clearCurrentModel ≫= (λ _, clearCurrentModel)) showing = Normal tt w' ∧
        heap w' !! 1 = Some (OScene {| background := None; children := [6; 7] |}).
Proof.
  split; [exact reachable_showing|].
  destruct (clearCurrentModel_idempotent showing) as (_ & Hreach).
  destruct (Hreach reachable_showing) as (_ & Htwice & Hclear).
  destruct (Hclear 9 1 eq_refl eq_refl) as (w' & s & Hrun & Hs & Hs' & _).
  injection Hs as <-.
  exists w'. split; [done|]. split; [by rewrite Htwice|done].
Defined.

(** C9.  [clearCurrentModel] changes no handle, however it completes.  In a
    reachable state with a model loaded and a scene, it returns with the
    model handle still referring to the subtree, now absent from the scene's
    children, and with the mixer handle unchanged; a second call takes the
    [if (model)] branch again, on that same subtree.  Every step other than
    [allDestroyed] keeps a defined model and a defined mixer defined, and
    [allDestroyed], when it returns, leaves both undefined. *)
Theorem clearCurrentModel_keeps_handles :
  (∀ w, same_handles w (world_of (clearCurrentModel w))) ∧
  (∀ w m sc,
     reachable w → model w = Some m → scene w = Some sc →
     ∃ w' s, clearCurrentModel w = Normal tt w' ∧
             model w' = Some m ∧ mixer w' = mixer w ∧
             heap w !! sc = Some (OScene s) ∧
             heap w' !! sc = Some (OScene (Object3D_remove m s)) ∧
             (m ∉ children (Object3D_remove m s)) ∧
             clearCurrentModel w' = release m w') ∧
  (∀ c w, c ≠ AllDestroyed → keeps_loaded w (world_of (perform c w))) ∧
  (∀ w w', allDestroyed w = Normal tt w' → model w' = None ∧ mixer w' = None).
Proof.
  split; [|split; [|split]].
  - intros w. exact (same_handles_step ClearCurrentModel w).
  - intros w m sc Hw Hm Hsc.
    destruct (reachable_sound w Hw) as [(Ts & _) _].
    destruct (Ts sc Hsc) as [s Hs].
    exists (set_heap (λ _, detached m sc w) w), s.
    split; [by apply clearCurrentModel_returns|].
    split; [done|]. split; [done|]. split; [done|]. split; [|split].
    + unfold detached, silenced; cbn [heap set_heap].
      destruct (mixer w) as [mx|]; cbn [alter_opt]; solve_lookup.
    + apply remove_first_NoDup. by eapply NoDup_scene.
    + unfold clearCurrentModel, when. cbn [model set_heap]. by rewrite Hm.
  - apply keeps_loaded_step.
  - intros w w' Hrun. by apply allDestroyed_handles in Hrun as (_&_&_&_&?&?&_).
Qed.

Lemma clearCurrentModel_keeps_handles_witness :
  reachable showing ∧
  ∃ w', clearCurrentModel showing = Normal tt w' ∧
        model w' = Some 9 ∧ mixer w' = Some 10 ∧
        heap w' !! 1 = Some (OScene {| background := None; children := [6; 7] |}) ∧
        clearCurrentModel w' = release 9 w'.
Proof.
  split; [exact reachable_showing|].
  destruct clearCurrentModel_keeps_handles as (_ & Hclear & _).
  destruct (Hclear showing 9 1 reachable_showing eq_refl eq_refl)
    as (w' & s & Hrun & Hm & Hmx & Hs & Hs' & _ & Hagain).
  injection Hs as <-.
  exists w'. by repeat split.
Defined.

(** * [init] at its edges *)

Lemma lookup_app_no_element (H L : list Obj) i :
  H !! i ≫= as_element = None → Forall (λ o, as_element o = None) L →
  (H ++ L) !! i ≫= as_element = None.
Proof.
  intros Hi HL. destruct (decide (i < length H)) as [Hlt|Hge].
  - by rewrite lookup_app_l.
  - rewrite lookup_app_r by lia.
    destruct (L !! (i - length H)) as [o|] eqn:Ho; [|done]. cbn.
    by eapply (Forall_lookup_1 _ _ _ _ HL).
Qed.

Lemma init_stops props container w :
  heap w !! container ≫= as_element = None →
  init props container w = TypeError (after_failed_init props w).
Proof.
  intros Hc. destruct w as [s0 c0 r0 ct0 m0 mx0 ro0 h dpr ld fr].
  cbn in Hc. unfold after_failed_init; wsimpl.
  rewrite <- (app_nil_r h) at 1.
  unfold init.
  do 6 (eapply run_bind; [run|cbv beta]).
  apply run_bind_throw.
  unfold via at 1; wsimpl; cbv beta iota.
  eapply run_bind; [run|cbv beta].
  unfold appendChild. apply run_bind_throw.
  unfold field; wsimpl.
  rewrite lookup_app_no_element; [reflexivity|done|by repeat constructor].
Qed.

(** X1.  Given a container that is no element of the document (a [null]
    from a failed lookup, say), [init] stops with a [TypeError] at
    [container.appendChild]: the scene, still empty, the camera and the
    renderer are created and assigned, while no controller, no observer, no
    load and no frame have been set up, and no earlier object is changed. *)
Theorem init_without_element props container w :
  heap w !! container ≫= as_element = None →
  ∃ w' sc cam r,
    init props container w = TypeError w' ∧
    scene w' = Some sc ∧ camera w' = Some cam ∧ renderer w' = Some r ∧
    heap w' !! sc = Some (OScene {| background := None; children := [] |}) ∧
    (∃ c, heap w' !! cam = Some (OCamera c)) ∧
    (∃ ro, heap w' !! r = Some (ORenderer ro) ∧
           heap w' !! domElement ro = Some (OCanvas {| parentNode := None |})) ∧
    controls w' = controls w ∧ resizeObserver w' = resizeObserver w ∧
    model w' = model w ∧ mixer w' = mixer w ∧
    loading w' = loading w ∧ animationFrames w' = animationFrames w ∧
    (∀ i o, heap w !! i = Some o → heap w' !! i = Some o).
Proof.
  intros Hc. set (n := length (heap w)).
  exists (after_failed_init props w), (n + 0), (n + 1), (n + 3).
  split; [by apply init_stops|].
  unfold after_failed_init; cbn [scene camera renderer controls model mixer
    resizeObserver loading animationFrames heap]. fold n.
  do 3 (split; [reflexivity|]).
  split; [solve_lookup|].
  split; [eexists; solve_lookup|].
  split; [eexists; split; [solve_lookup|cbn [domElement]; solve_lookup]|].
  do 6 (split; [reflexivity|]).
  intros i o Hi. by apply lookup_app_l_Some.
Qed.

Lemma init_without_element_witness :
  heap page !! 5 ≫= as_element = None ∧
  ∃ w', init cfg 5 page = TypeError w' ∧
        is_Some (scene w') ∧ controls w' = None ∧
        loading w' = [] ∧ animationFrames w' = 0.
Proof.
  split; [reflexivity|].
  destruct (init_without_element cfg 5 page eq_refl)
    as (w' & sc & cam & r & Hrun & Hsc & _ & _ & _ & _ & _ & Hctl & _ & _ & _ & Hld & Hfr & _).
  exists w'. split; [exact Hrun|]. split; [by eexists|]. by repeat split.
Defined.

Lemma lookup_after_init props container w i o :
  heap w !! i = Some o →
  heap (after_init props container w) !! i =
  Some (match mixer w with
        | Some mx => at_address (on_mixer (mixer_update 0.016)) mx i
        | None => id
        end
          (match resizeObserver w with
           | Some ro => at_address (on_observer disconnect) ro i
           | None => id
           end
             (at_address (on_element (set_childNodes (λ l, l ++ [length (heap w) + 2])))
                container i o))).
Proof.
  intros Hi. unfold after_init; cbn [heap].
  rewrite lookup_app_l.
  2:{ rewrite !length_alter_opt, length_alter. by eapply lookup_lt_Some. }
  rewrite !lookup_alter_opt_at, lookup_alter_at, Hi. cbn.
  by destruct (mixer w), (resizeObserver w).
Qed.

(** X2.  [init] releases nothing.  Of the objects that exist when it is
    called it changes the container (one more child), the observer of the
    earlier handle (disconnected) and the mixer of the earlier handle
    (advanced by the first tick); every renderer and every canvas is as it
    was, so an earlier renderer is not disposed and its canvas keeps its
    place in the document; the renderer handle moves on to a new object, and
    the model and mixer handles keep their earlier values. *)
Theorem init_releases_nothing props container el w :
  heap w !! container = Some (OElement el) →
  ∃ w' r,
    init props container w = Normal tt w' ∧
    renderer w' = Some r ∧ heap w !! r = None ∧
    model w' = model w ∧ mixer w' = mixer w ∧
    (∀ i o, heap w !! i = Some o →
       i ≠ container → resizeObserver w ≠ Some i → mixer w ≠ Some i →
       heap w' !! i = Some o) ∧
    (∀ i ro, heap w !! i = Some (ORenderer ro) → heap w' !! i = Some (ORenderer ro)) ∧
    (∀ i cv, heap w !! i = Some (OCanvas cv) → heap w' !! i = Some (OCanvas cv)) ∧
    (∀ p pe, heap w !! p = Some (OElement pe) →
       ∃ pe', heap w' !! p = Some (OElement pe') ∧
              childNodes pe `prefix_of` childNodes pe').
Proof.
  intros Hc. exists (after_init props container w), (length (heap w) + 3).
  split; [by eapply init_returns|].
  split; [reflexivity|]. split; [apply lookup_ge_None; lia|].
  split; [reflexivity|]. split; [reflexivity|].
  split; [|split; [|split]].
  - intros i o Hi Hcont Hobs Hmx. rewrite (lookup_after_init _ _ _ _ _ Hi).
    unfold at_address. rewrite (decide_False (P := container = i)) by done.
    destruct (mixer w) as [mx|], (resizeObserver w) as [ro|]; cbn;
      repeat case_decide; congruence.
  - intros i ro Hi. rewrite (lookup_after_init _ _ _ _ _ Hi).
    unfold at_address.
    destruct (mixer w) as [mx|], (resizeObserver w) as [o|]; cbn;
      repeat case_decide; reflexivity.
  - intros i cv Hi. rewrite (lookup_after_init _ _ _ _ _ Hi).
    unfold at_address.
    destruct (mixer w) as [mx|], (resizeObserver w) as [o|]; cbn;
      repeat case_decide; reflexivity.
  - intros p pe Hp. rewrite (lookup_after_init _ _ _ _ _ Hp).
    unfold at_address.
    destruct (mixer w) as [mx|], (resizeObserver w) as [o|]; cbn;
      repeat case_decide; cbn; eexists; (split; [reflexivity|]); cbn;
      first [done | by apply prefix_app_r].
Qed.

Lemma init_releases_nothing_witness :
  heap showing !! 0 = Some (OElement {| clientWidth := 400; clientHeight := 300;
                                        childNodes := [3] |}) ∧
  ∃ w', init cfg 0 showing = Normal tt w' ∧
    renderer showing = Some 4 ∧ renderer w' ≠ Some 4 ∧
    (∃ ro, heap w' !! 4 = Some (ORenderer ro) ∧ disposed ro = false) ∧
    heap w' !! 3 = Some (OCanvas {| parentNode := Some 0 |}) ∧
    (∃ pe', heap w' !! 0 = Some (OElement pe') ∧ [3] `prefix_of` childNodes pe').
Proof.
  split; [reflexivity|].
  destruct (init_releases_nothing cfg 0 _ showing eq_refl)
    as (w' & r & Hrun & Hr & Hnew & _ & _ & _ & Hren & Hcv & Hel).
  exists w'. split; [exact Hrun|]. split; [reflexivity|].
  split.
  { rewrite Hr. intros [= ->]. discriminate Hnew. }
  split; [eexists; split; [by apply Hren|reflexivity]|].
  split; [by apply Hcv|].
  by apply (Hel 0 {| clientWidth := 400; clientHeight := 300; childNodes := [3] |}).
Defined.

(** * The resize observer *)

Lemma initResizeObserver_returns containerElement w :
  initResizeObserver containerElement w
  = Normal tt (after_initResizeObserver containerElement w).
Proof.
  destruct w as [s0 c0 r0 ct0 m0 mx0 ro0 h dpr ld fr].
  unfold after_initResizeObserver, initResizeObserver; wsimpl.
  eapply run_bind.
  { instantiate (1 := {| scene := s0; camera := c0; renderer := r0; controls := ct0;
                         model := m0; mixer := mx0; resizeObserver := ro0;
                         heap := alter_opt (on_observer disconnect) ro0 h;
                         devicePixelRatio := dpr; loading := ld;
                         animationFrames := fr |}).
    instantiate (1 := tt). by destruct ro0. }
  cbv beta. eapply run_bind.
  { eapply run_bind; [reflexivity|]. reflexivity. }
  cbv beta. unfold reading; wsimpl. rewrite length_alter_opt.
  assert ((alter_opt (on_observer disconnect) ro0 h
           ++ [OObserver (new_ResizeObserver containerElement)]) !! containerElement
            ≫= as_element = h !! containerElement ≫= as_element) as ->.
  { destruct (decide (containerElement < length h)) as [Hlt|Hge].
    - rewrite lookup_app_l by (by rewrite length_alter_opt).
      rewrite lookup_alter_opt_at.
      destruct (h !! containerElement) as [o|]; [|done]. cbn.
      destruct ro0 as [ro|]; [|done]. unfold at_address.
      case_decide; by destruct o.
    - rewrite (lookup_ge_None_2 h) by lia.
      rewrite lookup_app_r by (rewrite length_alter_opt; lia).
      rewrite length_alter_opt.
      by destruct (containerElement - length h) as [|[|k]]. }
  destruct (h !! containerElement ≫= as_element) as [el|]; [|reflexivity].
  unfold via, update, modify; wsimpl. do 2 f_equal.
  rewrite <- (length_alter_opt (on_observer disconnect) ro0 h) at 1.
  rewrite <- (Nat.add_0_r (length (alter_opt _ ro0 h))).
  by rewrite alter_app_r.
Qed.

(** X3.  [initResizeObserver] always returns.  It leaves the handle on a
    new observer whose callback is bound to the container and which
    observes the container if that is an element and nothing otherwise; the
    observer of the earlier handle, if there was one, observes nothing any
    more; every other object, every other handle, the loads in flight and
    the scheduled frames are as they were. *)
Theorem initResizeObserver_replaces containerElement w :
  ∃ w' o ob,
    initResizeObserver containerElement w = Normal tt w' ∧
    heap w !! o = None ∧ resizeObserver w' = Some o ∧
    heap w' !! o = Some (OObserver ob) ∧ callback ob = containerElement ∧
    (is_Some (heap w !! containerElement ≫= as_element) →
       observing ob = [containerElement]) ∧
    (heap w !! containerElement ≫= as_element = None → observing ob = []) ∧
    (∀ o0 ob0, resizeObserver w = Some o0 → heap w !! o0 = Some (OObserver ob0) →
       heap w' !! o0 = Some (OObserver {| callback := callback ob0; observing := [] |})) ∧
    (∀ i x, heap w !! i = Some x → resizeObserver w ≠ Some i → heap w' !! i = Some x) ∧
    scene w' = scene w ∧ camera w' = camera w ∧ renderer w' = renderer w ∧
    controls w' = controls w ∧ model w' = model w ∧ mixer w' = mixer w ∧
    loading w' = loading w ∧ animationFrames w' = animationFrames w.
Proof.
  eexists (after_initResizeObserver containerElement w), (length (heap w)), _.
  split; [apply initResizeObserver_returns|].
  split; [by apply lookup_ge_None|].
  unfold after_initResizeObserver; cbn.
  split; [reflexivity|]. split.
  { rewrite lookup_app_r by (by rewrite length_alter_opt).
    by rewrite length_alter_opt, Nat.sub_diag. }
  split; [reflexivity|]. cbn.
  split; [by intros [el ->]|]. split; [by intros ->|].
  split; [|split; [|done]].
  - intros o0 ob0 -> Ho0. cbn.
    rewrite lookup_app_l by (rewrite length_alter; by eapply lookup_lt_Some).
    by rewrite list_lookup_alter_eq, Ho0.
  - intros i x Hi Hne.
    rewrite lookup_app_l by (rewrite length_alter_opt; by eapply lookup_lt_Some).
    rewrite lookup_alter_opt_at, Hi. cbn. f_equal.
    destruct (resizeObserver w) as [ro|]; [|done].
    unfold at_address. rewrite decide_False; [done|congruence].
Qed.

(** * Scheduled frames and loads in flight along a step *)

#[global] Instance same_frames_preorder : PreOrder same_frames.
Proof.
  split; [by intros w|]. intros w1 w2 w3. unfold same_frames. congruence.
Qed.

#[global] Instance keeps_loading_preorder : PreOrder keeps_loading.
Proof.
  split; [intros w; by unfold keeps_loading|].
  intros w1 w2 w3. unfold keeps_loading. apply transitivity.
Qed.

(** Reduces [preserves R m] to the heap updates of [m], given that [R]
    relates a world to itself with another heap ([Hheap]). *)
Ltac keeping R Hheap :=
  repeat lazymatch goal with
    | |- preserves _ (OrbitControls_update _) => unfold OrbitControls_update
    | |- preserves _ (@mret _ _ _ _) => apply (preserves_ret R)
    | |- preserves _ (alloc _) => apply (preserves_alloc R Hheap)
    | |- preserves _ (update _ _) => apply (preserves_update R Hheap)
    | |- preserves _ (field _ _) => apply (preserves_field R)
    | |- preserves _ (@mbind _ _ _ _ _ _) => apply (preserves_bind R); [|intros ?]
    | |- preserves _ (via _ _) => apply (preserves_via R); intros ?
    | |- preserves _ (when _ _) => apply (preserves_when R); intros ?
    | |- preserves _ (reading _) => apply (preserves_reading R); intros ?
    | |- preserves _ (match _ with Some _ => _ | None => _ end) =>
        apply (preserves_option R); [intros ?|]
    end.

Lemma same_frames_heap f w : same_frames w (set_heap f w).
Proof. reflexivity. Qed.

Lemma same_frames_loading f w : same_frames w (set_loading f w).
Proof. reflexivity. Qed.

Lemma keeps_loading_heap f w : keeps_loading w (set_heap f w).
Proof. by unfold keeps_loading. Qed.

Lemma keeps_loading_frames f w : keeps_loading w (set_animationFrames f w).
Proof. by unfold keeps_loading. Qed.

Lemma keeps_loading_modelPathstate newPath oldPath props :
  preserves keeps_loading (modelPathstate newPath oldPath props).
Proof.
  intros w. unfold modelPathstate. destruct (_ && _ && _); [|reflexivity].
  revert w. apply (preserves_bind keeps_loading).
  { apply (preserves_clearCurrentModel keeps_loading keeps_loading_heap). }
  intros _. apply (preserves_bind keeps_loading).
  { intros w. by apply prefix_app_r. }
  intros _. apply (preserves_reading keeps_loading); intros w'.
  destruct (camera w'), (controls w'); keeping keeps_loading keeps_loading_heap.
Qed.

Lemma init_completes props container w :
  (∃ el, heap w !! container = Some (OElement el) ∧
         init props container w = Normal tt (after_init props container w)) ∨
  (heap w !! container ≫= as_element = None ∧
   init props container w = TypeError (after_failed_init props w)).
Proof.
  destruct (heap w !! container ≫= as_element) as [el|] eqn:Hc.
  - left. exists el.
    destruct (heap w !! container) as [[]|] eqn:Hel; simplify_eq/=.
    split; [done|]. by eapply init_returns.
  - right. split; [done|]. by apply init_stops.
Qed.

Lemma delete_absent {A} (l : list A) i : l !! i = None → delete i l = l.
Proof.
  revert i. induction l as [|a l IH]; intros [|i]; cbn; try done.
  intros Hi. by rewrite IH.
Qed.

Lemma resolve_load_completes i gltf w :
  (∃ req sc, loading w !! i = Some req ∧ scene w = Some sc ∧
     resolve_load i gltf w
     = Normal tt (after_load (closure req) (animations gltf) i sc w)) ∨
  (∃ req, loading w !! i = Some req ∧ scene w = None ∧
     resolve_load i gltf w = TypeError (after_late_load (closure req) i w)) ∨
  (loading w !! i = None ∧ resolve_load i gltf w = Normal tt w).
Proof.
  destruct (loading w !! i) as [req|] eqn:Hreq.
  - destruct (scene w) as [sc|] eqn:Hsc.
    + left. exists req, sc. by rewrite (resolve_load_returns i gltf w req sc).
    + right; left. exists req. by rewrite (resolve_load_throws i gltf w req).
  - right; right. split; [done|]. unfold resolve_load. by rewrite Hreq.
Qed.

Lemma allDestroyed_keeps_loading w : keeps_loading w (world_of (allDestroyed w)).
Proof.
  rewrite allDestroyed_split.
  pose proof (preserves_teardown keeps_loading keeps_loading_heap w) as Ht.
  by destruct (teardown w) as [[] w1|w1].
Qed.

(** X5.  No call cancels a load in flight.  The resolution of a load takes
    that load, and no other, off the list; every other call, however it
    completes, leaves the loads in flight where they are ([init] and a
    reloading [modelPathstate] put theirs behind them). *)
Theorem loads_never_cancelled c w :
  match c with
  | LoadResolved i _ => loading (world_of (perform c w)) = delete i (loading w)
  | _ => loading w `prefix_of` loading (world_of (perform c w))
  end.
Proof.
  destruct c as [props container|newPath oldPath props| | |i gltf| |e width height|o];
    cbn [perform].
  - destruct (init_completes props container w) as [(el & _ & ->)|[_ ->]]; cbn.
    + by apply prefix_app_r.
    + done.
  - apply keeps_loading_modelPathstate.
  - apply (preserves_clearCurrentModel keeps_loading keeps_loading_heap).
  - apply allDestroyed_keeps_loading.
  - destruct (resolve_load_completes i gltf w)
      as [(req & sc & _ & _ & ->)|[(req & _ & _ & ->)|[Hnone ->]]]; cbn; try done.
    symmetry. by apply delete_absent.
  - apply (preserves_frame keeps_loading keeps_loading_heap keeps_loading_frames).
  - apply (preserves_layout keeps_loading keeps_loading_heap).
  - apply (preserves_notify_resize keeps_loading keeps_loading_heap).
Qed.

(** * The render loop between teardown and the next [init] *)

(** With the viewer up, a frame runs one scheduled callback, which schedules
    one. *)
Lemma frame_up w ctl sc cam r n :
  controls w = Some ctl → scene w = Some sc → camera w = Some cam →
  renderer w = Some r → animationFrames w = S n →
  ∃ w', frame w = Normal tt w' ∧ animationFrames w' = S n.
Proof.
  destruct w as [s0 c0 r0 ct0 m0 mx0 ro0 h dpr ld fr]; cbn.
  intros -> -> -> -> ->. unfold frame; wsimpl.
  destruct (h !! ctl ≫= controlled) as [cam'|] eqn:Hk, mx0 as [mx|];
    (eexists; split; [run|reflexivity]).
Qed.

Lemma ticking_step c w :
  admissible c w → lifecycle w → ticking w → ticking (world_of (perform c w)).
Proof.
  intros Hadm Hlife Hw.
  pose proof (same_handles_step c w) as Hsame.
  destruct c as [props container|newPath oldPath props| | |i gltf| |e width height|o];
    cbn [perform] in *.
  - destruct Hadm as [el Hel]. rewrite (init_returns props container el) by done.
    intros _. cbn. lia.
  - destruct Hsame as (Hsc & _).
    pose proof (preserves_modelPathstate same_frames same_frames_heap
                  same_frames_loading newPath oldPath props w) as Hfr.
    unfold ticking. rewrite Hsc, Hfr. exact Hw.
  - destruct Hsame as (Hsc & _).
    pose proof (preserves_clearCurrentModel same_frames same_frames_heap w) as Hfr.
    unfold ticking. rewrite Hsc, Hfr. exact Hw.
  - rewrite allDestroyed_split.
    pose proof (same_handles_teardown w) as (Hsc & _).
    pose proof (preserves_teardown same_frames same_frames_heap w) as Hfr.
    destruct (teardown w) as [[] w1|w1]; cbn in *.
    + by intros [? [=]].
    + unfold ticking. rewrite Hsc, Hfr. exact Hw.
  - destruct (resolve_load_completes i gltf w)
      as [(req & sc & _ & _ & ->)|[(req & _ & _ & ->)|[_ ->]]]; cbn; exact Hw.
  - destruct Hsame as (Hsc & _). unfold ticking. rewrite Hsc. intros Hup.
    specialize (Hw Hup).
    destruct Hlife as [(_ & [cam Hcam] & [r Hr] & [ctl Hctl] & _)|(Hnone & _)].
    2:{ rewrite Hnone in Hup. by destruct Hup. }
    destruct Hup as [sc Hsc'].
    destruct (animationFrames w) as [|n] eqn:Hn; [lia|].
    destruct (frame_up w ctl sc cam r n) as (w' & Hrun & Hfr); try done.
    rewrite Hrun. cbn. lia.
  - destruct Hsame as (Hsc & _).
    pose proof (preserves_layout same_frames same_frames_heap e width height w) as Hfr.
    unfold ticking. rewrite Hsc, Hfr. exact Hw.
  - destruct Hsame as (Hsc & _).
    pose proof (preserves_notify_resize same_frames same_frames_heap o w) as Hfr.
    unfold ticking. rewrite Hsc, Hfr. exact Hw.
Qed.

Lemma reachable_ticking w : reachable w → ticking w.
Proof.
  induction 1 as [w (Hs&_)|c w Hw IH Hadm].
  - unfold ticking. rewrite Hs. by intros [? [=]].
  - apply ticking_step; [done| |done]. by apply reachable_lifecycle.
Qed.

(** Teardown keeps the kind of every object, and the elements in
    particular. *)
Lemma allDestroyed_keeps_element w container el :
  heap w !! container = Some (OElement el) →
  ∃ el', heap (world_of (allDestroyed w)) !! container = Some (OElement el').
Proof.
  intros Hel. rewrite allDestroyed_split.
  pose proof (evolves_teardown w) as Hev. unfold evolves in Hev.
  destruct (Forall2_lookup_l _ _ _ _ _ Hev Hel) as (o' & Ho' & Hf).
  destruct o'; try done.
  destruct (teardown w) as [[] w1|w1]; cbn in *; eauto.
Qed.

(** X4.  The render loop has no handle by which it could be cancelled.  In
    a state reached by calls in which [init] was only ever given an element
    of the document: while a scene exists at least one [animate] callback
    is scheduled and a frame leaves their number as it is; [init] on an
    element schedules one more, whatever is scheduled already, and
    [allDestroyed] takes none away.  So an [init] on an element that
    follows [allDestroyed] before the next frame, like one without
    [allDestroyed], leaves more than one loop running. *)
Theorem render_loop_persists w :
  reachable w →
  (is_Some (scene w) →
     0 < animationFrames w ∧
     animationFrames (world_of (frame w)) = animationFrames w) ∧
  (∀ props container el,
     heap w !! container = Some (OElement el) →
     animationFrames (world_of (init props container w)) = S (animationFrames w)) ∧
  animationFrames (world_of (allDestroyed w)) = animationFrames w ∧
  (∀ props container el,
     is_Some (scene w) → heap w !! container = Some (OElement el) →
     2 ≤ animationFrames (world_of (init props container (world_of (allDestroyed w))))).
Proof.
  intros Hw.
  assert (animationFrames (world_of (allDestroyed w)) = animationFrames w) as Hall.
  { rewrite allDestroyed_split.
    pose proof (preserves_teardown same_frames same_frames_heap w) as Hfr.
    by destruct (teardown w) as [[] w1|w1]. }
  assert (∀ props container el w0, heap w0 !! container = Some (OElement el) →
            animationFrames (world_of (init props container w0))
            = S (animationFrames w0)) as Hinit.
  { intros props container el w0 Hel.
    by rewrite (init_returns props container el). }
  split; [|split; [|split]].
  - intros Hup. pose proof (reachable_ticking w Hw Hup) as Hpos.
    split; [done|].
    destruct (reachable_lifecycle w Hw)
      as [(_ & [cam Hcam] & [r Hr] & [ctl Hctl] & _)|(Hnone & _)].
    2:{ rewrite Hnone in Hup. by destruct Hup. }
    destruct Hup as [sc Hsc].
    destruct (animationFrames w) as [|n] eqn:Hn; [lia|].
    destruct (frame_up w ctl sc cam r n) as (w' & Hrun & Hfr); try done.
    by rewrite Hrun.
  - intros props container el. apply Hinit.
  - exact Hall.
  - intros props container el Hup Hel.
    destruct (allDestroyed_keeps_element w container el Hel) as [el' Hel'].
    rewrite (Hinit props container el' _ Hel'), Hall.
    pose proof (reachable_ticking w Hw Hup). lia.
Qed.

Lemma render_loop_persists_witness :
  reachable started ∧
  animationFrames (world_of (frame started)) = 1 ∧
  animationFrames (world_of (init cfg 0 started)) = 2 ∧
  2 ≤ animationFrames (world_of (init cfg 0 (world_of (allDestroyed started)))).
Proof.
  split; [exact reachable_started|].
  destruct (render_loop_persists started reachable_started)
    as (Hframe & Hinit & _ & Hagain).
  split; [|split].
  - destruct Hframe as [_ ->]; [by eexists|reflexivity].
  - by rewrite (Hinit cfg 0 {| clientWidth := 400; clientHeight := 300;
                               childNodes := [3] |}).
  - apply (Hagain cfg 0 {| clientWidth := 400; clientHeight := 300;
                           childNodes := [3] |}); [by eexists|reflexivity].
Defined.

(** * Teardown at its edges *)

Lemma allDestroyed_stalls w m :
  model w = Some m → scene w = None → allDestroyed w = TypeError (stalled m w).
Proof.
  destruct w as [s0 c0 r0 ct0 m0 mx0 ro0 h dpr ld fr]; cbn.
  intros -> ->. by destruct ro0, mx0.
Qed.

Lemma disconnect_idemp ob : disconnect (disconnect ob) = disconnect ob.
Proof. done. Qed.

Lemma stalled_idemp m w : stalled m (stalled m w) = stalled m w.
Proof.
  destruct w as [s0 c0 r0 ct0 m0 mx0 ro0 h dpr ld fr].
  unfold stalled; cbn. f_equal.
  apply list_eq; intros j. rewrite !lookup_alter_opt_at.
  destruct (h !! j) as [o|]; cbn; [|done]. f_equal.
  unfold at_address.
  destruct mx0 as [mx|], ro0 as [ro|]; repeat case_decide; destruct o; cbn;
    try done; by rewrite silence_idemp.
Qed.

(** X7.  Once a model is left without a scene (a load resolved after
    teardown), neither [clearCurrentModel] nor [allDestroyed] gets through:
    both stop with a [TypeError] at [scene.remove].  [allDestroyed] has by
    then disconnected the observer and stopped the mixer, but disposed
    nothing and cleared no handle, so the model is still there without a
    scene and a further [allDestroyed] stops in the same way, changing
    nothing. *)
Theorem teardown_without_scene w m :
  model w = Some m → scene w = None →
  ∃ w1 w2,
    clearCurrentModel w = TypeError w1 ∧
    allDestroyed w = TypeError w2 ∧
    same_handles w w2 ∧
    (∀ i o, heap w !! i = Some o →
       resizeObserver w ≠ Some i → mixer w ≠ Some i → heap w2 !! i = Some o) ∧
    (∀ o ob, resizeObserver w = Some o → heap w !! o = Some (OObserver ob) →
       heap w2 !! o = Some (OObserver {| callback := callback ob; observing := [] |})) ∧
    allDestroyed w2 = TypeError w2.
Proof.
  intros Hm Hsc. exists (set_heap (λ _, silenced m w) w), (stalled m w).
  split; [by apply clearCurrentModel_throws|].
  split; [by apply allDestroyed_stalls|].
  split; [done|]. split; [|split].
  - intros i o Hi Hro Hmx. unfold stalled; cbn.
    rewrite !lookup_alter_opt_at, Hi. cbn. f_equal. unfold at_address.
    destruct (mixer w) as [mx|], (resizeObserver w) as [ro|]; repeat case_decide;
      congruence.
  - intros o ob Hro Ho. unfold stalled; cbn. rewrite Hro.
    rewrite !lookup_alter_opt_at, Ho. cbn. unfold at_address.
    rewrite (decide_True (P := o = o)) by done. cbn.
    destruct (mixer w) as [mx|]; [|done]. by repeat case_decide.
  - rewrite (allDestroyed_stalls (stalled m w) m) by done.
    by rewrite stalled_idemp.
Qed.

Lemma teardown_without_scene_witness :
  model late = Some 9 ∧ scene late = None ∧
  ∃ w2, allDestroyed late = TypeError w2 ∧ model w2 = Some 9 ∧
        allDestroyed w2 = TypeError w2.
Proof.
  split; [reflexivity|]. split; [reflexivity|].
  destruct (teardown_without_scene late 9 eq_refl eq_refl)
    as (w1 & w2 & _ & Hrun & Hsame & _ & _ & Hagain).
  exists w2. split; [exact Hrun|]. split; [|exact Hagain].
  destruct Hsame as (_ & _ & _ & _ & Hm & _). by rewrite Hm.
Defined.

Lemma alter_unchanged (f : Obj → Obj) i (l : list Obj) o :
  l !! i = Some o → f o = o → alter f i l = l.
Proof.
  intros Hi Hf. apply list_eq; intros j. rewrite lookup_alter_at.
  unfold at_address. case_decide as Hij; [subst j|by destruct (l !! j)].
  by rewrite Hi; cbn; rewrite Hf.
Qed.

(** X8.  [allDestroyed] is safe to repeat.  With every handle undefined it
    returns and changes nothing; and once it has returned in a reachable
    state, a second call returns too and changes nothing. *)
Theorem allDestroyed_idempotent :
  (∀ w, all_undefined w → allDestroyed w = Normal tt w) ∧
  (∀ w w', reachable w → allDestroyed w = Normal tt w' →
           allDestroyed w' = Normal tt w').
Proof.
  split.
  - intros [s0 c0 r0 ct0 m0 mx0 ro0 h dpr ld fr]
      (Hs & Hc & Hr & Hct & Hm & Hmx & Hro); cbn in *. by subst.
  - intros w w' Hw Hrun.
    destruct (reachable_sound w Hw) as [(_ & _ & Tr & _ & _ & _ & Tro) _].
    destruct (allDestroyed_returns w (allDestroyed_needs_scene w w' Hrun) Tr)
      as (w'' & Hrun' & Hobs & _).
    rewrite Hrun in Hrun'. injection Hrun' as <-.
    destruct (allDestroyed_handles w w' Hrun) as (Hs & Hc & Hr & Hct & Hm & Hmx & Hro).
    destruct w' as [s0 c0 r0 ct0 m0 mx0 ro0 h dpr ld fr]; cbn in *. subst.
    destruct (resizeObserver w) as [o|] eqn:Ho; [|reflexivity].
    destruct (Tro o eq_refl) as [ob Hob].
    specialize (Hobs o ob eq_refl Hob).
    unfold allDestroyed, mbind, Js_bind, when, update, modify; cbn.
    by rewrite (alter_unchanged _ _ _ _ Hobs).
Qed.

Lemma allDestroyed_idempotent_witness :
  reachable showing ∧
  ∃ w', allDestroyed showing = Normal tt w' ∧ allDestroyed w' = Normal tt w'.
Proof.
  split; [exact reachable_showing|].
  destruct allDestroyed_idempotent as [_ Hagain].
  eexists. split; [vm_compute; reflexivity|].
  apply (Hagain showing _ reachable_showing). vm_compute. reflexivity.
Defined.

(** * Where a [TypeError] can come from *)

Lemma modelPathstate_total newPath oldPath props w :
  ∃ w', modelPathstate newPath oldPath props w = Normal tt w'.
Proof.
  unfold modelPathstate.
  destruct (_ && _ && _) eqn:Hguard; [|by eexists].
  apply modelPathstate_guard in Hguard as (_ & _ & [sc Hsc]).
  destruct w as [s0 c0 r0 ct0 m0 mx0 ro0 h dpr ld fr]. cbn in Hsc; subst s0.
  destruct m0 as [m|], mx0 as [mx|], c0 as [cam|], ct0 as [ctl|];
    try solve [eexists; run].
  all: destruct (h !! ctl ≫= controlled) as [cam'|] eqn:Hk; eexists; run.
Qed.

Lemma updateRendererSize_total e w :
  ∃ w', updateRendererSize e w = Normal tt w'.
Proof.
  unfold updateRendererSize.
  destruct (_ ≫= _) as [el|]; [|by eexists].
  destruct (renderer w) as [r|]; [|by eexists].
  destruct (camera w) as [cam|]; by eexists.
Qed.

Lemma notify_resize_total o w : ∃ w', notify_resize o w = Normal tt w'.
Proof.
  unfold notify_resize. destruct (_ ≫= _) as [ob|]; [|by eexists].
  destruct (observing ob); [by eexists|]. apply updateRendererSize_total.
Qed.

Lemma frame_total w : lifecycle w → ∃ w', frame w = Normal tt w'.
Proof.
  intros Hlife. destruct (animationFrames w) as [|n] eqn:Hn.
  { unfold frame. rewrite Hn. by eexists. }
  destruct Hlife as [([sc Hsc] & [cam Hcam] & [r Hr] & [ctl Hctl] & _)|(_ & _ & _ & Hnone & _)].
  - destruct (frame_up w ctl sc cam r n) as (w' & Hrun & _); try done. by exists w'.
  - unfold frame, mbind, Js_bind, modify. rewrite Hn.
    rewrite animate_idle by (by left). by eexists.
Qed.

(** X12.  The two unguarded uses of [scene] are the only source of a
    [TypeError].  In a reachable state a call stops abruptly exactly when
    no scene exists and it is either [clearCurrentModel] or [allDestroyed]
    with a model defined ([scene.remove]), or the resolution of a load in
    flight ([scene.add]); [init] on an element, [modelPathstate], a frame,
    a layout and a resize notification always return. *)
Theorem typeerror_only_without_scene c w :
  reachable w → admissible c w →
  ((∃ w', perform c w = TypeError w') ↔
   scene w = None ∧
   match c with
   | ClearCurrentModel | AllDestroyed => is_Some (model w)
   | LoadResolved i _ => is_Some (loading w !! i)
   | _ => False
   end).
Proof.
  intros Hw Hadm.
  pose proof (reachable_lifecycle w Hw) as Hlife.
  destruct (reachable_sound w Hw) as [(_ & _ & Tr & _) _].
  assert (∀ r : completion unit,
            (∃ w', r = Normal tt w') → (∃ w', r = TypeError w') → False) as Hno.
  { intros r [w1 ->] [w2 [=]]. }
  destruct c as [props container|newPath oldPath props| | |i gltf| |e width height|o];
    cbn [perform].
  - destruct Hadm as [el Hel]. rewrite (init_returns props container el) by done.
    split; [by intros [w' [=]]|by intros [_ []]].
  - split; [|by intros [_ []]].
    intros Hthrow. destruct (Hno _ (modelPathstate_total newPath oldPath props w) Hthrow).
  - destruct (model w) as [m|] eqn:Hm.
    + destruct (scene w) as [sc|] eqn:Hsc.
      * rewrite (clearCurrentModel_returns w m sc) by done.
        split; [by intros [w' [=]]|by intros [[=] _]].
      * rewrite (clearCurrentModel_throws w m) by done.
        split; [by eauto|by eexists].
    + rewrite clearCurrentModel_idle by done.
      split; [by intros [w' [=]]|by intros [_ [? [=]]]].
  - destruct (model w) as [m|] eqn:Hm.
    + destruct (scene w) as [sc|] eqn:Hsc.
      * destruct (allDestroyed_returns w) as (w' & -> & _);
          [rewrite Hsc; by eauto|done|].
        split; [by intros [? [=]]|by intros [[=] _]].
      * rewrite (allDestroyed_stalls w m) by done.
        split; [by eauto|by eexists].
    + destruct (allDestroyed_returns w) as (w' & -> & _); [by left|done|].
      split; [by intros [? [=]]|by intros [_ [? [=]]]].
  - destruct (resolve_load_completes i gltf w)
      as [(req & sc & Hreq & Hsc & ->)|[(req & Hreq & Hsc & ->)|[Hnone ->]]].
    + split; [by intros [? [=]]|]. rewrite Hsc. by intros [[=] _].
    + split; [|by eexists]. intros _. rewrite Hreq. by eauto.
    + split; [by intros [? [=]]|]. rewrite Hnone. by intros [_ [? [=]]].
  - split; [|by intros [_ []]].
    intros Hthrow. destruct (Hno _ (frame_total w Hlife) Hthrow).
  - split; [by intros [? [=]]|by intros [_ []]].
  - split; [|by intros [_ []]].
    intros Hthrow. destruct (Hno _ (notify_resize_total o w) Hthrow).
Qed.

Lemma reachable_late : reachable late.
Proof. exact (reachable_step (LoadResolved 0 asset) torn_down reachable_torn_down I). Qed.

Lemma typeerror_only_without_scene_witness :
  reachable late ∧ admissible AllDestroyed late ∧
  ∃ w', allDestroyed late = TypeError w'.
Proof.
  split; [exact reachable_late|]. split; [exact I|].
  apply (typeerror_only_without_scene AllDestroyed late reachable_late I).
  split; [reflexivity|]. by eexists.
Defined.

(** * Loads that overlap *)

Lemma remove_first_app_new a l : a ∉ l → remove_first a (l ++ [a]) = l.
Proof.
  induction l as [|b l IH]; cbn.
  - intros _. by rewrite decide_True.
  - rewrite not_elem_of_cons. intros [Hab Hl].
    rewrite decide_False by done. by rewrite IH.
Qed.

Lemma reachable_reloading : reachable reloading.
Proof.
  exact (reachable_step (ModelPathstate "b.glb" "a.glb" cfg) started
           reachable_started I).
Qed.

Lemma reachable_overtaken : reachable overtaken.
Proof.
  exact (reachable_step (LoadResolved 0 asset) reloading reachable_reloading I).
Qed.

(** X6.  A load that resolves while an earlier model is attached does not
    release that model.  The new subtree is attached beside it and takes
    over the model handle, and a new mixer takes over the mixer handle; the
    earlier mixer is left as it was, its actions never stopped.  A
    [clearCurrentModel] after that detaches the new subtree only: the scene
    is back to what it was before the load, the earlier model still among
    its children, and no handle refers to that model any more. *)
Theorem overlapping_loads_orphan i gltf w req sc s m :
  reachable w →
  loading w !! i = Some req → scene w = Some sc → heap w !! sc = Some (OScene s) →
  model w = Some m → m ∈ children s →
  ∃ w' w'' g,
    resolve_load i gltf w = Normal tt w' ∧
    model w' = Some g ∧ g ≠ m ∧
    heap w' !! sc = Some (OScene {| background := background s;
                                    children := children s ++ [g] |}) ∧
    (∀ mx a, mixer w = Some mx → heap w !! mx = Some (OMixer a) →
       mixer w' ≠ Some mx ∧ heap w' !! mx = Some (OMixer a)) ∧
    clearCurrentModel w' = Normal tt w'' ∧
    heap w'' !! sc = Some (OScene s) ∧
    model w'' = Some g ∧
    (∀ mx a, mixer w = Some mx → heap w !! mx = Some (OMixer a) →
       heap w'' !! mx = Some (OMixer a)).
Proof.
  intros Hw Hreq Hsc Hs Hm Hin.
  destruct (reachable_sound w Hw) as [_ Htidy].
  destruct (Forall_lookup_1 _ _ _ _ Htidy Hs s eq_refl) as [_ Hbelow].
  assert (length (heap w) ∉ children s) as Hnew.
  { intros Hc. specialize (Hbelow _ Hc). lia. }
  rewrite (resolve_load_returns i gltf w req sc Hreq Hsc).
  destruct w as [s0 c0 r0 ct0 m0 mx0 ro0 h dpr ld fr]. cbn in * |-. subst.
  unfold after_load; wsimpl.
  eexists _, _, (length h + 0).
  split; [reflexivity|]. split; [reflexivity|].
  split; [specialize (Hbelow _ Hin); lia|]. wsimpl.
  split; [solve_lookup|].
  split.
  { intros mx a -> Ha. split; [|solve_lookup].
    apply lookup_lt_Some in Ha. intros [= ?]. lia. }
  split; [run|]. wsimpl.
  split.
  { eassert (_ !! sc = Some _) as -> by solve_lookup.
    do 2 f_equal. destruct s as [bg ch]. unfold Object3D_remove, Object3D_add; cbn.
    rewrite ?Nat.add_0_r. by rewrite remove_first_app_new. }
  split; [reflexivity|].
  intros mx a -> Ha. solve_lookup.
Qed.

Lemma overlapping_loads_orphan_witness :
  reachable overtaken ∧
  loading overtaken !! 0 = Some {| url := "m.glb"; closure := cfg |} ∧
  model overtaken = Some 9 ∧
  ∃ w' w'', resolve_load 0 asset overtaken = Normal tt w' ∧
    model w' = Some 11 ∧
    clearCurrentModel w' = Normal tt w'' ∧
    heap w'' !! 1 = Some (OScene {| background := None; children := [6; 7; 9] |}).
Proof.
  split; [exact reachable_overtaken|]. split; [reflexivity|]. split; [reflexivity|].
  destruct (overlapping_loads_orphan 0 asset overtaken _ 1
              {| background := None; children := [6; 7; 9] |} 9
              reachable_overtaken eq_refl eq_refl eq_refl eq_refl)
    as (w' & w'' & g & Hrun & Hg & _ & _ & _ & Hclear & Hsc & _).
  { cbn. rewrite !elem_of_cons. auto. }
  exists w', w''. split; [exact Hrun|]. split; [|by split].
  rewrite Hg. vm_compute in Hrun. injection Hrun as <-. vm_compute in Hg.
  by injection Hg as <-.
Defined.

(** * A container without height *)

(** IEEE 754 division by [+0]: no finite quotient. *)
Lemma div_by_zero (a : float) :
  ((a / 0)%float = infinity ∨ (a / 0)%float = neg_infinity ∨ (a / 0)%float = nan) ∧
  ((0 <? a)%float = true → (a / 0)%float = infinity) ∧
  (a = 0%float → (a / 0)%float = nan).
Proof.
  split; [|split].
  - rewrite <- (SF2Prim_Prim2SF (a / 0)), div_spec.
    change (Prim2SF 0) with (S754_zero false).
    destruct (Prim2SF a) as [sg|sg| |sg m e]; cbn.
    + by right; right.
    + destruct sg; [right; left|left]; reflexivity.
    + by right; right.
    + destruct sg; [right; left|left]; reflexivity.
  - rewrite ltb_spec. intros Hpos.
    rewrite <- (SF2Prim_Prim2SF (a / 0)), div_spec.
    change (Prim2SF 0) with (S754_zero false) in *.
    destruct (Prim2SF a) as [sg|sg| |sg m e]; cbn in *; try done;
      by destruct sg.
  - by intros ->.
Qed.

(** X9.  The resize handler divides by the height as it finds it.  When the
    container's [clientHeight] is 0 the handler still returns, and the
    aspect it gives the camera, and computes the projection from, is not a
    finite number: infinity for a positive [clientWidth], NaN when that is 0
    too. *)
Theorem resize_zero_height e el r cam c w :
  heap w !! e = Some (OElement el) → renderer w = Some r → camera w = Some cam →
  heap w !! cam = Some (OCamera c) → clientHeight el = 0%float →
  ∃ w' c',
    updateRendererSize e w = Normal tt w' ∧
    heap w' !! cam = Some (OCamera c') ∧
    f_aspect (projectionMatrix c') = aspect c' ∧
    (aspect c' = infinity ∨ aspect c' = neg_infinity ∨ aspect c' = nan) ∧
    ((0 <? clientWidth el)%float = true → aspect c' = infinity) ∧
    (clientWidth el = 0%float → aspect c' = nan).
Proof.
  intros He Hr Hcam Hc Hzero.
  rewrite (updateRendererSize_unfold e el r cam) by done. rewrite Hzero.
  destruct w as [s0 c0 r0 ct0 m0 mx0 ro0 h dpr ld fr]. cbn in * |-. subst.
  eexists _, _. split; [run|]. wsimpl.
  split; [solve_lookup|]. split; [reflexivity|].
  cbn [aspect updateProjectionMatrix set_aspect].
  apply div_by_zero.
Qed.

Lemma resize_zero_height_witness :
  clientHeight {| clientWidth := 400; clientHeight := 0; childNodes := [3] |} = 0%float ∧
  ∃ w' c', notify_resize 8 flattened = Normal tt w' ∧
           heap w' !! 2 = Some (OCamera c') ∧ aspect c' = infinity.
Proof.
  split; [reflexivity|].
  destruct (resize_zero_height 0 {| clientWidth := 400; clientHeight := 0;
                                    childNodes := [3] |} 4 2 _ flattened
              eq_refl eq_refl eq_refl eq_refl eq_refl)
    as (w' & c' & Hrun & Hc' & _ & _ & Hinf & _).
  exists w', c'. split; [exact Hrun|]. split; [exact Hc'|]. by apply Hinf.
Defined.

(** * Objects along a run *)

#[global] Instance any_scene_preorder : PreOrder any_scene.
Proof. by split. Qed.

#[global] Instance steady_preorder (R : relation Scene) `{!PreOrder R} :
  PreOrder (steady R).
Proof.
  split.
  - intros []; cbn; first [done | reflexivity | by split; [|left]].
  - intros [] [] []; cbn; try done; try congruence.
    + apply transitivity.
    + intros [Hc [Ho| ->]] [Hc' [Ho'|Ho']]; (split; [congruence|]);
        rewrite ?Ho', ?Ho; auto.
Qed.

Lemma steady_eq_any o o' : steady eq o o' → steady any_scene o o'.
Proof. by destruct o, o'. Qed.

Section lifted.
Context (P : relation Obj) `{!PreOrder P}.

#[global] Instance lifted_preorder : PreOrder (lifted P).
Proof.
  split.
  - intros w. apply Forall_Forall2_diag, Forall_forall. by intros o _.
  - intros w1 w2 w3. unfold lifted. apply Forall2_trans.
    intros o1 o2 o3. apply transitivity.
Qed.

Lemma lifted_same_heap w w' : heap w' = heap w → lifted P w w'.
Proof. unfold lifted. intros ->. by apply (reflexivity (R:=lifted P)). Qed.

Lemma lifted_update i f :
  (∀ o, P o (f o)) → preserves (lifted P) (update i f).
Proof.
  intros Hf w. unfold lifted; cbn. apply Forall2_alter_r.
  - by apply (reflexivity (R:=lifted P)).
  - intros o o' _ _ Ho. etransitivity; [exact Ho | apply Hf].
Qed.

Lemma lifted_lookup w w' i o' :
  lifted P w w' → heap w' !! i = Some o' → ∃ o, heap w !! i = Some o ∧ P o o'.
Proof. intros Hl Hi. by eapply Forall2_lookup_r. Qed.

Lemma lifted_lookup_l w w' i o :
  lifted P w w' → heap w !! i = Some o → ∃ o', heap w' !! i = Some o' ∧ P o o'.
Proof. intros Hl Hi. by eapply Forall2_lookup_l. Qed.
End lifted.

Lemma lifted_eq_any w w' : lifted (steady eq) w w' → lifted (steady any_scene) w w'.
Proof. intros Hl. eapply Forall2_impl; [exact Hl|apply steady_eq_any]. Qed.

(** Reduces [preserves (lifted P) m] to the updates of [m], and settles
    those of them that keep [steady]. *)
Ltac settle P :=
  repeat lazymatch goal with
    | |- preserves _ (OrbitControls_update _) => unfold OrbitControls_update
    | |- preserves _ (@mret _ _ _ _) => apply (preserves_ret (lifted P))
    | |- preserves _ (update _ _) =>
        apply (lifted_update P); intros []; cbn;
        first [done | reflexivity | by split; [|left] | by split; [|right]]
    | |- preserves _ (field _ _) => apply (preserves_field (lifted P))
    | |- preserves _ (@mbind _ _ _ _ _ _) =>
        apply (preserves_bind (lifted P)); [|intros ?]
    | |- preserves _ (via _ _) => apply (preserves_via (lifted P)); intros ?
    | |- preserves _ (when _ _) => apply (preserves_when (lifted P)); intros ?
    | |- preserves _ (reading _) => apply (preserves_reading (lifted P)); intros ?
    | |- preserves _ (match _ with Some _ => _ | None => _ end) =>
        apply (preserves_option (lifted P)); [intros ?|]
    | |- preserves _ (modify (set_loading _)) =>
        apply (preserves_modify (lifted P)); intros ?; by apply (lifted_same_heap P)
    | |- preserves _ (modify (set_animationFrames _)) =>
        apply (preserves_modify (lifted P)); intros ?; by apply (lifted_same_heap P)
    end.

Lemma steady_animate : preserves (lifted (steady eq)) animate.
Proof.
  intros w. unfold animate.
  destruct (controls w) as [ctl|]; [|reflexivity].
  destruct (scene w) as [sc|]; [|reflexivity].
  destruct (camera w) as [cam|]; [|reflexivity].
  revert w. change (preserves (lifted (steady eq)) (modify (set_animationFrames S) ;;
    OrbitControls_update ctl ;;
    when mixer (λ mx, update mx (on_mixer (mixer_update 0.016))) ;;
    via renderer (λ r, update r (on_renderer (render sc cam))))).
  settle (steady eq).
Qed.

Lemma steady_frame : preserves (lifted (steady eq)) frame.
Proof.
  intros w. unfold frame. destruct (animationFrames w) as [|n]; [reflexivity|].
  revert w.
  apply (preserves_bind (lifted (steady eq))); [|intros _; apply steady_animate].
  settle (steady eq).
Qed.

Lemma steady_updateRendererSize e : preserves (lifted (steady eq)) (updateRendererSize e).
Proof.
  intros w. unfold updateRendererSize.
  destruct (_ ≫= _) as [el|]; [|reflexivity].
  destruct (renderer w) as [r|]; [|reflexivity].
  destruct (camera w) as [cam|]; [|reflexivity].
  cbv zeta. revert w.
  change (preserves (lifted (steady eq))
    (update r (on_renderer (setSize (clientWidth el) (clientHeight el))) ;;
     update cam (on_camera (set_aspect (clientWidth el / clientHeight el))) ;;
     update cam (on_camera updateProjectionMatrix))).
  settle (steady eq).
Qed.

Lemma steady_notify_resize o : preserves (lifted (steady eq)) (notify_resize o).
Proof.
  intros w. unfold notify_resize.
  destruct (_ ≫= _) as [ob|]; [|reflexivity].
  destruct (observing ob); [reflexivity|]. apply steady_updateRendererSize.
Qed.

Lemma steady_layout e width height :
  preserves (lifted (steady eq)) (layout e width height).
Proof. unfold layout. settle (steady eq). Qed.

Lemma steady_reload props : preserves (lifted (steady eq)) (reload props).
Proof.
  unfold reload, loadModel. settle (steady eq).
Qed.

Lemma steady_release m : preserves (lifted (steady any_scene)) (release m).
Proof. unfold release. settle (steady any_scene). Qed.

Lemma steady_clearCurrentModel : preserves (lifted (steady any_scene)) clearCurrentModel.
Proof. unfold clearCurrentModel. settle (steady any_scene). apply steady_release. Qed.

Lemma steady_ChildNode_remove cv :
  preserves (lifted (steady any_scene)) (ChildNode_remove cv).
Proof. unfold ChildNode_remove. settle (steady any_scene). Qed.

Lemma steady_teardown : preserves (lifted (steady any_scene)) teardown.
Proof.
  unfold teardown. settle (steady any_scene).
  - apply steady_clearCurrentModel.
  - apply steady_ChildNode_remove.
Qed.

Lemma modelPathstate_reload newPath oldPath props w :
  modelPathstate newPath oldPath props w =
  if bool_decide (newPath ≠ "") && bool_decide (newPath ≠ oldPath)
     && bool_decide (is_Some (scene w))
  then (clearCurrentModel ;; reload props) w
  else Normal tt w.
Proof. reflexivity. Qed.

Lemma steady_modelPathstate newPath oldPath props :
  preserves (lifted (steady any_scene)) (modelPathstate newPath oldPath props).
Proof.
  intros w. rewrite modelPathstate_reload. destruct (_ && _ && _); [|reflexivity].
  revert w. apply (preserves_bind (lifted (steady any_scene))).
  - apply steady_clearCurrentModel.
  - intros _ w. apply lifted_eq_any, steady_reload.
Qed.

(** The calls that assign no handle leave every object [steady]. *)
Lemma steady_step c w :
  match c with
  | Init _ _ | AllDestroyed | LoadResolved _ _ => True
  | _ => lifted (steady any_scene) w (world_of (perform c w))
  end.
Proof.
  destruct c; cbn [perform]; try exact I.
  - apply steady_modelPathstate.
  - apply steady_clearCurrentModel.
  - apply lifted_eq_any, steady_frame.
  - apply lifted_eq_any, steady_layout.
  - apply lifted_eq_any, steady_notify_resize.
Qed.

(** * One resize handler at a time *)

Lemma one_observer_quiet w w' :
  same_handles w w' → lifted (steady any_scene) w w' →
  one_observer w → one_observer w'.
Proof.
  intros (Hs & _ & _ & _ & _ & _ & Hro) Hl Hw i ob Hi Hobs.
  destruct (lifted_lookup _ w w' i _ Hl Hi) as (o & Ho & Hst).
  destruct o as [| | | | | | |a| |]; try done. cbn in Hst.
  destruct Hst as [Hcb [Hsame|Hnil]]; [|congruence].
  destruct (Hw i a Ho) as (? & ? & ?); [congruence|].
  rewrite Hs, Hro, Hsame, Hcb. done.
Qed.

Lemma one_observer_after_init props container w :
  one_observer w → one_observer (after_init props container w).
Proof.
  intros Hw i ob Hi Hobs.
  destruct (decide (i < length (heap w))) as [Hlt|Hge].
  - exfalso. destruct (lookup_lt_is_Some_2 _ _ Hlt) as [o Ho].
    rewrite (lookup_after_init _ _ _ _ _ Ho) in Hi. injection Hi as Hi.
    unfold at_address in Hi.
    destruct (resizeObserver w) as [ro|] eqn:Hro.
    + destruct (decide (ro = i)) as [->|Hne].
      * destruct (mixer w), o; repeat case_decide; simplify_eq/=; done.
      * assert (o = OObserver ob) as ->
          by (destruct (mixer w), o; repeat case_decide; by simplify_eq/=).
        destruct (Hw i ob Ho Hobs) as (? & _). congruence.
    + assert (o = OObserver ob) as ->
        by (destruct (mixer w), o; repeat case_decide; by simplify_eq/=).
      destruct (Hw i ob Ho Hobs) as (? & _). congruence.
  - unfold after_init in *; cbn in *.
    rewrite lookup_app_r in Hi by (rewrite !length_alter_opt, length_alter; lia).
    rewrite !length_alter_opt, length_alter in Hi.
    destruct (i - length (heap w)) as [|[|[|[|[|[|[|[|k]]]]]]]] eqn:Hk;
      simplify_eq/=.
    split; [f_equal; lia|]. split; [by eexists|done].
Qed.

Lemma one_observer_after_load props clips i sc w :
  one_observer w → one_observer (after_load props clips i sc w).
Proof.
  intros Hw j ob Hj Hobs. unfold after_load in *; cbn in *.
  destruct (decide (j < length (heap w))) as [Hlt|Hge].
  - rewrite lookup_app_l in Hj by (by rewrite length_alter).
    rewrite lookup_alter_at in Hj.
    destruct (heap w !! j) as [o|] eqn:Ho; [|done]. injection Hj as Hj.
    unfold at_address in Hj.
    assert (o = OObserver ob) as -> by (destruct o; case_decide; by simplify_eq/=).
    by apply Hw.
  - rewrite lookup_app_r in Hj by (rewrite length_alter; lia).
    rewrite length_alter in Hj.
    by destruct (j - length (heap w)) as [|[|k]].
Qed.

Lemma one_observer_after_late_load props i w :
  scene w = None → one_observer w → one_observer (after_late_load props i w).
Proof.
  intros Hsc Hw j ob Hj Hobs. unfold after_late_load in *; cbn in *.
  destruct (decide (j < length (heap w))) as [Hlt|Hge].
  - rewrite lookup_app_l in Hj by done. by apply Hw.
  - rewrite lookup_app_r in Hj by lia.
    by destruct (j - length (heap w)) as [|k].
Qed.

Lemma one_observer_step c w :
  reachable w → admissible c w → one_observer w →
  one_observer (world_of (perform c w)).
Proof.
  intros Hreach Hadm Hw.
  pose proof (same_handles_step c w) as Hsame.
  pose proof (steady_step c w) as Hsteady.
  destruct c as [props container|newPath oldPath props| | |i gltf| |e width height|o];
    cbn [perform] in *; try (by eapply one_observer_quiet).
  - destruct Hadm as [el Hel]. rewrite (init_returns props container el) by done.
    by apply one_observer_after_init.
  - assert (one_observer (world_of (teardown w))) as Hw1.
    { eapply one_observer_quiet; [apply same_handles_teardown| |done].
      apply steady_teardown. }
    destruct (allDestroyed w) as [[] w'|w'] eqn:Hrun.
    + cbn. intros i ob Hi Hobs. exfalso.
      destruct (reachable_sound w Hreach) as [(_ & _ & Tr & _ & _ & _ & Tro) _].
      destruct (allDestroyed_returns w (allDestroyed_needs_scene w w' Hrun) Tr)
        as (w'' & Hrun' & Hdisc & _).
      rewrite Hrun in Hrun'. injection Hrun' as <-.
      rewrite allDestroyed_split in Hrun.
      pose proof (same_handles_teardown w) as (_ & _ & _ & _ & _ & _ & Hro).
      destruct (teardown w) as [[] w1|w1]; [|done]. injection Hrun as <-.
      cbn in *. destruct (Hw1 i ob Hi Hobs) as (Hhandle & _).
      rewrite Hro in Hhandle.
      destruct (Tro i Hhandle) as [ob0 Hob0].
      specialize (Hdisc i ob0 Hhandle Hob0). by simplify_eq/=.
    + rewrite allDestroyed_split in Hrun.
      destruct (teardown w) as [[] w1|w1]; by simplify_eq/=.
  - destruct (resolve_load_completes i gltf w)
      as [(req & sc & _ & _ & ->)|[(req & _ & Hsc & ->)|[_ ->]]]; cbn.
    + by apply one_observer_after_load.
    + by apply one_observer_after_late_load.
    + done.
Qed.

Lemma reachable_one_observer w : reachable w → one_observer w.
Proof.
  induction 1 as [w (_&_&_&_&_&_&_&_&_&Hel)|c w Hw IH Hadm].
  - intros i ob Hi _. exfalso.
    destruct (Forall_lookup_1 _ _ _ _ Hel Hi) as [e He]. discriminate He.
  - by apply one_observer_step.
Qed.

Lemma reachable_restarted : reachable restarted.
Proof.
  apply (reachable_step (Init cfg 0) showing reachable_showing). by eexists.
Qed.

(** X10.  However often [init] and [allDestroyed] have been called, at most
    one resize handler is live.  In a reachable state an observer that
    observes anything is the one the handle refers to, a scene exists, and
    what it observes is the one element its callback is bound to; a size
    change reported by any other observer, or with no scene, runs
    nothing. *)
Theorem single_resize_handler w :
  reachable w →
  (∀ i ob, heap w !! i = Some (OObserver ob) → observing ob ≠ [] →
     resizeObserver w = Some i ∧ is_Some (scene w) ∧
     observing ob = [callback ob]) ∧
  (∀ o, resizeObserver w ≠ Some o ∨ scene w = None →
     notify_resize o w = Normal tt w).
Proof.
  intros Hw. pose proof (reachable_one_observer w Hw) as Hone.
  split; [exact Hone|].
  intros o Hdead. unfold notify_resize.
  destruct (heap w !! o) as [[| | | | | | |ob| |]|] eqn:Ho; try done. cbn.
  destruct (observing ob) as [|e l] eqn:Hobs; [done|]. exfalso.
  destruct (Hone o ob Ho) as (Hhandle & [sc Hsc] & _); [by rewrite Hobs|].
  destruct Hdead; congruence.
Qed.

Lemma single_resize_handler_witness :
  reachable restarted ∧ resizeObserver restarted ≠ Some 8 ∧
  heap restarted !! 8 = Some (OObserver {| callback := 0; observing := [] |}) ∧
  notify_resize 8 restarted = Normal tt restarted.
Proof.
  split; [exact reachable_restarted|]. split; [done|]. split; [reflexivity|].
  apply (single_resize_handler restarted reachable_restarted). by left.
Defined.

(** * The mixer and the model it animates *)

Lemma bound_quiet w w' :
  same_handles w w' → lifted (steady any_scene) w w' → bound w → bound w'.
Proof.
  intros (_ & _ & _ & _ & Hm & Hmx & _) Hl Hw mx Hmx'.
  rewrite Hmx in Hmx'. destruct (Hw mx Hmx') as (m & a & Hmod & Ha & Hroot).
  destruct (lifted_lookup_l _ w w' mx _ Hl Ha) as (o' & Ho' & Hst).
  destruct o' as [| | | | | |a'| | |]; try done. cbn in Hst.
  exists m, a'. rewrite Hm. split; [done|]. split; [done|]. congruence.
Qed.

Lemma bound_step c w :
  admissible c w → lifecycle w → bound w → bound (world_of (perform c w)).
Proof.
  intros Hadm Hlife Hw.
  pose proof (same_handles_step c w) as Hsame.
  pose proof (steady_step c w) as Hsteady.
  destruct c as [props container|newPath oldPath props| | |i gltf| |e width height|o];
    cbn [perform] in *; try (by eapply bound_quiet).
  - destruct Hadm as [el Hel]. rewrite (init_returns props container el) by done.
    intros mx Hmx. cbn in Hmx. destruct (Hw mx Hmx) as (m & a & Hmod & Ha & Hroot).
    cbn [world_of]. rewrite (lookup_after_init _ _ _ _ _ Ha). rewrite Hmx.
    unfold at_address. rewrite (decide_True (P := mx = mx)) by done.
    destruct (resizeObserver w) as [ro|]; repeat case_decide; cbn;
      eexists m, _; (split; [done|]); (split; [reflexivity|done]).
  - rewrite allDestroyed_split.
    pose proof (same_handles_teardown w) as Hsame'.
    pose proof (steady_teardown w) as Hsteady'.
    destruct (teardown w) as [[] w1|w1]; cbn in *.
    + by intros mx [=].
    + by eapply bound_quiet.
  - destruct (resolve_load_completes i gltf w)
      as [(req & sc & _ & _ & ->)|[(req & _ & Hsc & ->)|[_ ->]]]; cbn.
    + intros mx [= <-]. unfold after_load; cbn.
      eexists _, _. split; [reflexivity|]. split; [solve_lookup|].
      by rewrite play_all_root.
    + intros mx Hmx. cbn in Hmx.
      destruct Hlife as [([? ?] & _)|(_ & _ & _ & _ & Hnone)]; congruence.
    + done.
Qed.

Lemma reachable_bound w : reachable w → bound w.
Proof.
  induction 1 as [w (_&_&_&_&_&Hmx&_)|c w Hw IH Hadm].
  - intros mx. by rewrite Hmx.
  - apply bound_step; [done| |done]. by apply reachable_lifecycle.
Qed.

(** X11.  In a reachable state a mixer that is defined is rooted at the
    subtree the model handle refers to, and a scene exists.  So
    [clearCurrentModel] returns, and [mixer.uncacheRoot(model)] leaves that
    mixer without a single cached action; its clock is not reset. *)
Theorem mixer_bound_to_model w mx :
  reachable w → mixer w = Some mx →
  ∃ m sc a,
    model w = Some m ∧ scene w = Some sc ∧
    heap w !! mx = Some (OMixer a) ∧ root a = m ∧
    ∃ w' a',
      clearCurrentModel w = Normal tt w' ∧
      heap w' !! mx = Some (OMixer a') ∧
      actions a' = [] ∧ root a' = m ∧ time a' = time a.
Proof.
  intros Hw Hmx.
  destruct (reachable_bound w Hw mx Hmx) as (m & a & Hm & Ha & Hroot).
  destruct (reachable_lifecycle w Hw) as [([sc Hsc] & _)|(_ & _ & _ & _ & Hnone)];
    [|congruence].
  exists m, sc, a. do 4 (split; [done|]).
  exists (set_heap (λ _, detached m sc w) w), (uncacheRoot m (stopAllAction a)).
  split; [by apply clearCurrentModel_returns|].
  split.
  - unfold detached, silenced; cbn [heap set_heap]. rewrite Hmx; cbn [alter_opt].
    solve_lookup.
  - unfold uncacheRoot, stopAllAction; cbn. by rewrite decide_True.
Qed.

Lemma mixer_bound_to_model_witness :
  reachable showing ∧ mixer showing = Some 10 ∧ model showing = Some 9 ∧
  ∃ a w' a', heap showing !! 10 = Some (OMixer a) ∧ length (actions a) = 2 ∧
    clearCurrentModel showing = Normal tt w' ∧
    heap w' !! 10 = Some (OMixer a') ∧ actions a' = [].
Proof.
  split; [exact reachable_showing|]. split; [reflexivity|]. split; [reflexivity|].
  destruct (mixer_bound_to_model showing 10 reachable_showing eq_refl)
    as (m & sc & a & _ & _ & Ha & _ & w' & a' & Hrun & Ha' & Hnone & _).
  exists a, w', a'. split; [exact Ha|]. split; [|by repeat split].
  vm_compute in Ha. by injection Ha as <-.
Defined.

(** * The lights of the scene *)

Lemma lit_quiet w w' :
  same_handles w w' → lifted (steady eq) w w' → lit w → lit w'.
Proof.
  intros (Hs & _) Hl Hw sc Hsc. rewrite Hs in Hsc.
  destruct (Hw sc Hsc) as (s & a & d & rest & Hsc' & Hch & Ha & Hd & Hrest).
  assert (∀ i o, heap w !! i = Some o →
            ∃ o', heap w' !! i = Some o' ∧ steady eq o o') as Hnext
    by (intros i o Hi; by eapply lifted_lookup_l).
  exists s, a, d, rest.
  split.
  { destruct (Hnext _ _ Hsc') as ([] & ? & Hst); try done. cbn in Hst. by subst. }
  split; [done|]. split.
  { destruct (Hnext _ _ Ha) as ([] & ? & Hst); try done. cbn in Hst. by subst. }
  split.
  { destruct (Hnext _ _ Hd) as ([] & ? & Hst); try done. cbn in Hst. by subst. }
  eapply Forall_impl; [exact Hrest|]. intros c [g Hg].
  destruct (Hnext _ _ Hg) as ([] & ? & ?); try done. by eauto.
Qed.

Lemma same_handles_heap f w : same_handles w (set_heap f w).
Proof. done. Qed.

Lemma same_handles_reload props : preserves same_handles (reload props).
Proof.
  unfold reload, loadModel. apply (preserves_bind same_handles); [by intros w|].
  intros _. keeping same_handles same_handles_heap.
Qed.

Lemma lookup_detached m sc w i o :
  heap w !! i = Some o →
  detached m sc w !! i =
  Some (at_address (on_scene (Object3D_remove m)) sc i
          (match mixer w with
           | Some mx => at_address (on_mixer (uncacheRoot m)) mx i
                          (at_address (on_mixer stopAllAction) mx i o)
           | None => o
           end)).
Proof.
  intros Hi. unfold detached, silenced.
  rewrite lookup_alter_at, !lookup_alter_opt_at, Hi. cbn.
  by destruct (mixer w).
Qed.

Lemma lit_released w m sc :
  model w = Some m → scene w = Some sc →
  (∃ g, heap w !! m = Some (OGroup g)) →
  lit w → lit (set_heap (λ _, detached m sc w) w).
Proof.
  intros Hm Hsc [g Hg] Hw sc' Hsc'. cbn in Hsc'.
  rewrite Hsc in Hsc'. injection Hsc' as <-.
  destruct (Hw sc Hsc) as (s & a & d & rest & Hs & Hch & Ha & Hd & Hrest).
  exists (Object3D_remove m s), a, d, (remove_first m rest). cbn [heap set_heap].
  split.
  { rewrite (lookup_detached _ _ _ _ _ Hs). unfold at_address.
    rewrite (decide_True (P := sc = sc)) by done.
    by destruct (mixer w); repeat case_decide. }
  split.
  { cbn. rewrite Hch. cbn.
    rewrite decide_False by (intros ->; congruence).
    rewrite decide_False by (intros ->; congruence). done. }
  split.
  { rewrite (lookup_detached _ _ _ _ _ Ha). unfold at_address.
    by destruct (mixer w); repeat case_decide. }
  split.
  { rewrite (lookup_detached _ _ _ _ _ Hd). unfold at_address.
    by destruct (mixer w); repeat case_decide. }
  rewrite Forall_forall in Hrest. apply Forall_forall. intros c Hc.
  destruct (Hrest c) as [gc Hgc].
  { eapply elem_of_sublist; [exact Hc|apply remove_first_sublist]. }
  exists gc. rewrite (lookup_detached _ _ _ _ _ Hgc). unfold at_address.
  by destruct (mixer w); repeat case_decide.
Qed.

Lemma lit_after_init props container w : lit (after_init props container w).
Proof.
  intros sc [= <-]. unfold after_init; cbn [heap].
  eexists _, _, _, [].
  destruct (mixer w) as [mx|], (resizeObserver w) as [o|]; cbn [alter_opt].
  all: split; [solve_lookup|]; split; [reflexivity|].
  all: split; [solve_lookup|]; split; [solve_lookup|]; constructor.
Qed.

Lemma lit_after_load props clips i sc w :
  scene w = Some sc → lit w → lit (after_load props clips i sc w).
Proof.
  intros Hsc Hw sc' Hsc'. cbn in Hsc'. rewrite Hsc in Hsc'. injection Hsc' as <-.
  destruct (Hw sc Hsc) as (s & a & d & rest & Hs & Hch & Ha & Hd & Hrest).
  unfold after_load; cbn [heap].
  exists (Object3D_add (length (heap w) + 0) s), a, d, (rest ++ [length (heap w) + 0]).
  split; [solve_lookup|]. split; [cbn; by rewrite Hch|].
  split; [solve_lookup|]. split; [solve_lookup|].
  apply Forall_app. split.
  - eapply Forall_impl; [exact Hrest|]. intros c [g Hg]. exists g. solve_lookup.
  - constructor; [|constructor]. eexists. solve_lookup.
Qed.

Lemma lit_without_scene w : scene w = None → lit w.
Proof. intros Hnone sc Hsc. congruence. Qed.

Lemma lit_clearCurrentModel w :
  sound w → lit w → lit (world_of (clearCurrentModel w)).
Proof.
  intros [(_ & _ & _ & _ & Tm & _) _] Hw.
  destruct (model w) as [m|] eqn:Hm.
  - destruct (scene w) as [sc|] eqn:Hsc.
    + rewrite (clearCurrentModel_returns w m sc) by done.
      by apply lit_released; [| |apply Tm|].
    + rewrite (clearCurrentModel_throws w m) by done. by apply lit_without_scene.
  - by rewrite clearCurrentModel_idle.
Qed.

Lemma lit_step c w :
  reachable w → admissible c w → lit w → lit (world_of (perform c w)).
Proof.
  intros Hreach Hadm Hw.
  pose proof (reachable_sound w Hreach) as Hsound.
  pose proof (same_handles_step c w) as Hsame.
  destruct c as [props container|newPath oldPath props| | |i gltf| |e width height|o];
    cbn [perform] in *.
  - destruct Hadm as [el Hel]. rewrite (init_returns props container el) by done.
    apply lit_after_init.
  - rewrite modelPathstate_reload. destruct (_ && _ && _) eqn:Hguard; [|done].
    apply modelPathstate_guard in Hguard as (_ & _ & [sc Hsc]).
    pose proof (lit_clearCurrentModel w Hsound Hw) as Hw1.
    unfold mbind, Js_bind.
    assert (∃ w1, clearCurrentModel w = Normal tt w1) as [w1 Hrun].
    { destruct (model w) as [m|] eqn:Hm.
      - rewrite (clearCurrentModel_returns w m sc) by done. by eexists.
      - rewrite clearCurrentModel_idle by done. by eexists. }
    rewrite Hrun in *. cbn in Hw1.
    eapply lit_quiet; [apply same_handles_reload|apply steady_reload|done].
  - by apply lit_clearCurrentModel.
  - destruct (allDestroyed w) as [[] w'|w'] eqn:Hrun; cbn.
    + apply lit_without_scene. by apply allDestroyed_handles in Hrun as (? & _).
    + destruct Hsound as [(_ & _ & Tr & _) _].
      destruct (model w) as [m|] eqn:Hm.
      * destruct (scene w) as [sc|] eqn:Hsc.
        -- destruct (allDestroyed_returns w) as (w'' & Hrun' & _);
             [rewrite Hsc; by eauto|done|congruence].
        -- rewrite (allDestroyed_stalls w m) in Hrun by done.
           injection Hrun as <-. by apply lit_without_scene.
      * destruct (allDestroyed_returns w) as (w'' & Hrun' & _);
          [by left|done|congruence].
  - destruct (resolve_load_completes i gltf w)
      as [(req & sc & _ & Hsc & ->)|[(req & _ & Hsc & ->)|[_ ->]]]; cbn.
    + by apply lit_after_load.
    + by apply lit_without_scene.
    + done.
  - eapply lit_quiet; [done|apply steady_frame|done].
  - eapply lit_quiet; [done|apply steady_layout|done].
  - eapply lit_quiet; [done|apply steady_notify_resize|done].
Qed.

(** X13.  No call takes a light out of the scene or changes one.  In a
    state reached by calls in which [init] was only ever given an element
    of the document, a scene that exists has children that begin with the
    ambient light (white, intensity 0.5) and the directional light (white,
    intensity 1, at (5,5,5)) that [init] put there, and every child after
    them is a loaded subtree. *)
Theorem lights_stay w sc :
  reachable w → scene w = Some sc →
  ∃ s a d rest,
    heap w !! sc = Some (OScene s) ∧ children s = a :: d :: rest ∧
    heap w !! a = Some (OLight ambient) ∧
    heap w !! d = Some (OLight directional) ∧
    Forall (λ c, ∃ g, heap w !! c = Some (OGroup g)) rest.
Proof.
  intros Hw. revert sc. change (lit w).
  induction Hw as [w (Hs & _)|c w Hw IH Hadm].
  - by apply lit_without_scene.
  - by apply lit_step.
Qed.

Lemma lights_stay_witness :
  reachable overtaken ∧ scene overtaken = Some 1 ∧
  ∃ rest, heap overtaken !! 1 =
            Some (OScene {| background := None; children := 6 :: 7 :: rest |}) ∧
          heap overtaken !! 6 = Some (OLight ambient) ∧
          heap overtaken !! 7 = Some (OLight directional).
Proof.
  split; [exact reachable_overtaken|]. split; [reflexivity|].
  destruct (lights_stay overtaken 1 reachable_overtaken eq_refl)
    as (s & a & d & rest & Hs & Hch & Ha & Hd & _).
  vm_compute in Hs. injection Hs as <-. injection Hch as <- <- <-.
  eexists. split; [reflexivity|]. by split.
Defined.

(** * A load that outlives its scene *)

Lemma after_init_scene props container w :
  heap (after_init props container w) !! (length (heap w) + 0)
  = Some (OScene {| background := None;
                    children := [length (heap w) + 5; length (heap w) + 6] |}) ∧
  heap (after_init props container w) !! (length (heap w) + 5)
  = Some (OLight ambient) ∧
  heap (after_init props container w) !! (length (heap w) + 6)
  = Some (OLight directional).
Proof.
  unfold after_init; cbn [heap].
  destruct (mixer w) as [mx|], (resizeObserver w) as [o|]; cbn [alter_opt];
    repeat split; solve_lookup.
Qed.

Lemma after_load_scene props clips i sc w s :
  heap w !! sc = Some (OScene s) →
  heap (after_load props clips i sc w) !! sc
  = Some (OScene (Object3D_add (length (heap w) + 0) s)) ∧
  heap (after_load props clips i sc w) !! (length (heap w) + 0)
  = Some (OGroup {| grp_scale := Vec3 (scale props) (scale props) (scale props);
                    grp_position := Vec3 (x (position props)) (y (position props))
                                         (z (position props)) |}).
Proof. intros Hs. unfold after_load; cbn [heap]. split; solve_lookup. Qed.

(** X14.  A load is bound to the module's variables, not to the scene that
    was there when it was requested.  When [allDestroyed] and a new [init]
    have run while a load was in flight, that load is still in flight, and
    when it resolves its subtree, scaled and placed by the [props] of the
    call that requested it, joins the two lights of the new scene and takes
    over the model handle. *)
Theorem stale_load_joins_next_scene props container el i gltf req w :
  reachable w → loading w !! i = Some req →
  heap w !! container = Some (OElement el) →
  ∃ w2 w3 sc g a d,
    init props container (world_of (allDestroyed w)) = Normal tt w2 ∧
    loading w2 !! i = Some req ∧
    scene w2 = Some sc ∧ heap w !! sc = None ∧
    resolve_load i gltf w2 = Normal tt w3 ∧
    model w3 = Some g ∧
    heap w3 !! g =
      Some (OGroup {| grp_scale := Vec3 (scale (closure req)) (scale (closure req))
                                        (scale (closure req));
                      grp_position := Vec3 (x (position (closure req)))
                                           (y (position (closure req)))
                                           (z (position (closure req))) |}) ∧
    heap w3 !! sc = Some (OScene {| background := None; children := [a; d; g] |}) ∧
    heap w3 !! a = Some (OLight ambient) ∧
    heap w3 !! d = Some (OLight directional).
Proof.
  intros Hw Hreq Hel.
  set (w1 := world_of (allDestroyed w)).
  destruct (allDestroyed_keeps_element w container el Hel) as [el' Hel'].
  fold w1 in Hel'.
  assert (loading w `prefix_of` loading w1) as Hpre
    by apply allDestroyed_keeps_loading.
  assert (length (heap w1) = length (heap w)) as Hlen.
  { unfold w1. rewrite allDestroyed_split.
    pose proof (evolves_teardown w) as Hev. apply Forall2_length in Hev.
    by destruct (teardown w) as [[] w'|w']. }
  set (w2 := after_init props container w1).
  set (sc := length (heap w1) + 0).
  assert (loading w2 !! i = Some req) as Hreq2.
  { unfold w2; cbn. apply lookup_app_l_Some.
    by eapply prefix_lookup_Some. }
  destruct (after_init_scene props container w1) as (Hsc & Ha & Hd).
  fold w2 sc in Hsc. fold w2 in Ha, Hd.
  destruct (after_load_scene (closure req) (animations gltf) i sc w2 _ Hsc)
    as (Hsc3 & Hg).
  exists w2, (after_load (closure req) (animations gltf) i sc w2), sc,
    (length (heap w2) + 0), (length (heap w1) + 5), (length (heap w1) + 6).
  split; [by eapply init_returns|]. split; [done|].
  split; [reflexivity|]. split; [apply lookup_ge_None; unfold sc; lia|].
  split; [by apply resolve_load_returns|]. split; [reflexivity|].
  split; [done|]. split; [done|].
  assert (∀ j o, heap w2 !! j = Some o → (∀ s, o ≠ OScene s) →
            heap (after_load (closure req) (animations gltf) i sc w2) !! j = Some o)
    as Hkeep.
  { intros j o Hj Hns. unfold after_load; cbn [heap].
    apply lookup_app_l_Some. rewrite lookup_alter_at, Hj. cbn. f_equal.
    unfold at_address. case_decide; [|done]. destruct o; try done. by destruct (Hns s). }
  split; by apply Hkeep.
Qed.

Lemma stale_load_joins_next_scene_witness :
  reachable started ∧
  loading started !! 0 = Some {| url := "m.glb"; closure := cfg |} ∧
  ∃ w2 w3 sc, init cfg 0 (world_of (allDestroyed started)) = Normal tt w2 ∧
    scene started = Some 1 ∧ scene w2 = Some sc ∧ sc ≠ 1 ∧
    resolve_load 0 asset w2 = Normal tt w3 ∧
    ∃ a d g, heap w3 !! sc = Some (OScene {| background := None;
                                            children := [a; d; g] |}) ∧
             model w3 = Some g.
Proof.
  split; [exact reachable_started|]. split; [reflexivity|].
  destruct (stale_load_joins_next_scene cfg 0 _ 0 asset _ started
              reachable_started eq_refl eq_refl)
    as (w2 & w3 & sc & g & a & d & Hinit & _ & Hsc & Hnew & Hrun & Hg & _ & Hsc3 & _).
  exists w2, w3, sc. split; [exact Hinit|]. split; [reflexivity|].
  split; [exact Hsc|]. split; [intros ->; discriminate Hnew|].
  split; [exact Hrun|]. by exists a, d, g.
Defined.

(** * A reload from request to completion *)

Lemma reload_returns props w :
  ∃ w', reload props w = Normal tt w' ∧
        loading w' = loading w ++ [{| url := modelPath props; closure := props |}].
Proof.
  destruct w as [s0 c0 r0 ct0 m0 mx0 ro0 h dpr ld fr].
  unfold reload, loadModel.
  destruct c0 as [cam|], ct0 as [ctl|];
    try solve [eexists; (split; [run|reflexivity])].
  destruct (h !! ctl ≫= controlled) as [cam'|] eqn:Hk;
    eexists; (split; [run|reflexivity]).
Qed.

(** X15.  With no other load in the way a reload swaps the model.  In a
    reachable state whose scene ends with the current model, a
    [modelPathstate] that passes its guard returns with one more load
    pending, and when that load resolves the scene is what it was with the
    new subtree in the place of the earlier model, which is no child any
    more; the model handle refers to the new subtree. *)
Theorem reload_swaps_model newPath oldPath props gltf w sc s rest m :
  reachable w →
  newPath ≠ "" → newPath ≠ oldPath → scene w = Some sc →
  heap w !! sc = Some (OScene s) → model w = Some m → children s = rest ++ [m] →
  ∃ w1 w2 g,
    modelPathstate newPath oldPath props w = Normal tt w1 ∧
    loading w1 = loading w ++ [{| url := modelPath props; closure := props |}] ∧
    heap w1 !! sc = Some (OScene {| background := background s; children := rest |}) ∧
    resolve_load (length (loading w)) gltf w1 = Normal tt w2 ∧
    loading w2 = loading w ∧
    model w2 = Some g ∧ heap w !! g = None ∧
    heap w2 !! sc = Some (OScene {| background := background s;
                                    children := rest ++ [g] |}) ∧
    m ∉ rest ++ [g].
Proof.
  intros Hw Hne Hdiff Hsc Hs Hm Hch.
  pose proof (NoDup_scene w sc s Hw Hs) as Hnodup. rewrite Hch in Hnodup.
  apply NoDup_app in Hnodup as (_ & Hfresh & _).
  assert (m ∉ rest) as Hm_rest.
  { intros Hin. apply (Hfresh m Hin). apply list_elem_of_here. }
  set (w0 := set_heap (λ _, detached m sc w) w).
  assert (heap w0 !! sc
          = Some (OScene {| background := background s; children := rest |})) as Hs0.
  { unfold w0; cbn. rewrite (lookup_detached _ _ _ _ _ Hs). unfold at_address.
    rewrite (decide_True (P := sc = sc)) by done.
    assert (Object3D_remove m s = {| background := background s; children := rest |})
      as <- by (unfold Object3D_remove; by rewrite Hch, remove_first_app_new).
    by destruct (mixer w); repeat case_decide. }
  destruct (reload_returns props w0) as (w1 & Hrun1 & Hld1).
  pose proof (same_handles_reload props w0) as Hsame. rewrite Hrun1 in Hsame.
  pose proof (steady_reload props w0) as Hsteady. rewrite Hrun1 in Hsteady.
  cbn in Hsame, Hsteady. destruct Hsame as (Hsc1 & _).
  assert (heap w1 !! sc
          = Some (OScene {| background := background s; children := rest |})) as Hs1.
  { destruct (lifted_lookup_l _ w0 w1 sc _ Hsteady Hs0) as ([] & Hs1 & Hst);
      try done. cbn in Hst. by subst. }
  assert (length (heap w1) = length (heap w)) as Hlen.
  { apply Forall2_length in Hsteady. rewrite <- Hsteady. unfold w0; cbn.
    unfold detached, silenced. by rewrite length_alter, !length_alter_opt. }
  assert (modelPathstate newPath oldPath props w = Normal tt w1) as Hrun.
  { rewrite modelPathstate_reload.
    assert (bool_decide (newPath ≠ "") && bool_decide (newPath ≠ oldPath)
            && bool_decide (is_Some (scene w)) = true) as ->
      by (apply modelPathstate_guard; rewrite Hsc; eauto).
    unfold mbind, Js_bind. by rewrite (clearCurrentModel_returns w m sc). }
  assert (loading w1 !! length (loading w)
          = Some {| url := modelPath props; closure := props |}) as Hreq.
  { rewrite Hld1. unfold w0; cbn. by rewrite lookup_app_r, Nat.sub_diag by lia. }
  assert (scene w1 = Some sc) as Hsc1' by (by rewrite Hsc1).
  destruct (after_load_scene props (animations gltf) (length (loading w)) sc w1 _ Hs1)
    as (Hs2 & _).
  exists w1, (after_load props (animations gltf) (length (loading w)) sc w1),
    (length (heap w1) + 0).
  split; [exact Hrun|]. split; [by rewrite Hld1|]. split; [exact Hs1|].
  split; [by rewrite (resolve_load_returns _ gltf w1 _ sc Hreq Hsc1')|].
  split.
  { cbn. rewrite Hld1. unfold w0; cbn.
    by rewrite delete_middle, app_nil_r. }
  split; [reflexivity|]. split; [apply lookup_ge_None; lia|].
  split; [exact Hs2|].
  rewrite not_elem_of_app, list_elem_of_singleton. split; [done|].
  destruct (reachable_sound w Hw) as [(_ & _ & _ & _ & Tm & _) _].
  destruct (Tm m Hm) as [gm Hgm]. apply lookup_lt_Some in Hgm. lia.
Qed.

Lemma reload_swaps_model_witness :
  reachable showing ∧ "b.glb" ≠ "" ∧ "b.glb" ≠ "a.glb" ∧
  model showing = Some 9 ∧
  ∃ w1 w2 g,
    modelPathstate "b.glb" "a.glb" cfg showing = Normal tt w1 ∧
    resolve_load 0 asset w1 = Normal tt w2 ∧
    heap w2 !! 1 = Some (OScene {| background := None; children := [6; 7; g] |}) ∧
    g ≠ 9.
Proof.
  split; [exact reachable_showing|]. split; [done|]. split; [done|].
  split; [reflexivity|].
  destruct (reload_swaps_model "b.glb" "a.glb" cfg asset showing 1
              {| background := None; children := [6; 7; 9] |} [6; 7] 9
              reachable_showing)
    as (w1 & w2 & g & Hrun1 & _ & _ & Hrun2 & _ & _ & Hnew & Hs2 & _);
    try done.
  exists w1, w2, g. split; [exact Hrun1|]. split; [exact Hrun2|].
  split; [exact Hs2|]. intros ->. discriminate Hnew.
Defined.

(** * The controller and its camera *)






(** * A reload *)




